(** * Trocco batch search: the request client and the scan orchestrator

    A shallow embedding of [src/troccoClient.js] (module [Client]) and of the
    tool handler of [src/server.js] (module [Search]), preceded by the few
    JavaScript primitives both rely on (module [Js]).

    Modelling conventions:
    - a JavaScript string is a [string]; the embedding covers the strings
      whose code units are below 256, and [toLowerCase] is the platform's
      on that range;
    - [undefined] is [None] in an [option]; [null] is [JNull] where the two
      have to be told apart;
    - an exception is a [Throws]/[Thrown] result, never a missing case;
    - the remote API and the platform's URL and JSON parsers are inputs of
      the model: every theorem holds whatever they answer. *)

From Stdlib Require Import ZArith Lia Ascii String DecimalString.
From stdpp Require Import base list strings.

Local Open Scope string_scope.
Set Warnings "-register-all".

(* ================================================================== *)
(** * JavaScript primitives *)
(* ================================================================== *)

Module Js.

(** ** Strings *)

(** The lower-case form of a code unit below 256: the letters A-Z and
    the accented capitals U+00C0-U+00DE, the sign U+00D7 excepted, move
    up by 32. *)
Definition lower_char (c : ascii) : ascii :=
  let n := nat_of_ascii c in
  if ((65 <=? n)%nat && (n <=? 90)%nat)
     || ((192 <=? n)%nat && (n <=? 222)%nat && negb (n =? 215)%nat)
  then ascii_of_nat (n + 32) else c.

(** [String.prototype.toLowerCase]. *)
Fixpoint toLowerCase (s : string) : string :=
  match s with
  | EmptyString => EmptyString
  | String c s' => String (lower_char c) (toLowerCase s')
  end.

(** [s.startsWith(p)]. *)
Fixpoint startsWith (s p : string) : bool :=
  match p, s with
  | EmptyString, _ => true
  | String _ _, EmptyString => false
  | String a p', String b s' => if Ascii.eqb a b then startsWith s' p' else false
  end.

(** [s.includes(sub)]: some suffix of [s] starts with [sub]. *)
Fixpoint includes (s sub : string) : bool :=
  startsWith s sub ||
  match s with
  | EmptyString => false
  | String _ s' => includes s' sub
  end.

(** What [includes] decides: [sub] occurs in [s] as a substring. *)
Definition contains (s sub : string) : Prop :=
  exists pre post, s = pre +:+ sub +:+ post.

(** [s.substring(a, b)]: both indexes are clamped to the length and
    swapped when out of order. *)
Definition substring (s : string) (a b : nat) : string :=
  let len := String.length s in
  let a' := Nat.min a len in
  let b' := Nat.min b len in
  String.substring (Nat.min a' b') (Nat.max a' b' - Nat.min a' b') s.

(** [s.substring(a)]. *)
Definition substring_from (s : string) (a : nat) : string :=
  substring s a (String.length s).

(** [s.slice(1)] as used on a path with a leading slash. *)
Definition slice1 (s : string) : string :=
  match s with
  | EmptyString => EmptyString
  | String _ s' => s'
  end.

(** [s.endsWith(p)]. *)
Definition endsWith (s p : string) : bool :=
  let n := String.length s in
  let k := String.length p in
  (k <=? n)%nat && String.eqb (String.substring (n - k) k s) p.

(** [String(n)] for an integer. *)
Definition string_of_Z (n : Z) : string :=
  NilZero.string_of_int (Z.to_int n).

Definition is_space (c : ascii) : bool :=
  let n := nat_of_ascii c in
  (n =? 32)%nat || (n =? 160)%nat || ((9 <=? n)%nat && (n <=? 13)%nat).

Fixpoint trimStart (s : string) : string :=
  match s with
  | EmptyString => EmptyString
  | String c s' => if is_space c then trimStart s' else s
  end.

Fixpoint trimEnd (s : string) : string :=
  match s with
  | EmptyString => EmptyString
  | String c s' =>
      match trimEnd s' with
      | EmptyString => if is_space c then EmptyString else String c EmptyString
      | t => String c t
      end
  end.

(** [s.trim()], on the white space below 256. *)
Definition trim (s : string) : string := trimEnd (trimStart s).

(** ** The insertion-ordered [Set] of strings

    [[...new Set(xs)]] lists the distinct elements of [xs] in the order
    of their first insertion. *)

Definition Set_add (s : list string) (x : string) : list string :=
  if existsb (String.eqb x) s then s else s ++ [x].

Definition Set_of (xs : list string) : list string :=
  fold_left Set_add xs [].

(** ** Arrays *)

(** [arr.findIndex(p)], [-1] when no element satisfies [p]. *)
Fixpoint findIndex_from {A} (p : A -> bool) (i : Z) (l : list A) : Z :=
  match l with
  | [] => (-1)%Z
  | x :: l' => if p x then i else findIndex_from p (i + 1)%Z l'
  end.

Definition findIndex {A} (p : A -> bool) (arr : list A) : Z :=
  findIndex_from p 0%Z arr.

(** [arr.filter((element, index, array) => ...)]. *)
Fixpoint filter_from {A} (p : A -> nat -> bool) (i : nat) (l : list A) : list A :=
  match l with
  | [] => []
  | x :: l' =>
      if p x i then x :: filter_from p (S i) l' else filter_from p (S i) l'
  end.

Definition filter_indexed {A} (p : A -> nat -> list A -> bool) (arr : list A) : list A :=
  filter_from (fun x i => p x i arr) 0 arr.

(** ** JSON values, as [JSON.parse] returns them

    An object lists its own properties, each key once. *)

Inductive Json : Type :=
| JNull
| JBool (b : bool)
| JNum (n : Z)
| JStr (s : string)
| JArr (items : list Json)
| JObj (fields : list (string * Json)).

(** Truthiness of a value that may be [undefined]. *)
Definition truthy (v : option Json) : bool :=
  match v with
  | None | Some JNull => false
  | Some (JBool b) => b
  | Some (JNum n) => negb (n =? 0)%Z
  | Some (JStr s) => negb (String.eqb s "")
  | Some (JArr _) | Some (JObj _) => true
  end.

Fixpoint assoc {V} (k : string) (fields : list (string * V)) : option V :=
  match fields with
  | [] => None
  | (k', v) :: rest => if String.eqb k k' then Some v else assoc k rest
  end.

(** [v?.k], for the field names the program reads (none of them is a
    built-in property of a string or of an array). *)
Definition get (k : string) (v : option Json) : option Json :=
  match v with
  | Some (JObj fields) => assoc k fields
  | _ => None
  end.

(** [a || b]. *)
Definition or_else (a b : option Json) : option Json :=
  if truthy a then a else b.

(** Values that code can throw or pass as an abort reason. *)
Inductive Value : Type :=
| VUndefined
| VNull
| VError (message : string)       (* an Error object *)
| VAbortError                     (* the DOMException of a bare abort() *)
| VOther (text : string).         (* any other value without a message *)

(** ** [Number.parseInt(s, 10)]

    Leading white space is skipped, a sign is read, and the longest run
    of decimal digits that follows gives the value, whatever comes
    after; [None] is NaN, the result when no digit is found. The value
    is the integer written, which is what the platform returns up to
    2^53. *)

Definition digit_value (c : ascii) : option Z :=
  let n := nat_of_ascii c in
  if (48 <=? n)%nat && (n <=? 57)%nat then Some (Z.of_nat (n - 48)) else None.

Fixpoint parse_digits (acc : option Z) (s : string) : option Z :=
  match s with
  | EmptyString => acc
  | String c s' =>
      match digit_value c with
      | Some d => parse_digits (Some (10 * default 0%Z acc + d)%Z) s'
      | None => acc
      end
  end.

Definition parseInt (s : string) : option Z :=
  match trimStart s with
  | String "-" rest => Z.opp <$> parse_digits None rest
  | String "+" rest => parse_digits None rest
  | digits => parse_digits None digits
  end.

End Js.

(* ================================================================== *)
(** * Utilities ([utils.js]) *)
(* ================================================================== *)

Module Utils.
Import Js.

(** ** Values met while following a path

    Besides JSON values and [undefined], a property read on an object
    parsed from JSON can give a member of [Object.prototype], a function,
    or through [__proto__] that prototype itself. *)

Inductive PathValue : Type :=
| PUndefined
| PJson (v : Json)
| PBuiltin (name : string)
| PObjectPrototype.

(** The function-valued members of [Object.prototype]. *)
Definition prototype_functions : list string :=
  ["constructor"; "__defineGetter__"; "__defineSetter__"; "hasOwnProperty";
   "__lookupGetter__"; "__lookupSetter__"; "isPrototypeOf"; "propertyIsEnumerable";
   "toString"; "valueOf"; "toLocaleString"].

Definition is_prototype_function (segment : string) : bool :=
  existsb (String.eqb segment) prototype_functions.

(** [current[segment]] on an object parsed from JSON: an own property,
    else what the prototype gives. *)
Definition property (fields : list (string * Json)) (segment : string) : PathValue :=
  match assoc segment fields with
  | Some v => PJson v
  | None =>
      if String.eqb segment "__proto__" then PObjectPrototype
      else if is_prototype_function segment then PBuiltin segment
      else PUndefined
  end.

(** [current[segment]] on [Object.prototype], whose own prototype is
    [null]. *)
Definition prototype_property (segment : string) : PathValue :=
  if String.eqb segment "__proto__" then PJson JNull
  else if is_prototype_function segment then PBuiltin segment
  else PUndefined.

(** [current[index]] on an array, for an integer index. *)
Definition element (items : list Json) (index : Z) : PathValue :=
  if (index <? 0)%Z then PUndefined
  else
    match nth_error items (Z.to_nat index) with
    | Some v => PJson v
    | None => PUndefined
    end.

(** ** The segments of a path *)

Definition is_digit (c : ascii) : bool :=
  let n := nat_of_ascii c in (48 <=? n)%nat && (n <=? 57)%nat.

(** [s.replace(/\[(\d+)\]/g, '.$1')]; [pending] holds the digits read
    since an opening bracket that may still turn out to start a match. *)
Fixpoint replace_brackets (pending : option string) (s : string) : string :=
  match s with
  | EmptyString =>
      match pending with
      | Some digits => "[" +:+ digits
      | None => EmptyString
      end
  | String c rest =>
      let plain :=
        if Ascii.eqb c "[" then replace_brackets (Some EmptyString) rest
        else String c (replace_brackets None rest) in
      match pending with
      | None => plain
      | Some digits =>
          if is_digit c then replace_brackets (Some (digits +:+ String c EmptyString)) rest
          else if Ascii.eqb c "]" && negb (String.eqb digits "")
          then "." +:+ digits +:+ replace_brackets None rest
          else "[" +:+ digits +:+ plain
      end
  end.

(** [s.split('.')]. *)
Fixpoint split_dot (s : string) : list string :=
  match s with
  | EmptyString => [EmptyString]
  | String c rest =>
      if Ascii.eqb c "." then EmptyString :: split_dot rest
      else
        match split_dot rest with
        | head :: tail => String c head :: tail
        | [] => [String c EmptyString]
        end
  end.

(** [.map((segment) => segment.trim()).filter(Boolean)]. *)
Definition clean (parts : list string) : list string :=
  List.filter (fun segment => negb (String.eqb segment "")) (List.map trim parts).

Definition segments (rawPath : string) : list string :=
  clean (split_dot (replace_brackets None rawPath)).

(** ** [getByPath] *)

(** The [for (const segment of path)] loop. *)
Fixpoint walk (current : PathValue) (path : list string) : PathValue :=
  match path with
  | [] => current
  | segment :: rest =>
      match current with
      | PUndefined | PJson JNull => PUndefined
      | PJson (JArr items) =>
          match parseInt segment with
          | Some index => walk (element items index) rest
          | None => PUndefined
          end
      | PJson (JObj fields) => walk (property fields segment) rest
      | PObjectPrototype => walk (prototype_property segment) rest
      | PJson (JBool _) | PJson (JNum _) | PJson (JStr _) | PBuiltin _ => PUndefined
      end
  end.

Definition getByPath (input : PathValue) (rawPath : string) : PathValue :=
  if String.eqb rawPath "" then input else walk input (segments rawPath).

(** Whether a character occurs in a string, and whether a string is
    made of decimal digits: what the statements about paths speak of. *)
Fixpoint mentions (c : ascii) (s : string) : bool :=
  match s with
  | EmptyString => false
  | String d rest => Ascii.eqb d c || mentions c rest
  end.

Fixpoint all_digits (s : string) : bool :=
  match s with
  | EmptyString => true
  | String d rest => is_digit d && all_digits rest
  end.

(** [ensureArray]. *)
Definition ensureArray (value : PathValue) : list PathValue :=
  match value with
  | PUndefined | PJson JNull => []
  | PJson (JArr items) => List.map PJson items
  | other => [other]
  end.

End Utils.

(* ================================================================== *)
(** * The request client ([TroccoClient]) *)
(* ================================================================== *)

Module Client.
Import Js.

(** ** Query mappings and URL search parameters *)

Inductive QScalar : Type :=
| QStr (s : string)
| QNum (n : Z)
| QBool (b : bool).

(** [String(value)] for a scalar. *)
Definition String_of (v : QScalar) : string :=
  match v with
  | QStr s => s
  | QNum n => string_of_Z n
  | QBool true => "true"
  | QBool false => "false"
  end.

Inductive QValue : Type :=
| QUndefined
| QNull
| QOne (v : QScalar)
| QMany (items : list QScalar).

(** An object literal used as a query: its entries in insertion order. *)
Definition Query := list (string * QValue).

Definition SearchParams := list (string * string).

(** [searchParams.append(k, v)]. *)
Definition sp_append (ps : SearchParams) (k v : string) : SearchParams :=
  (ps ++ [(k, v)])%list.

Definition sp_delete (k : string) (ps : SearchParams) : SearchParams :=
  List.filter (fun kv => negb (String.eqb k (fst kv))) ps.

(** [searchParams.set(k, v)]: the first pair named [k] takes the value
    and the other pairs named [k] go; without such a pair, append. *)
Fixpoint sp_set (ps : SearchParams) (k v : string) : SearchParams :=
  match ps with
  | [] => [(k, v)]
  | (k', v') :: rest =>
      if String.eqb k k' then (k, v) :: sp_delete k rest
      else (k', v') :: sp_set rest k v
  end.

(** The body of [for (const [key, value] of Object.entries(query))]. *)
Definition applyEntry (ps : SearchParams) (entry : string * QValue) : SearchParams :=
  let (key, value) := entry in
  match value with
  | QUndefined | QNull => ps
  | QMany items => fold_left (fun acc item => sp_append acc key (String_of item)) items ps
  | QOne v => sp_set ps key (String_of v)
  end.

Definition applyQuery (query : Query) (ps : SearchParams) : SearchParams :=
  fold_left applyEntry query ps.

(** ** URLs

    The platform's [URL] parser is an input of the model: [URL_parse s] is
    [new URL(s)] and [URL_resolve s base] is [new URL(s, base)], [None]
    when the constructor throws; [JSON_parse] is [JSON.parse], [None] when
    it throws. *)

(** A URL object; [href] and [search] are those of the parsed URL, and
    the parameters that [buildUrl] sets afterwards are in [searchParams]. *)
Record URL : Type := mkURL {
  href : string;
  pathname : string;
  search : string;
  hash : string;
  searchParams : SearchParams
}.

Class Platform : Type := {
  URL_parse : string -> option URL;
  URL_resolve : string -> string -> option URL;
  JSON_parse : string -> option Json
}.

(** ** Requests, responses and errors *)

Definition Headers := list (string * string).

Record ExternalSignal : Type := {
  ext_aborted : bool;
  ext_reason : Value
}.

Record RequestSpec : Type := {
  path : string;
  method : option string;
  query : option Query;
  body : option Json;
  headers : option Headers;
  timeoutMs : option Z;
  signal : option ExternalSignal;
  responseType : option string
}.

(** [requestContext]; [ctx_url] stands for the URL object whose
    [toString()] the source stores. *)
Record RequestContext : Type := {
  ctx_url : URL;
  ctx_method : string;
  ctx_body : option Json;
  ctx_query : option Query;
  ctx_headers : Headers;
  ctx_timeoutMs : Z
}.

(** What [fetch] resolves to, with the body text that [response.text()]
    reads (a body that cannot be read is a rejection, as it reaches the
    same [catch]); header names are lower-case, as [Headers] keeps them. *)
Record Response : Type := {
  status : Z;
  statusText : string;
  url : string;
  resp_headers : Headers;
  rawText : string
}.

(** [response.ok]: the status is in the range 200-299. *)
Definition Response_ok (r : Response) : bool :=
  (200 <=? status r)%Z && (status r <=? 299)%Z.

(** [summary]. *)
Record ResponseSummary : Type := {
  s_ok : bool;
  s_status : Z;
  s_statusText : string;
  s_url : string;
  s_method : string;
  s_durationMs : Z;
  s_headers : Headers;
  s_data : option Json;
  s_text : option string
}.

Inductive Thrown : Type :=
| TroccoApiError (message : string) (request : option RequestContext)
    (response : option ResponseSummary) (cause : option Value)
| Error (message : string)
| TypeError (message : string).

Inductive Result (A : Type) : Type :=
| Ok (a : A)
| Raise (e : Thrown).
Arguments Ok {A} a.
Arguments Raise {A} e.

(** Configuration read from the environment by [env.js]. *)
Record Env : Type := {
  TROCCO_AUTH_HEADER : string;
  TROCCO_AUTH_SCHEME : string;
  TROCCO_EXTRA_HEADERS : Headers
}.

Record TroccoClient : Type := {
  baseUrl : string;
  apiKey : string;
  client_timeoutMs : Z;
  env : Env
}.

(** The constructor; [fetchAvailable] tells whether [fetchImpl] or a
    global [fetch] exists. *)
Definition TroccoClient_new (e : Env) (baseUrl apiKey : string) (timeoutMs : Z)
    (fetchAvailable : bool) : Result TroccoClient :=
  if String.eqb baseUrl "" then Raise (Error "TroccoClient requires a baseUrl")
  else if String.eqb apiKey "" then Raise (Error "TroccoClient requires an API key")
  else if negb fetchAvailable then
    Raise (Error "No fetch implementation available. Supply fetchImpl when instantiating TroccoClient.")
  else Ok {| baseUrl := baseUrl; apiKey := apiKey; client_timeoutMs := timeoutMs; env := e |}.

Section WithPlatform.
Context `{Platform}.

Definition external_not_allowed : string :=
  "External URLs are not allowed. Pass a relative Trocco API path.".

(** The immediately invoked arrow function of [buildUrl]. *)
Definition checkAbsolute (c : TroccoClient) (path : string) : Result string :=
  match URL_parse path with
  | None => Raise (TypeError "Invalid URL")
  | Some u =>
      if negb (startsWith (href u) (baseUrl c)) then Raise (Error external_not_allowed)
      else Ok (pathname u +:+ search u +:+ hash u)
  end.

Definition buildUrl (c : TroccoClient) (path : string) (query : option Query) : Result URL :=
  if String.eqb path "" then Raise (Error "TroccoClient request requires a path string")
  else
    let normalizedPath :=
      if startsWith path "http" then checkAbsolute c path
      else if startsWith path "/" then Ok (slice1 path)
      else Ok path in
    match normalizedPath with
    | Raise e => Raise e
    | Ok p =>
        match URL_resolve p (baseUrl c) with
        | None => Raise (TypeError "Invalid URL")
        | Some u =>
            match query with
            | None => Ok u
            | Some q =>
                Ok (mkURL (href u) (pathname u) (search u) (hash u)
                          (applyQuery q (searchParams u)))
            end
        end
    end.

End WithPlatform.

(** An object literal with spreads: a later key overwrites the value of an
    earlier one in place. *)
Fixpoint obj_set (o : Headers) (k v : string) : Headers :=
  match o with
  | [] => [(k, v)]
  | (k', v') :: rest =>
      if String.eqb k k' then (k, v) :: rest else (k', v') :: obj_set rest k v
  end.

Definition obj_assign (o extra : Headers) : Headers :=
  fold_left (fun acc kv => obj_set acc (fst kv) (snd kv)) extra o.

Definition buildHeaders (c : TroccoClient) (hs : option Headers) : Headers :=
  let authHeader :=
    if String.eqb (TROCCO_AUTH_HEADER (env c)) "" then "Authorization"
    else TROCCO_AUTH_HEADER (env c) in
  let authValue :=
    if String.eqb (TROCCO_AUTH_SCHEME (env c)) "" then apiKey c
    else trim (TROCCO_AUTH_SCHEME (env c) +:+ " " +:+ apiKey c) in
  obj_assign
    (obj_assign
       (obj_assign []
          [("Accept", "application/json, text/plain;q=0.9, */*;q=0.8");
           ("Content-Type", "application/json");
           (authHeader, authValue);
           ("User-Agent", "trocco-mcp-server/0.1.0 (+https://claude.ai)")])
       (TROCCO_EXTRA_HEADERS (env c)))
    (default [] hs).

Definition shouldParseJson (response : Response) (responseType : string) : bool :=
  if String.eqb responseType "json" then true
  else if String.eqb responseType "text" then false
  else
    match assoc "content-type" (resp_headers response) with
    | None => false
    | Some contentType =>
        if String.eqb contentType "" then false
        else includes contentType "application/json" || includes contentType "+json"
    end.

(** ** Cancellation

    Abort signals are shared mutable objects: they live in a heap and are
    named by their position in it. A listener registered by [anySignal] is
    recorded as the controller that its [onAbort] closure aborts. *)

Record AbortSignal : Type := {
  aborted : bool;
  reason : Value;
  listeners : list nat
}.

Definition Heap := list AbortSignal.

Definition fresh_signal : AbortSignal :=
  {| aborted := false; reason := VUndefined; listeners := [] |}.

(** The reason that [abort(arg)] stores: a new AbortError when no
    argument is given. *)
Definition stored_reason (arg : Value) : Value :=
  match arg with
  | VUndefined => VAbortError
  | v => v
  end.

(** [controller.abort(arg)] on a controller without listeners of this
    program; a second abort changes nothing. *)
Definition abort_controller (h : Heap) (id : nat) (arg : Value) : Heap :=
  match h !! id with
  | Some s =>
      if aborted s then h
      else <[id := {| aborted := true; reason := stored_reason arg;
                      listeners := listeners s |}]> h
  | None => h
  end.

(** [event?.target?.reason ?? event?.target?.signal?.reason ?? undefined];
    an abort signal has no [signal] property. *)
Definition event_reason (target_reason : Value) : Value :=
  match target_reason with
  | VUndefined | VNull => VUndefined
  | v => v
  end.

(** [onAbort], run for a listener that aborts controller [target]. *)
Definition onAbort (r : Value) (h : Heap) (target : nat) : Heap :=
  abort_controller h target (event_reason r).

(** A source signal aborts with argument [arg]: it stores its reason and
    dispatches the abort event to its listeners, each of which runs once. *)
Definition abort (h : Heap) (id : nat) (arg : Value) : Heap :=
  match h !! id with
  | Some s =>
      if aborted s then h
      else
        let r := stored_reason arg in
        fold_left (onAbort r) (listeners s)
          (<[id := {| aborted := true; reason := r; listeners := [] |}]> h)
  | None => h
  end.

(** The [for (const signal of signals)] loop of [anySignal]. *)
Fixpoint anySignal_loop (controller : nat) (signals : list nat) (h : Heap) : Heap :=
  match signals with
  | [] => h
  | s :: rest =>
      match h !! s with
      | Some sg =>
          if aborted sg then abort_controller h controller (reason sg)
          else
            anySignal_loop controller rest
              (<[s := {| aborted := aborted sg; reason := reason sg;
                         listeners := (listeners sg ++ [controller])%list |}]> h)
      | None => h
      end
  end.

(** [anySignal(signals)]: the new controller's signal and the heap. *)
Definition anySignal (signals : list nat) (h : Heap) : nat * Heap :=
  let controller := List.length h in
  (controller, anySignal_loop controller signals (h ++ [fresh_signal])%list).

Definition is_aborted (h : Heap) (id : nat) : option Value :=
  match h !! id with
  | Some s => if aborted s then Some (reason s) else None
  | None => None
  end.

(** ** One request against the world

    The transport is the [fetch] implementation that the client was
    built with, and [request] only hands it the combined signal: it
    never reads [aborted] itself. Either the transport settles on its
    own account ([Resolves], with the duration that the two clock
    readings give, or [RejectsWith]), whatever the state of the signal,
    or it honours the signal ([Interrupted]): it stays pending while
    cancellation sources fire in the order given, and rejects with the
    reason of its signal as soon as that signal is aborted, at once
    when it was aborted before the call. *)

Inductive AbortEvent : Type :=
| TimeoutElapses
| ExternalAborts (arg : Value).

Inductive World : Type :=
| Resolves (resp : Response) (durationMs : Z)
| RejectsWith (e : Value)
| Interrupted (evs : list AbortEvent).

Inductive Outcome : Type :=
| Returns (s : ResponseSummary)
| Throws (e : Thrown)
| NeverSettles.

(** A run of [request]: the URLs handed to [fetch], and the outcome. The
    answer of the transport is arbitrary, so the rest of [requestInit]
    (method, headers, serialized body) is not recorded. *)
Record Run : Type := {
  fetched : list URL;
  outcome : Outcome
}.

Definition timeout_message (ms : Z) : string :=
  "Trocco API request timed out after " +:+ string_of_Z ms +:+ " ms".

(** Positions in the heap of a request: the timeout controller's signal,
    then the caller's signal when there is one. *)
Definition timeout_signal : nat := 0.
Definition external_signal : nat := 1.

Definition initial_heap (ext : option ExternalSignal) : Heap :=
  fresh_signal ::
  match ext with
  | Some e => [{| aborted := ext_aborted e; reason := ext_reason e; listeners := [] |}]
  | None => []
  end.

Definition fire (ms : Z) (has_external : bool) (h : Heap) (ev : AbortEvent) : Heap :=
  match ev with
  | TimeoutElapses => abort h timeout_signal (VError (timeout_message ms))
  | ExternalAborts arg => if has_external then abort h external_signal arg else h
  end.

(** The reason with which [fetch] rejects once its signal is aborted. *)
Fixpoint await_abort (ms : Z) (has_external : bool) (composite : nat)
    (evs : list AbortEvent) (h : Heap) : option Value :=
  match is_aborted h composite with
  | Some r => Some r
  | None =>
      match evs with
      | [] => None
      | ev :: rest =>
          await_abort ms has_external composite rest (fire ms has_external h ev)
      end
  end.

(** The [catch] block, for a value that is not a [TroccoApiError]:
    reading [error.message] of a nullish value is a TypeError. *)
Definition wrap (ctx : RequestContext) (error : Value) : Thrown :=
  match error with
  | VUndefined | VNull => TypeError "Cannot read properties of a nullish value (reading 'message')"
  | VError m => TroccoApiError m (Some ctx) None (Some error)
  | VAbortError => TroccoApiError "This operation was aborted" (Some ctx) None (Some error)
  | VOther _ => TroccoApiError "" (Some ctx) None (Some error)
  end.

(** [requestContext], for the URL that [buildUrl] returned. *)
Definition requestContext (c : TroccoClient) (spec : RequestSpec) (u : URL) : RequestContext :=
  {| ctx_url := u;
     ctx_method := default "GET" (method spec);
     ctx_body := body spec;
     ctx_query := query spec;
     ctx_headers := buildHeaders c (headers spec);
     ctx_timeoutMs := default (client_timeoutMs c) (timeoutMs spec) |}.

(** The caller passed a signal that had aborted before the call. *)
Definition pre_aborted (spec : RequestSpec) : bool :=
  match signal spec with
  | Some e => ext_aborted e
  | None => false
  end.

Section Request.
Context `{Platform}.

(** The [try] block once [fetch] has resolved to [response]. *)
Definition summarize (method : string) (responseType : string)
    (response : Response) (durationMs : Z) : ResponseSummary :=
  let parsed :=
    if negb (String.eqb (rawText response) "") && shouldParseJson response responseType
    then JSON_parse (rawText response)
    else None in
  {| s_ok := Response_ok response;
     s_status := status response;
     s_statusText := statusText response;
     s_url := url response;
     s_method := method;
     s_durationMs := durationMs;
     s_headers := resp_headers response;
     s_data := parsed;
     s_text :=
       match parsed with
       | Some _ => None
       | None => if String.eqb (rawText response) "" then None else Some (rawText response)
       end |}.

Definition responded_message (response : Response) : string :=
  "Trocco API responded with " +:+ string_of_Z (status response) +:+ " " +:+ statusText response.

Definition request (c : TroccoClient) (spec : RequestSpec) (w : World) : Run :=
  match buildUrl c (path spec) (query spec) with
  | Raise e => {| fetched := []; outcome := Throws e |}
  | Ok u =>
      let method := default "GET" (method spec) in
      let responseType := default "auto" (responseType spec) in
      let ms := default (client_timeoutMs c) (timeoutMs spec) in
      let has_external := bool_decide (is_Some (signal spec)) in
      let signals := timeout_signal :: (if has_external then [external_signal] else []) in
      let h0 := initial_heap (signal spec) in
      let '(composite, h) :=
        if (List.length signals =? 1)%nat then (timeout_signal, h0)
        else anySignal signals h0 in
      let requestContext := requestContext c spec u in
      let settled :=
        match w with
        | Resolves response durationMs => Some (inl (response, durationMs))
        | RejectsWith e => Some (inr e)
        | Interrupted evs =>
            inr <$> await_abort ms has_external composite evs h
        end in
      {| fetched := [u];
         outcome :=
           match settled with
           | None => NeverSettles
           | Some (inr error) => Throws (wrap requestContext error)
           | Some (inl (response, durationMs)) =>
               let summary := summarize method responseType response durationMs in
               if negb (Response_ok response) then
                 Throws (TroccoApiError (responded_message response)
                           (Some requestContext) (Some summary) None)
               else Returns summary
           end |}
  end.

End Request.

(** ** Reading the model

    [searchParams.getAll(k)], the parameters that one query entry stands
    for, and the first event of a timeline that a request reacts to. *)

Definition sp_getAll (k : string) (ps : SearchParams) : list string :=
  List.map snd (List.filter (fun kv => String.eqb k (fst kv)) ps).

(** An entry without a value gives no parameter, a scalar gives one, a
    sequence gives one per element, in order. *)
Definition expandEntry (entry : string * QValue) : SearchParams :=
  match snd entry with
  | QUndefined | QNull => []
  | QOne v => [(fst entry, String_of v)]
  | QMany items => List.map (fun item => (fst entry, String_of item)) items
  end.

(** An abort of the caller's handle counts only when a handle was passed. *)
Definition effective (has_external : bool) (ev : AbortEvent) : bool :=
  match ev with
  | TimeoutElapses => true
  | ExternalAborts _ => has_external
  end.

(** The reason of the first already aborted signal of a list. *)
Fixpoint first_aborted (h : Heap) (signals : list nat) : option Value :=
  match signals with
  | [] => None
  | s :: rest =>
      match is_aborted h s with
      | Some r => Some r
      | None => first_aborted h rest
      end
  end.

End Client.

(* ================================================================== *)
(** * Configuration from the environment ([env.js]) *)
(* ================================================================== *)

Module Environment.
Import Js Client.

(** [process.env]: a variable is a string, or is not set. *)
Definition ProcessEnv := string -> option string.

Definition missing_key : string :=
  "Missing Trocco API key. Set TROCCO_API_KEY in your environment.".

(** [process.env.TROCCO_API_KEY ?? process.env.TROCCO_TOKEN]. *)
Definition rawApiKey (env : ProcessEnv) : option string :=
  match env "TROCCO_API_KEY" with
  | Some v => Some v
  | None => env "TROCCO_TOKEN"
  end.

(** The exported key, or the error thrown when the module loads. *)
Definition TROCCO_API_KEY (env : ProcessEnv) : Result string :=
  match rawApiKey env with
  | None => Raise (Error missing_key)
  | Some raw =>
      if String.eqb raw "" || String.eqb (trim raw) "" then Raise (Error missing_key)
      else Ok (trim raw)
  end.

Definition defaultBaseUrl : string := "https://trocco.io/".

Definition TROCCO_BASE_URL (env : ProcessEnv) : string :=
  let rawBaseUrl := default defaultBaseUrl (env "TROCCO_BASE_URL") in
  if endsWith rawBaseUrl "/" then rawBaseUrl else rawBaseUrl +:+ "/".

(** [Number.parseInt(process.env.TROCCO_TIMEOUT_MS ?? '45000', 10)];
    [None] is NaN. *)
Definition REQUEST_TIMEOUT_MS (env : ProcessEnv) : option Z :=
  parseInt (default "45000" (env "TROCCO_TIMEOUT_MS")).

Definition TROCCO_AUTH_HEADER (env : ProcessEnv) : string :=
  trim (default "Authorization" (env "TROCCO_AUTH_HEADER")).

Definition TROCCO_AUTH_SCHEME (env : ProcessEnv) : string :=
  trim (default "Token" (env "TROCCO_AUTH_SCHEME")).

End Environment.

(* ================================================================== *)
(** * Pagination ([TroccoClient.paginate]) *)
(* ================================================================== *)

Module Pagination.
Import Js Utils Client.

(** The arguments that [paginate] reads itself, [None] for one left
    out; [path], [method], [body], [headers] and [timeoutMs] go to
    [request] as they are and belong to the requests' answers below.
    Numbers are integers. *)
Record PaginateSpec : Type := {
  query : option Query;
  pageParam : option string;
  pageSizeParam : option string;
  startPage : option Z;
  pageSize : option Z;
  maxPages : option Z;
  dataPath : option string;
  nextPagePath : option string;
  stopWhenEmpty : option bool
}.

(** A value of the page query: one of the caller's, the page (a number,
    or what the last response had at [nextPagePath]), or the page
    size. *)
Inductive PageValue : Type :=
| Given (v : QValue)
| PageNumber (n : Z)
| PageToken (v : PathValue)
| PageSize (n : Z).

Definition PageQuery := list (string * PageValue).

(** [o[k] = v] on an object literal, for keys that are not array
    indices: a key keeps its place, a new key goes last. *)
Fixpoint set_property {V : Type} (o : list (string * V)) (k : string) (v : V)
  : list (string * V) :=
  match o with
  | [] => [(k, v)]
  | (k', v') :: rest =>
      if String.eqb k k' then (k, v) :: rest else (k', v') :: set_property rest k v
  end.

(** [{ ...query }]. *)
Definition spread (query : Query) : PageQuery :=
  fold_left (fun acc kv => set_property acc (fst kv) (Given (snd kv))) query [].

(** [nextPageValue ?? currentPage]. *)
Definition page_value (nextPageValue : PathValue) (currentPage : Z) : PageValue :=
  match nextPageValue with
  | PUndefined | PJson JNull => PageNumber currentPage
  | v => PageToken v
  end.

(** Truthiness of an optional number and of an optional string. *)
Definition number_truthy (n : option Z) : bool :=
  match n with
  | Some n => negb (n =? 0)%Z
  | None => false
  end.

Definition string_truthy (s : option string) : bool :=
  match s with
  | Some s => negb (String.eqb s "")
  | None => false
  end.

Definition pageQuery (spec : PaginateSpec) (nextPageValue : PathValue) (currentPage : Z)
  : PageQuery :=
  let pageSizeParam := default "per_page" (pageSizeParam spec) in
  let q :=
    set_property (spread (default [] (query spec)))
      (default "page" (pageParam spec)) (page_value nextPageValue currentPage) in
  if number_truthy (pageSize spec) && negb (String.eqb pageSizeParam "")
  then set_property q pageSizeParam (PageSize (default 0%Z (pageSize spec)))
  else q.

(** [response.data]. *)
Definition response_data (response : ResponseSummary) : PathValue :=
  match s_data response with
  | Some v => PJson v
  | None => PUndefined
  end.

(** [dataPath ? getByPath(response.data, dataPath) : response.data]. *)
Definition page_data (spec : PaginateSpec) (response : ResponseSummary) : PathValue :=
  if string_truthy (dataPath spec)
  then getByPath (response_data response) (default "" (dataPath spec))
  else response_data response.

(** What a page adds to [collected]. *)
Definition page_items (data : PathValue) : list PathValue :=
  match data with
  | PJson (JArr items) => List.map PJson items
  | PUndefined => []
  | other => [other]
  end.

(** Whether one of the [break]s in the branches on [data] is taken. *)
Definition page_ends (spec : PaginateSpec) (data : PathValue) : bool :=
  let stopWhenEmpty := default true (stopWhenEmpty spec) in
  match data with
  | PJson (JArr items) =>
      (stopWhenEmpty && (List.length items =? 0)%nat)
      || (number_truthy (pageSize spec)
          && (Z.of_nat (List.length items) <? default 0%Z (pageSize spec))%Z)
  | _ => stopWhenEmpty
  end.

(** [nextPageValue === undefined || nextPageValue === null ||
    nextPageValue === false]. *)
Definition no_next_page (nextPageValue : PathValue) : bool :=
  match nextPageValue with
  | PUndefined | PJson JNull | PJson (JBool false) => true
  | _ => false
  end.

Record Pages : Type := {
  items : list PathValue;
  responses : list ResponseSummary
}.

Inductive Settled : Type :=
| Resolved (pages : Pages)
| Rejected (e : Thrown)
| Pending.

(** A run of [paginate]: the page queries handed to [request], in
    order, and how the call settles. *)
Record Pagination : Type := {
  sent : list PageQuery;
  settled : Settled
}.

Section Paginate.

(** How [this.request] settles on the call number [i] (from 0) with a
    page query. *)
Variable request : nat -> PageQuery -> Outcome.
Variable spec : PaginateSpec.

(** The [while (pagesFetched < maxPages)] loop; [left] is
    [maxPages - pagesFetched], and [i] counts the requests made. *)
Fixpoint paginate_loop (left : nat) (i : nat) (currentPage : Z) (nextPageValue : PathValue)
    (collected : list PathValue) (responses : list ResponseSummary)
    (sent : list PageQuery) : Pagination :=
  match left with
  | O => {| sent := sent;
            settled := Resolved {| items := collected; responses := responses |} |}
  | S left' =>
      let pageQuery := pageQuery spec nextPageValue currentPage in
      let sent := (sent ++ [pageQuery])%list in
      match request i pageQuery with
      | Throws e => {| sent := sent; settled := Rejected e |}
      | NeverSettles => {| sent := sent; settled := Pending |}
      | Returns response =>
          let responses := (responses ++ [response])%list in
          let data := page_data spec response in
          let collected := (collected ++ page_items data)%list in
          let done :=
            {| sent := sent;
               settled := Resolved {| items := collected; responses := responses |} |} in
          if page_ends spec data then done
          else if string_truthy (nextPagePath spec) then
            let nextPageValue :=
              getByPath (response_data response) (default "" (nextPagePath spec)) in
            if no_next_page nextPageValue then done
            else paginate_loop left' (S i) currentPage nextPageValue collected responses sent
          else
            paginate_loop left' (S i) (currentPage + 1)%Z nextPageValue collected responses sent
      end
  end.

Definition paginate : Pagination :=
  paginate_loop (Z.to_nat (default 50%Z (maxPages spec))) 0
    (default 1%Z (startPage spec)) PUndefined [] [] [].

End Paginate.

(** ** Reading a run *)

(** Whether pagination goes on after a response. *)
Definition goes_on (spec : PaginateSpec) (response : ResponseSummary) : bool :=
  negb (page_ends spec (page_data spec response))
  && negb (string_truthy (nextPagePath spec)
           && no_next_page (getByPath (response_data response)
                              (default "" (nextPagePath spec)))).

Section Trace.

Variable request : nat -> PageQuery -> Outcome.
Variable spec : PaginateSpec.

(** The requests of a run with their answers, one after the other:
    the next request is made when the answer is a response after which
    pagination goes on. *)
Fixpoint trace (left : nat) (i : nat) (currentPage : Z) (nextPageValue : PathValue)
  : list (PageQuery * Outcome) :=
  match left with
  | O => []
  | S left' =>
      let q := pageQuery spec nextPageValue currentPage in
      (q, request i q) ::
      match request i q with
      | Returns response =>
          if goes_on spec response then
            if string_truthy (nextPagePath spec)
            then trace left' (S i) currentPage
                   (getByPath (response_data response) (default "" (nextPagePath spec)))
            else trace left' (S i) (currentPage + 1)%Z nextPageValue
          else []
      | _ => []
      end
  end.

Definition answer (entry : PageQuery * Outcome) : option ResponseSummary :=
  match snd entry with
  | Returns response => Some response
  | _ => None
  end.

Definition returned (t : list (PageQuery * Outcome)) : list ResponseSummary :=
  omap answer t.

(** How a run with these requests settles. *)
Definition settle (t : list (PageQuery * Outcome)) (collected : list PathValue)
    (responses : list ResponseSummary) : Settled :=
  match last t with
  | Some (_, Throws e) => Rejected e
  | Some (_, NeverSettles) => Pending
  | _ =>
      Resolved
        {| items := collected
                    ++ concat (List.map (fun r => page_items (page_data spec r)) (returned t));
           responses := responses ++ returned t |}
  end.

End Trace.

(** ** A sample server

    Three pages of two, two and one entries under [data.items], with a
    cursor under [data.next] on the first two. *)

Definition sample_response (data : Json) : ResponseSummary :=
  {| s_ok := true; s_status := 200; s_statusText := "OK"; s_url := "https://trocco.io/api/jobs";
     s_method := "GET"; s_durationMs := 1; s_headers := []; s_data := Some data;
     s_text := None |}.

Definition sample_page (entries : list Z) (next : Json) : Json :=
  JObj [("data", JObj [("items", JArr (List.map JNum entries)); ("next", next)])].

Definition sample_request (i : nat) (q : PageQuery) : Outcome :=
  match i with
  | 0%nat => Returns (sample_response (sample_page [1; 2]%Z (JStr "c1")))
  | 1%nat => Returns (sample_response (sample_page [3; 4]%Z (JStr "c2")))
  | 2%nat => Returns (sample_response (sample_page [5]%Z JNull))
  | _ => Throws (Error "no such page")
  end.

Definition sample_failing_request (i : nat) (q : PageQuery) : Outcome :=
  match i with
  | 0%nat => Returns (sample_response (sample_page [1; 2]%Z (JStr "c1")))
  | _ => Throws (Error "connection reset")
  end.

Definition sample_numbered : PaginateSpec :=
  {| query := Some [("status", QOne (QStr "active"))]; pageParam := None;
     pageSizeParam := None; startPage := None; pageSize := Some 2%Z; maxPages := None;
     dataPath := Some "data.items"; nextPagePath := None; stopWhenEmpty := None |}.

Definition sample_cursor : PaginateSpec :=
  {| query := None; pageParam := Some "cursor"; pageSizeParam := None; startPage := None;
     pageSize := None; maxPages := Some 10%Z; dataPath := Some "data.items";
     nextPagePath := Some "data.next"; stopWhenEmpty := None |}.

End Pagination.

(* ================================================================== *)
(** * The scan orchestrator (the [trocco_batch_search] tool) *)
(* ================================================================== *)

Module Search.
Import Js Client.

(** ** Records of the remote API *)

(** A record id, a JSON number or a JSON string; [JobId_eqb] is [===]. *)
Inductive JobId : Type :=
| IdNum (n : Z)
| IdStr (s : string).

Definition JobId_eqb (a b : JobId) : bool :=
  match a, b with
  | IdNum n, IdNum m => (n =? m)%Z
  | IdStr s, IdStr t => String.eqb s t
  | _, _ => false
  end.

(** The id inside a template literal. *)
Definition JobId_to_string (i : JobId) : string :=
  match i with
  | IdNum n => string_of_Z n
  | IdStr s => s
  end.

(** The fields of a listed job definition that the program reads, with
    the types the API gives them; an absent or [null] field is [None]. *)
Record JobRecord : Type := {
  id : JobId;
  name : option string;
  description : option string;
  input_option_type : option string;
  output_option_type : option string;
  created_by : option string
}.

(** [response.data] of a listing request: [items] is [response.data?.items
    || []] and [next_cursor] is [response.data?.next_cursor]. *)
Record ListingPage : Type := {
  items : list JobRecord;
  next_cursor : option string
}.

(** The settlement of an awaited [client.request]. *)
Inductive Completion (A : Type) : Type :=
| Returned (a : A)
| Failed.
Arguments Returned {A} a.
Arguments Failed {A}.

Inductive Strategy : Type :=
| exhaustive_scan
| keyword_chunks
| alphabet_sweep
| recent_first.

(** The argument of [client.request]. *)
Record RequestArgs : Type := {
  r_path : string;
  r_method : string;
  r_query : option Query
}.

(** The variables of the handler, with the log of the listing requests
    issued so far. *)
Record Scan : Type := {
  allMatches : list JobRecord;
  totalScanned : nat;
  batchesSearched : nat;
  requests : list RequestArgs
}.

Definition start : Scan :=
  {| allMatches := []; totalScanned := 0; batchesSearched := 0; requests := [] |}.

(** [(x || '')]. *)
Definition or_empty (x : option string) : string := default "" x.

(** The filter callback of [exhaustive_scan] and of [recent_first]. *)
Definition matches_name_or_description (searchTermLower : string) (item : JobRecord) : bool :=
  let name := toLowerCase (or_empty (name item)) in
  let desc := toLowerCase (or_empty (description item)) in
  includes name searchTermLower || includes desc searchTermLower.

(** The filter callback of [keyword_chunks] and of [alphabet_sweep]. *)
Definition matches_name (searchTermLower : string) (item : JobRecord) : bool :=
  let name := toLowerCase (or_empty (name item)) in
  includes name searchTermLower.

(** The filter callback written in the loop of each strategy. *)
Definition batch_filter (strategy : Strategy) (searchTermLower : string) : JobRecord -> bool :=
  match strategy with
  | exhaustive_scan => matches_name_or_description searchTermLower
  | keyword_chunks => matches_name searchTermLower
  | alphabet_sweep => matches_name searchTermLower
  | recent_first => matches_name_or_description searchTermLower
  end.

Definition issue (st : Scan) (args : RequestArgs) : Scan :=
  {| allMatches := allMatches st; totalScanned := totalScanned st;
     batchesSearched := batchesSearched st;
     requests := (requests st ++ [args])%list |}.

(** The statements of a [try] block that follow the awaited response. *)
Definition record_batch (strategy : Strategy) (searchTermLower : string)
    (st : Scan) (page : ListingPage) : Scan :=
  {| allMatches :=
       (allMatches st ++ List.filter (batch_filter strategy searchTermLower) (items page))%list;
     totalScanned := totalScanned st + List.length (items page);
     batchesSearched := S (batchesSearched st);
     requests := requests st |}.

Definition list_args (q : Query) : RequestArgs :=
  {| r_path := "job_definitions"; r_method := "GET"; r_query := Some q |}.

Definition num (n : Z) : QValue := QOne (QNum n).
Definition str (s : string) : QValue := QOne (QStr s).

(** The query of [keyword_chunks] and of [alphabet_sweep]. *)
Definition name_contains_args (key : string) : RequestArgs :=
  list_args [("name_contains", str key); ("limit", num 200)].

(** [if (cursor)] and [!!cursor]. *)
Definition cursor_truthy (cursor : option string) : bool :=
  match cursor with
  | Some c => negb (String.eqb c "")
  | None => false
  end.

(** ** Chunks and alphabet *)

(** The [for (let i = 0; i < searchTerm.length - 2; i++)] loop; the
    bound is not positive for a term shorter than three characters, and
    the truncated subtraction gives no iteration there either. *)
Definition windows (searchTerm : string) : list string :=
  List.map (fun i => substring searchTerm i (i + 3))
           (seq 0 (String.length searchTerm - 2)).

(** [chunks], before the [Set]. *)
Definition chunks (searchTerm : string) : list string :=
  (windows searchTerm ++
   [substring searchTerm 0 (String.length searchTerm / 2);
    substring_from searchTerm (String.length searchTerm / 2)])%list.

(** [s.split('')]. *)
Fixpoint split_chars (s : string) : list string :=
  match s with
  | EmptyString => []
  | String c s' => String c EmptyString :: split_chars s'
  end.

Definition letters : list string :=
  split_chars "abcdefghijklmnopqrstuvwxyz0123456789".

Section Orchestrator.

(** The remote API seen through the client: the settlement of the
    [n]-th listing request of the invocation, and of the detail request
    made for the candidate at a position of the result head. *)
Variable list_request : nat -> RequestArgs -> Completion ListingPage.
Variable detail_request : nat -> RequestArgs -> Completion (option Json).
Variable TROCCO_BASE_URL : string.

(** ** The four loops *)

(** [while (hasMore && batchesSearched < maxBatches)]; [fuel] bounds the
    number of iterations and [maxBatches] iterations are enough, since
    every iteration that does not break counts one batch. *)
Fixpoint exhaustive_loop (fuel : nat) (searchTermLower : string) (maxBatches : nat)
    (cursor : option string) (hasMore : bool) (st : Scan) : Scan :=
  match fuel with
  | 0 => st
  | S fuel' =>
      if hasMore && (batchesSearched st <? maxBatches)%nat then
        let query :=
          (("limit", num 100) ::
           (if cursor_truthy cursor then [("cursor", str (or_empty cursor))] else []))%list in
        let args := list_args query in
        match list_request (List.length (requests st)) args with
        | Returned page =>
            exhaustive_loop fuel' searchTermLower maxBatches
              (next_cursor page) (cursor_truthy (next_cursor page))
              (record_batch exhaustive_scan searchTermLower (issue st args) page)
        | Failed => issue st args
        end
      else st
  end.

(** The [for (const chunk of ...)] and [for (const letter of letters)]
    loops, whose bodies differ in the name of the loop variable only. *)
Fixpoint name_contains_loop (strategy : Strategy) (searchTermLower : string)
    (maxBatches : nat) (keys : list string) (st : Scan) : Scan :=
  match keys with
  | [] => st
  | key :: rest =>
      if (maxBatches <=? batchesSearched st)%nat then st
      else
        let args := name_contains_args key in
        match list_request (List.length (requests st)) args with
        | Returned page =>
            name_contains_loop strategy searchTermLower maxBatches rest
              (record_batch strategy searchTermLower (issue st args) page)
        | Failed =>
            name_contains_loop strategy searchTermLower maxBatches rest (issue st args)
        end
  end.

(** [for (let i = 0; i < maxBatches; i++)], on the iterations left. *)
Fixpoint recent_loop (left : nat) (searchTermLower : string) (st : Scan) : Scan :=
  match left with
  | 0 => st
  | S left' =>
      let args := list_args [("limit", num 100)] in
      match list_request (List.length (requests st)) args with
      | Returned page =>
          let st' := record_batch recent_first searchTermLower (issue st args) page in
          if (List.length (items page) =? 0)%nat then st'
          else recent_loop left' searchTermLower st'
      | Failed => issue st args
      end
  end.

(** The [switch (strategy)]. *)
Definition scan (searchTerm : string) (strategy : Strategy) (maxBatches : nat) : Scan :=
  let searchTermLower := toLowerCase searchTerm in
  match strategy with
  | exhaustive_scan =>
      exhaustive_loop maxBatches searchTermLower maxBatches None true start
  | keyword_chunks =>
      name_contains_loop keyword_chunks searchTermLower maxBatches
        (Set_of (chunks searchTerm)) start
  | alphabet_sweep =>
      name_contains_loop alphabet_sweep searchTermLower maxBatches letters start
  | recent_first => recent_loop maxBatches searchTermLower start
  end.

(** ** Deduplication *)

Definition uniqueMatches (allMatches : list JobRecord) : list JobRecord :=
  filter_indexed
    (fun match_ index arr =>
       (findIndex (fun m => JobId_eqb (id m) (id match_)) arr =? Z.of_nat index)%Z)
    allMatches.

(** Deduplication in the words of the specification: scan the sequence
    from the left and keep a record when its id was not seen before. *)
Fixpoint first_occurrences_seen (seen : list JobId) (l : list JobRecord) : list JobRecord :=
  match l with
  | [] => []
  | x :: l' =>
      if existsb (fun s => JobId_eqb s (id x)) seen
      then first_occurrences_seen (seen ++ [id x])%list l'
      else x :: first_occurrences_seen (seen ++ [id x])%list l'
  end.

Definition first_occurrences (l : list JobRecord) : list JobRecord :=
  first_occurrences_seen [] l.

(** ** Enrichment *)

Record S3Summary : Type := {
  bucket : option Json;
  prefix : option Json;
  region : option Json
}.

Record SnowflakeSummary : Type := {
  database : option Json;
  schema : option Json;
  table : option Json;
  warehouse : option Json
}.

Record BigQuerySummary : Type := {
  project_id : option Json;
  dataset_id : option Json;
  table_id : option Json
}.

(** [config]; a key that was never assigned is [None]. *)
Record ConfigDetails : Type := {
  input_s3 : option S3Summary;
  input_snowflake : option SnowflakeSummary;
  output_s3 : option S3Summary;
  output_snowflake : option SnowflakeSummary;
  output_bigquery : option BigQuerySummary
}.

Definition empty_config : ConfigDetails :=
  {| input_s3 := None; input_snowflake := None; output_s3 := None;
     output_snowflake := None; output_bigquery := None |}.

(** [v === s] for a string literal [s]. *)
Definition is_string (v : option Json) (s : string) : bool :=
  match v with
  | Some (JStr t) => String.eqb t s
  | _ => false
  end.

Definition s3_summary (s3Config : option Json) : S3Summary :=
  {| bucket := get "bucket" s3Config;
     prefix :=
       or_else (or_else (or_else (get "path_prefix" s3Config) (get "prefix" s3Config))
                        (get "key_prefix" s3Config))
               (Some (JStr ""));
     region := get "region" s3Config |}.

Definition snowflake_summary (sfConfig : option Json) : SnowflakeSummary :=
  {| database := get "database" sfConfig;
     schema := get "schema" sfConfig;
     table := get "table" sfConfig;
     warehouse := get "warehouse" sfConfig |}.

Definition bigquery_summary (bqConfig : option Json) : BigQuerySummary :=
  {| project_id := get "project_id" bqConfig;
     dataset_id := get "dataset_id" bqConfig;
     table_id := get "table_id" bqConfig |}.

(** The two layouts tried for an S3 connector: the nested option first,
    then the option object itself when it has a bucket. *)
Definition s3_config (nested : string) (option_ : option Json) : option S3Summary :=
  let s3Config :=
    if truthy (get nested option_) then get nested option_
    else if truthy (get "bucket" option_) then option_
    else Some JNull in
  if truthy s3Config then Some (s3_summary s3Config) else None.

Definition extractConfigDetails (details : option Json) : ConfigDetails :=
  let input_option := get "input_option" details in
  let output_option := get "output_option" details in
  {| input_s3 :=
       if is_string (get "input_option_type" details) "s3" && truthy input_option
       then s3_config "s3_input_option" input_option else None;
     input_snowflake :=
       if is_string (get "input_option_type" details) "snowflake"
          && truthy (get "snowflake_input_option" input_option)
       then Some (snowflake_summary (get "snowflake_input_option" input_option)) else None;
     output_s3 :=
       if is_string (get "output_option_type" details) "s3" && truthy output_option
       then s3_config "s3_output_option" output_option else None;
     output_snowflake :=
       if is_string (get "output_option_type" details) "snowflake"
          && truthy (get "snowflake_output_option" output_option)
       then Some (snowflake_summary (get "snowflake_output_option" output_option)) else None;
     output_bigquery :=
       if is_string (get "output_option_type" details) "bigquery"
          && truthy (get "bigquery_output_option" output_option)
       then Some (bigquery_summary (get "bigquery_output_option" output_option)) else None |}.

Definition detail_args (jobId : JobId) : RequestArgs :=
  {| r_path := "job_definitions/" +:+ JobId_to_string jobId;
     r_method := "GET"; r_query := None |}.

(** [fetchJobDefinitionDetails], for the candidate at position [pos]:
    [response.data], or [null] when the request throws. *)
Definition fetchJobDefinitionDetails (pos : nat) (jobId : JobId) : option Json :=
  match detail_request pos (detail_args jobId) with
  | Returned data => data
  | Failed => Some JNull
  end.

(** An element of [enrichedMatches]: [{...item, config}]. *)
Record Enriched : Type := {
  e_item : JobRecord;
  config : ConfigDetails
}.

Definition enrich (pos : nat) (item : JobRecord) : Enriched :=
  let details := fetchJobDefinitionDetails pos (id item) in
  {| e_item := item;
     config := if truthy details then extractConfigDetails details else empty_config |}.

Definition enrichedMatches (uniqueMatches : list JobRecord) : list Enriched :=
  imap enrich (take 5 uniqueMatches).

(** ** The result *)

(** [TROCCO_BASE_URL.replace(/\/api\/?$/, '')]. *)
Definition webBaseUrl : string :=
  let n := String.length TROCCO_BASE_URL in
  if endsWith TROCCO_BASE_URL "/api/" then String.substring 0 (n - 5) TROCCO_BASE_URL
  else if endsWith TROCCO_BASE_URL "/api" then String.substring 0 (n - 4) TROCCO_BASE_URL
  else TROCCO_BASE_URL.

Definition generateJobDefinitionUrl (jobId : JobId) : string :=
  webBaseUrl +:+ "/job_definitions/" +:+ JobId_to_string jobId.

Record Projected : Type := {
  p_id : JobId;
  p_name : option string;
  p_description : option string;
  input_type : option string;
  output_type : option string;
  p_created_by : option string;
  p_url : string
}.

Definition project (item : JobRecord) : Projected :=
  {| p_id := id item; p_name := name item; p_description := description item;
     input_type := input_option_type item; output_type := output_option_type item;
     p_created_by := created_by item; p_url := generateJobDefinitionUrl (id item) |}.

Record ScanResult : Type := {
  ok : bool;
  strategy : Strategy;
  res_batchesSearched : nat;
  res_totalScanned : nat;
  matches : list Projected;
  searchProgress : string
}.

(** What the handler returns: [structuredContent], and the enriched head
    that [content] renders. No statement of the [try] block throws on
    the records of this model, so the handler's [catch] is not entered. *)
Record ToolOutput : Type := {
  isError : bool;
  structuredContent : ScanResult;
  rendered : list Enriched
}.

Definition string_of_nat (n : nat) : string := string_of_Z (Z.of_nat n).

Definition trocco_batch_search (searchTerm : string) (strategy : Strategy)
    (maxBatches : nat) : ToolOutput :=
  let st := scan searchTerm strategy maxBatches in
  let unique := uniqueMatches (allMatches st) in
  let enriched := enrichedMatches unique in
  let result :=
    {| ok := true;
       strategy := strategy;
       res_batchesSearched := batchesSearched st;
       res_totalScanned := totalScanned st;
       matches := List.map project unique;
       searchProgress :=
         string_of_nat (batchesSearched st) +:+ "/" +:+ string_of_nat maxBatches
         +:+ " batches, " +:+ string_of_nat (totalScanned st) +:+ " configs scanned" |} in
  {| isError := false; structuredContent := result; rendered := enriched |}.

End Orchestrator.

(** ** Reading the scans

    The query of [exhaustive_scan] for a cursor, the state after a run of
    pages that the listing returned one after the other, and what it
    means for the listing to serve a chain of pages. *)

(** What every batch keeps: no more batches counted than requests
    issued, no more matches than records scanned. *)
Definition consistent (st : Scan) : Prop :=
  batchesSearched st <= List.length (requests st) /\
  List.length (allMatches st) <= totalScanned st.

Definition exhaustive_args (cursor : option string) : RequestArgs :=
  list_args
    (("limit", num 100) ::
     (if cursor_truthy cursor then [("cursor", str (or_empty cursor))] else []))%list.

Fixpoint after_pages (searchTermLower : string) (cursor : option string)
    (pages : list ListingPage) (st : Scan) : Scan :=
  match pages with
  | [] => st
  | page :: rest =>
      after_pages searchTermLower (next_cursor page) rest
        (record_batch exhaustive_scan searchTermLower
           (issue st (exhaustive_args cursor)) page)
  end.

(** The listing answers the [n]-th request, made with [cursor], with the
    first page, and so on along the cursors; every page but the last
    names a next page. *)
Fixpoint cursor_chain (list_request : nat -> RequestArgs -> Completion ListingPage)
    (n : nat) (cursor : option string) (pages : list ListingPage) : Prop :=
  match pages with
  | [] => True
  | page :: rest =>
      list_request n (exhaustive_args cursor) = Returned page /\
      (rest <> [] -> cursor_truthy (next_cursor page) = true) /\
      cursor_chain list_request (S n) (next_cursor page) rest
  end.

(** The cursors sent for a chain of pages: the cursor at hand, then the
    next cursor of every page but the last. *)
Fixpoint cursors_sent (cursor : option string) (pages : list ListingPage)
    : list (option string) :=
  match pages with
  | [] => []
  | page :: rest => cursor :: cursors_sent (next_cursor page) rest
  end.

(** The pages that the listing returned for a log of requests, the
    first of which was the [n]-th request of the invocation; a request
    that failed gives no page. *)
Fixpoint returned_pages (list_request : nat -> RequestArgs -> Completion ListingPage)
    (n : nat) (log : list RequestArgs) : list ListingPage :=
  match log with
  | [] => []
  | args :: rest =>
      match list_request n args with
      | Returned page => page :: returned_pages list_request (S n) rest
      | Failed => returned_pages list_request (S n) rest
      end
  end.

(** The variables of the handler account for the requests logged: the
    accumulator holds the records selected from the pages returned, page
    after page, and the counters count these pages and their records. *)
Definition accounted (list_request : nat -> RequestArgs -> Completion ListingPage)
    (strategy : Strategy) (searchTermLower : string) (st : Scan) : Prop :=
  let pages := returned_pages list_request 0 (requests st) in
  allMatches st
  = flat_map (fun page => List.filter (batch_filter strategy searchTermLower) (items page))
      pages /\
  totalScanned st = list_sum (List.map (fun page => List.length (items page)) pages) /\
  batchesSearched st = List.length pages.

End Search.

(* ================================================================== *)
(** * Sample answers of the platform *)
(* ================================================================== *)

(** What Node's [URL] and [JSON.parse] answer on the inputs of the
    examples given with the theorems; any other input is left without an
    answer. *)
Module Sample.
Import Js Client.

Definition quote : string := String (ascii_of_nat 34) "".

(** The text of a JSON object with the single field msg, of value x. *)
Definition msg_body : string :=
  "{" +:+ quote +:+ "msg" +:+ quote +:+ ":" +:+ quote +:+ "x" +:+ quote +:+ "}".

Definition base : string := "https://trocco.io/".

Definition evil : URL := mkURL "https://evil.example/x" "/x" "" "" [].

Definition listing : URL :=
  mkURL "https://trocco.io/job_definitions" "/job_definitions" "" "" [].

Definition URL_parse (s : string) : option URL :=
  assoc s [("https://evil.example/x", evil);
           ("https://trocco.io/job_definitions", listing)].

Definition URL_resolve (s b : string) : option URL :=
  if String.eqb b base then
    assoc s [("job_definitions", listing);
             ("/job_definitions", listing);
             ("HTTPS://evil.example/x", evil)]
  else None.

Definition JSON_parse (s : string) : option Json :=
  assoc s [(msg_body, JObj [("msg", JStr "x")])].

Definition platform : Platform :=
  {| Client.URL_parse := URL_parse;
     Client.URL_resolve := URL_resolve;
     Client.JSON_parse := JSON_parse |}.

Definition client : TroccoClient :=
  {| baseUrl := base; apiKey := "secret"; client_timeoutMs := 45000;
     env := {| TROCCO_AUTH_HEADER := "Authorization"; TROCCO_AUTH_SCHEME := "Token";
               TROCCO_EXTRA_HEADERS := [] |} |}.

(** A call that passes only a path, and possibly a signal. *)
Definition get (path : string) (signal : option ExternalSignal) : RequestSpec :=
  {| path := path; method := None; query := None; body := None; headers := None;
     timeoutMs := None; signal := signal; responseType := None |}.

Definition live_signal : ExternalSignal :=
  {| ext_aborted := false; ext_reason := VUndefined |}.

Definition not_found : Response :=
  {| status := 404; statusText := "Not Found";
     url := "https://trocco.io/job_definitions";
     resp_headers := [("content-type", "application/json; charset=utf-8")];
     rawText := msg_body |}.

Definition html_page : Response :=
  {| status := 200; statusText := "OK";
     url := "https://trocco.io/job_definitions";
     resp_headers := [("content-type", "application/json")];
     rawText := "<html>" |}.

End Sample.

(* ================================================================== *)
(** * Properties *)
(* ================================================================== *)

Import Js Client Search.

(** ** Deduplication *)

Section Deduplication.

Lemma JobId_eqb_eq (a b : JobId) : JobId_eqb a b = true <-> a = b.
Proof.
  destruct a as [n|s], b as [m|t]; simpl.
  - rewrite Z.eqb_eq. split; congruence.
  - split; discriminate.
  - split; discriminate.
  - rewrite String.eqb_eq. split; congruence.
Qed.

Lemma JobId_eqb_refl (a : JobId) : JobId_eqb a a = true.
Proof. by apply JobId_eqb_eq. Qed.

Lemma seen_spec (seen : list JobId) (i : JobId) :
  existsb (fun s => JobId_eqb s i) seen = true <-> i ∈ seen.
Proof.
  rewrite existsb_exists. split.
  - intros (s & Hin & Heq). apply JobId_eqb_eq in Heq. subst.
    by apply list_elem_of_In.
  - intros Hin. exists i. split; [by apply list_elem_of_In | apply JobId_eqb_refl].
Qed.

Lemma findIndex_from_range {A} (p : A -> bool) (l : list A) (i : Z) :
  findIndex_from p i l = (-1)%Z \/ (i <= findIndex_from p i l)%Z.
Proof.
  revert i. induction l as [|x l IH]; intros i; simpl; [by left|].
  destruct (p x); [right; lia|].
  destruct (IH (i + 1)%Z) as [->|Hle]; [by left | right; lia].
Qed.

(** The index found in [pre ++ x :: post] is the position of [x] exactly
    when [x] satisfies the test and nothing before it does. *)
Lemma findIndex_from_here {A} (p : A -> bool) (pre : list A) (x : A) (post : list A) (i : Z) :
  (0 <= i)%Z ->
  (findIndex_from p i (pre ++ x :: post) =? i + Z.of_nat (List.length pre))%Z
  = p x && negb (existsb p pre).
Proof.
  revert i. induction pre as [|a pre IH]; intros i Hi; simpl.
  - destruct (p x); simpl.
    + apply Z.eqb_eq. lia.
    + apply Z.eqb_neq.
      destruct (findIndex_from_range p post (i + 1)%Z) as [->|Hle]; lia.
  - destruct (p a) eqn:Hpa; simpl.
    + rewrite andb_false_r. apply Z.eqb_neq. lia.
    + rewrite <- (IH (i + 1)%Z) by lia. f_equal. lia.
Qed.

Lemma uniqueMatches_from (pre l : list JobRecord) :
  filter_from
    (fun match_ index =>
       (findIndex (fun m => JobId_eqb (id m) (id match_)) (pre ++ l)
        =? Z.of_nat index)%Z)
    (List.length pre) l
  = first_occurrences_seen (List.map id pre) l.
Proof.
  revert pre. induction l as [|x l IH]; intros pre; [done|].
  cbn [filter_from first_occurrences_seen].
  unfold findIndex at 1.
  pose proof (findIndex_from_here (fun m => JobId_eqb (id m) (id x)) pre x l 0%Z) as Hhere.
  rewrite Z.add_0_l in Hhere. rewrite Hhere by lia. clear Hhere.
  rewrite JobId_eqb_refl, andb_true_l.
  assert (Hseen : existsb (fun m => JobId_eqb (id m) (id x)) pre
                  = existsb (fun s => JobId_eqb s (id x)) (List.map id pre)).
  { clear. induction pre as [|a pre IHp]; simpl; [done | by rewrite IHp]. }
  rewrite Hseen.
  specialize (IH (pre ++ [x])%list).
  rewrite length_app, Nat.add_1_r, <- app_assoc, map_app in IH. simpl in IH.
  rewrite IH.
  by destruct (existsb _ (List.map id pre)).
Qed.

Lemma uniqueMatches_first_occurrences (l : list JobRecord) :
  uniqueMatches l = first_occurrences l.
Proof. apply (uniqueMatches_from [] l). Qed.

Lemma first_occurrences_seen_elem (l : list JobRecord) (seen : list JobId) (x : JobRecord) :
  x ∈ first_occurrences_seen seen l <->
  (id x ∉ seen) /\
  exists i, l !! i = Some x /\ forall j y, j < i -> l !! j = Some y -> id y <> id x.
Proof.
  revert seen. induction l as [|a l IH]; intros seen; simpl.
  - split; [by intros ?%elem_of_nil | by intros (_ & i & ? & _)].
  - assert (Htail : x ∈ first_occurrences_seen (seen ++ [id a]) l <->
                    (id x ∉ seen) /\ id a <> id x /\
                    exists i, l !! i = Some x /\
                      forall j y, j < i -> l !! j = Some y -> id y <> id x).
    { rewrite IH, not_elem_of_app, list_elem_of_singleton.
      split; [intros ((? & ?) & ?) | intros (? & ? & ?)]; repeat split; auto. }
    assert (Hsplit : (exists i, (a :: l) !! i = Some x /\
                        forall j y, j < i -> (a :: l) !! j = Some y -> id y <> id x)
                     <-> a = x \/ (id a <> id x /\ exists i, l !! i = Some x /\
                           forall j y, j < i -> l !! j = Some y -> id y <> id x)).
    { split.
      - intros ([|i] & Hi & Hfirst); simpl in Hi.
        + left. congruence.
        + right. split; [apply (Hfirst 0 a); [lia | done]|].
          exists i. split; [done|]. intros j y Hj Hy. apply (Hfirst (S j) y); [lia | done].
      - intros [->|(Hne & i & Hi & Hfirst)].
        + exists 0. split; [done | intros; lia].
        + exists (S i). split; [done|]. intros [|j] y Hj Hy; simpl in Hy.
          * congruence.
          * apply (Hfirst j y); [lia | done]. }
    rewrite Hsplit.
    destruct (existsb (fun s => JobId_eqb s (id a)) seen) eqn:Hseen.
    + apply seen_spec in Hseen. rewrite Htail.
      split; [intros (? & ? & ?); auto|].
      intros (Hx & [->|[? ?]]); [done | auto].
    + assert (id a ∉ seen) by (rewrite <- seen_spec, Hseen; done).
      rewrite elem_of_cons, Htail.
      split.
      * intros [->|(? & ? & ?)]; auto.
      * intros (Hx & [->|[? ?]]); auto.
Qed.

Lemma first_occurrences_seen_NoDup (l : list JobRecord) (seen : list JobId) :
  NoDup (List.map id (first_occurrences_seen seen l)).
Proof.
  revert seen. induction l as [|a l IH]; intros seen; simpl; [constructor|].
  destruct (existsb _ seen); [apply IH|].
  simpl. constructor; [|apply IH].
  intros (y & Hid & Hy)%list_elem_of_In%in_map_iff.
  apply list_elem_of_In, first_occurrences_seen_elem in Hy as [Hnot _].
  apply Hnot. rewrite Hid. apply elem_of_app. right. by apply list_elem_of_singleton.
Qed.

Lemma first_occurrences_seen_sublist (l : list JobRecord) (seen : list JobId) :
  first_occurrences_seen seen l `sublist_of` l.
Proof.
  revert seen. induction l as [|a l IH]; intros seen; simpl; [done|].
  destruct (existsb _ seen); [by apply sublist_cons | by apply sublist_skip].
Qed.

Lemma first_occurrences_seen_fixed (l : list JobRecord) (seen : list JobId) :
  NoDup (List.map id l) -> (forall x, x ∈ l -> id x ∉ seen) ->
  first_occurrences_seen seen l = l.
Proof.
  revert seen. induction l as [|a l IH]; intros seen Hnd Hfresh; simpl; [done|].
  simpl in Hnd. apply NoDup_cons in Hnd as [Ha Hnd].
  destruct (existsb _ seen) eqn:Hseen.
  - apply seen_spec in Hseen. exfalso. apply (Hfresh a); [by left | done].
  - f_equal. apply IH; [done|].
    intros x Hx. rewrite not_elem_of_app, list_elem_of_singleton.
    split; [apply Hfresh; by right|].
    intros Heq. apply Ha. rewrite <- Heq.
    by apply list_elem_of_In, in_map, list_elem_of_In.
Qed.

End Deduplication.

(** ** Strings *)

Lemma append_nil_l (b : string) : "" +:+ b = b.
Proof. reflexivity. Qed.

Lemma append_cons (x : ascii) (a b : string) : String x a +:+ b = String x (a +:+ b).
Proof. reflexivity. Qed.

Ltac unfold_append := rewrite ?append_cons, ?append_nil_l in *.

Section Strings.

Lemma append_assoc (a b c : string) : (a +:+ b) +:+ c = a +:+ (b +:+ c).
Proof. induction a as [|x a IH]; unfold_append; [done | by rewrite IH]. Qed.

Lemma append_empty_r (a : string) : a +:+ "" = a.
Proof. induction a as [|x a IH]; unfold_append; [done | by rewrite IH]. Qed.

Lemma length_append (a b : string) :
  String.length (a +:+ b) = String.length a + String.length b.
Proof. induction a as [|x a IH]; unfold_append; simpl; [done | by rewrite IH]. Qed.

Lemma startsWith_spec (s p : string) :
  startsWith s p = true <-> exists post, s = p +:+ post.
Proof.
  revert s. induction p as [|a p IH]; intros s.
  - destruct s; simpl; split; eauto.
  - destruct s as [|b s]; simpl.
    + split; [discriminate | intros (post & Hpost); discriminate].
    + destruct (Ascii.eqb a b) eqn:Hab.
      * apply Ascii.eqb_eq in Hab. subst b. rewrite IH.
        split; intros (post & Hpost); exists post; unfold_append; congruence.
      * apply Ascii.eqb_neq in Hab.
        split; [discriminate | intros (post & Hpost); unfold_append; congruence].
Qed.

Lemma includes_spec (s sub : string) :
  includes s sub = true <-> contains s sub.
Proof.
  unfold contains. induction s as [|a s IH]; cbn [includes].
  - rewrite orb_false_r, startsWith_spec. split.
    + intros (post & Hpost). by exists "", post.
    + intros ([|b pre] & post & Hpost); unfold_append; [eauto | discriminate].
  - rewrite orb_true_iff, IH, startsWith_spec. split.
    + intros [(post & Hpost)|(pre & post & Hs)].
      * by exists "", post.
      * exists (String a pre), post. unfold_append. by rewrite Hs.
    + intros ([|b pre] & post & Hpost); unfold_append.
      * left. eauto.
      * right. exists pre, post. congruence.
Qed.

Lemma substring_0_0 (s : string) : String.substring 0 0 s = "".
Proof. by destruct s. Qed.

(** A substring taken inside the string splits it. *)
Lemma substring_split (n m : nat) (s : string) :
  n + m <= String.length s ->
  exists pre post,
    s = pre +:+ String.substring n m s +:+ post /\
    String.length pre = n /\ String.length (String.substring n m s) = m.
Proof.
  revert m s. induction n as [|n IHn].
  - induction m as [|m IHm]; intros s Hlen.
    + exists "", s. by rewrite substring_0_0.
    + destruct s as [|a s]; simpl in Hlen; [lia|].
      destruct (IHm s) as (pre & post & Hs & Hpre & Hm); [lia|].
      destruct pre; [|discriminate]. unfold_append.
      exists "", post. simpl. unfold_append. rewrite Hm.
      split; [congruence | done].
  - intros m [|a s] Hlen; simpl in Hlen; [lia|].
    destruct (IHn m s) as (pre & post & Hs & Hpre & Hm); [lia|].
    exists (String a pre), post. simpl. unfold_append. rewrite Hpre.
    split; [congruence | done].
Qed.

Lemma substring_middle (pre c post : string) :
  String.substring (String.length pre) (String.length c) (pre +:+ c +:+ post) = c.
Proof.
  induction pre as [|a pre IH]; unfold_append; simpl; [|done].
  clear. induction c as [|b c IH]; unfold_append; simpl;
    [apply substring_0_0 | by rewrite IH].
Qed.

(** [substring], on indexes in order and in range, is the substring
    that starts at the first index and ends before the second. *)
Lemma Js_substring_in_range (s : string) (a b : nat) :
  a <= b -> b <= String.length s ->
  substring s a b = String.substring a (b - a) s.
Proof.
  intros Hab Hb. unfold substring.
  by rewrite (Nat.min_l a), (Nat.min_l b), Nat.min_l, Nat.max_r by lia.
Qed.

Lemma halves_split (s : string) (k : nat) :
  k <= String.length s ->
  s = substring s 0 k +:+ substring_from s k /\
  String.length (substring s 0 k) = k.
Proof.
  intros Hk. unfold substring_from.
  rewrite !Js_substring_in_range by lia. rewrite Nat.sub_0_r.
  destruct (substring_split 0 k s) as (pre & post & Hs & Hpre & Hlen); [lia|].
  destruct pre; [|discriminate]. unfold_append. split; [|done].
  assert (Hpost : String.length post = String.length s - k).
  { apply (f_equal String.length) in Hs as Hl.
    rewrite length_append, Hlen in Hl. lia. }
  pose proof (substring_middle (String.substring 0 k s) post "") as Hmid.
  rewrite append_empty_r, <- Hs, Hlen, Hpost in Hmid.
  rewrite Hmid. exact Hs.
Qed.

End Strings.

(** ** The insertion-ordered set *)

Section InsertionOrder.

Lemma Set_add_elem (acc : list string) (x y : string) :
  y ∈ Set_add acc x <-> y ∈ acc \/ y = x.
Proof.
  unfold Set_add. destruct (existsb (String.eqb x) acc) eqn:Hex.
  - apply existsb_exists in Hex as (z & Hz & Heq).
    apply String.eqb_eq in Heq. subst z. apply list_elem_of_In in Hz.
    split; [by left | by intros [?| ->]].
  - by rewrite elem_of_app, list_elem_of_singleton.
Qed.

Lemma Set_add_NoDup (acc : list string) (x : string) :
  NoDup acc -> NoDup (Set_add acc x).
Proof.
  intros Hnd. unfold Set_add. destruct (existsb (String.eqb x) acc) eqn:Hex; [done|].
  apply NoDup_app. split; [done|]. split; [|apply NoDup_singleton].
  intros y Hy ->%list_elem_of_singleton.
  assert (existsb (String.eqb x) acc = true); [|congruence].
  apply existsb_exists. exists x. split; [by apply list_elem_of_In | apply String.eqb_refl].
Qed.

Lemma fold_Set_add_elem (xs acc : list string) (y : string) :
  y ∈ fold_left Set_add xs acc <-> y ∈ acc \/ y ∈ xs.
Proof.
  revert acc. induction xs as [|x xs IH]; intros acc; simpl.
  - split; [by left | by intros [?|?%elem_of_nil]].
  - rewrite IH, Set_add_elem, elem_of_cons. tauto.
Qed.

Lemma fold_Set_add_NoDup (xs acc : list string) :
  NoDup acc -> NoDup (fold_left Set_add xs acc).
Proof.
  revert acc. induction xs as [|x xs IH]; intros acc Hnd; simpl; [done|].
  by apply IH, Set_add_NoDup.
Qed.

Lemma Set_of_elem (xs : list string) (y : string) : y ∈ Set_of xs <-> y ∈ xs.
Proof.
  unfold Set_of. rewrite fold_Set_add_elem.
  split; [by intros [?%elem_of_nil|?] | by right].
Qed.

Lemma Set_of_NoDup (xs : list string) : NoDup (Set_of xs).
Proof. apply fold_Set_add_NoDup. constructor. Qed.

End InsertionOrder.

(** ** The batch loops *)

Section Loops.

Variable list_request : nat -> RequestArgs -> Completion ListingPage.

(** The loop over keys issues its queries for a prefix of the keys, and
    does not stop before the budget or the keys are used up. *)
Lemma name_contains_loop_requests (s : Strategy) (lower : string) (m : nat)
    (keys : list string) (st : Scan) :
  exists k,
    Nat.min (List.length keys) (m - batchesSearched st) <= k <= List.length keys /\
    requests (name_contains_loop list_request s lower m keys st)
    = (requests st ++ List.map name_contains_args (take k keys))%list.
Proof.
  revert st. induction keys as [|key keys IH]; intros st; cbn [name_contains_loop].
  - exists 0. split; [simpl; lia | simpl; by rewrite app_nil_r].
  - destruct (m <=? batchesSearched st)%nat eqn:Hbudget.
    + apply Nat.leb_le in Hbudget. exists 0.
      split; [lia | simpl; by rewrite app_nil_r].
    + apply Nat.leb_gt in Hbudget.
      destruct (list_request _ _) as [page|].
      * destruct (IH (record_batch s lower (issue st (name_contains_args key)) page))
          as (k & Hk & Hreq).
        exists (S k). cbn [List.length batchesSearched record_batch issue] in *.
        split; [lia|].
        rewrite Hreq. simpl. by rewrite <- app_assoc.
      * destruct (IH (issue st (name_contains_args key))) as (k & Hk & Hreq).
        exists (S k). cbn [List.length batchesSearched issue] in *.
        split; [lia|].
        rewrite Hreq. simpl. by rewrite <- app_assoc.
Qed.

(** When no request fails, the loop issues exactly as many queries as
    the budget left allows. *)
Lemma name_contains_loop_all_return (s : Strategy) (lower : string) (m : nat)
    (keys : list string) (st : Scan) :
  (forall n args, list_request n args <> Failed) ->
  requests (name_contains_loop list_request s lower m keys st)
  = (requests st ++ List.map name_contains_args (take (m - batchesSearched st) keys))%list.
Proof.
  intros Hok. revert st. induction keys as [|key keys IH]; intros st;
    cbn [name_contains_loop].
  - rewrite take_nil. simpl. by rewrite app_nil_r.
  - destruct (m <=? batchesSearched st)%nat eqn:Hbudget.
    + apply Nat.leb_le in Hbudget.
      replace (m - batchesSearched st) with 0 by lia. simpl. by rewrite app_nil_r.
    + apply Nat.leb_gt in Hbudget.
      destruct (list_request _ _) as [page|] eqn:Hreq; [|by apply Hok in Hreq].
      rewrite IH. simpl.
      replace (m - batchesSearched st) with (S (m - S (batchesSearched st))) by lia.
      simpl. by rewrite <- app_assoc.
Qed.

(** The queries issued do not depend on the search term. *)
Lemma name_contains_loop_term_independent (s1 s2 : Strategy) (t1 t2 : string)
    (m : nat) (keys : list string) (st1 st2 : Scan) :
  requests st1 = requests st2 ->
  batchesSearched st1 = batchesSearched st2 ->
  requests (name_contains_loop list_request s1 t1 m keys st1)
  = requests (name_contains_loop list_request s2 t2 m keys st2).
Proof.
  revert st1 st2. induction keys as [|key keys IH]; intros st1 st2 Hreq Hbs;
    cbn [name_contains_loop]; [done|].
  rewrite Hbs, Hreq.
  destruct (m <=? batchesSearched st2)%nat; [done|].
  destruct (list_request _ _) as [page|]; apply IH; simpl; congruence.
Qed.

Lemma record_batch_Forall (s : Strategy) (lower : string) (st : Scan) (page : ListingPage) :
  Forall (fun r => batch_filter s lower r = true) (allMatches st) ->
  Forall (fun r => batch_filter s lower r = true) (allMatches (record_batch s lower st page)).
Proof.
  intros Hst. simpl. apply Forall_app. split; [done|].
  apply Forall_forall. intros r Hr%list_elem_of_In%filter_In. tauto.
Qed.

Lemma name_contains_loop_Forall (s : Strategy) (lower : string) (m : nat)
    (keys : list string) (st : Scan) :
  Forall (fun r => batch_filter s lower r = true) (allMatches st) ->
  Forall (fun r => batch_filter s lower r = true)
         (allMatches (name_contains_loop list_request s lower m keys st)).
Proof.
  revert st. induction keys as [|key keys IH]; intros st Hst;
    cbn [name_contains_loop]; [done|].
  destruct (m <=? batchesSearched st)%nat; [done|].
  destruct (list_request _ _) as [page|]; apply IH; [|done].
  by apply record_batch_Forall.
Qed.

Lemma exhaustive_loop_Forall (fuel : nat) (lower : string) (m : nat)
    (cursor : option string) (hasMore : bool) (st : Scan) :
  Forall (fun r => batch_filter exhaustive_scan lower r = true) (allMatches st) ->
  Forall (fun r => batch_filter exhaustive_scan lower r = true)
         (allMatches (exhaustive_loop list_request fuel lower m cursor hasMore st)).
Proof.
  revert cursor hasMore st. induction fuel as [|fuel IH]; intros cursor hasMore st Hst;
    cbn [exhaustive_loop]; [done|].
  destruct (hasMore && _); [|done].
  destruct (list_request _ _) as [page|]; [|done].
  apply IH. by apply record_batch_Forall.
Qed.

Lemma recent_loop_Forall (left : nat) (lower : string) (st : Scan) :
  Forall (fun r => batch_filter recent_first lower r = true) (allMatches st) ->
  Forall (fun r => batch_filter recent_first lower r = true)
         (allMatches (recent_loop list_request left lower st)).
Proof.
  revert st. induction left as [|left IH]; intros st Hst; cbn [recent_loop]; [done|].
  destruct (list_request _ _) as [page|]; [|done].
  pose proof (record_batch_Forall recent_first lower
                (issue st (list_args [("limit", num 100)])) page Hst) as Hnext.
  destruct (_ =? 0)%nat; [done | by apply IH].
Qed.

Lemma scan_Forall (searchTerm : string) (s : Strategy) (m : nat) :
  Forall (fun r => batch_filter s (toLowerCase searchTerm) r = true)
         (allMatches (scan list_request searchTerm s m)).
Proof.
  destruct s; unfold scan.
  - by apply exhaustive_loop_Forall.
  - by apply name_contains_loop_Forall.
  - by apply name_contains_loop_Forall.
  - by apply recent_loop_Forall.
Qed.

(** [maxBatches] iterations are enough for the [while] loop: more fuel
    does not change its result. *)
Lemma exhaustive_loop_fuel (extra fuel : nat) (lower : string) (m : nat)
    (cursor : option string) (hasMore : bool) (st : Scan) :
  m - batchesSearched st <= fuel ->
  exhaustive_loop list_request (fuel + extra) lower m cursor hasMore st
  = exhaustive_loop list_request fuel lower m cursor hasMore st.
Proof.
  revert cursor hasMore st. induction fuel as [|fuel IH]; intros cursor hasMore st Hfuel.
  - destruct extra as [|extra]; [done|]. cbn [Nat.add exhaustive_loop].
    replace (batchesSearched st <? m)%nat with false; [by rewrite andb_false_r|].
    symmetry. apply Nat.ltb_ge. lia.
  - cbn [Nat.add exhaustive_loop].
    destruct (hasMore && _) eqn:Hcond; [|done].
    destruct (list_request _ _) as [page|]; [|done].
    apply IH. simpl. lia.
Qed.

(** ** The variables account for the log *)

Lemma returned_pages_app (n : nat) (log more : list RequestArgs) :
  returned_pages list_request n (log ++ more)
  = (returned_pages list_request n log
     ++ returned_pages list_request (n + List.length log) more)%list.
Proof.
  revert n. induction log as [|args log IH]; intros n; cbn [app returned_pages List.length].
  - by rewrite Nat.add_0_r.
  - rewrite IH, <- Nat.add_succ_comm. by destruct (list_request n args).
Qed.

Lemma returned_pages_elem (page : ListingPage) (log : list RequestArgs) (n : nat) :
  page ∈ returned_pages list_request n log <->
  exists i args, log !! i = Some args /\ list_request (n + i) args = Returned page.
Proof.
  revert n. induction log as [|args log IH]; intros n; cbn [returned_pages].
  - split; [by intros ?%elem_of_nil | by intros (i & a & ? & _)].
  - assert (Hrest : page ∈ returned_pages list_request (S n) log <->
                    exists i a, (args :: log) !! S i = Some a /\
                                list_request (n + S i) a = Returned page).
    { rewrite IH. split; intros (i & a & Hi & Ha); exists i, a;
        (split; [exact Hi|]); by rewrite Nat.add_succ_comm in *. }
    destruct (list_request n args) as [first|] eqn:Hfirst.
    + rewrite elem_of_cons, Hrest. split.
      * intros [->|(i & a & Hi & Ha)]; [|by exists (S i), a].
        exists 0, args. by rewrite Nat.add_0_r.
      * intros ([|i] & a & Hi & Ha); [|right; by exists i, a].
        left. cbn in Hi. injection Hi as <-. rewrite Nat.add_0_r in Ha. congruence.
    + rewrite Hrest. split.
      * intros (i & a & Hi & Ha). by exists (S i), a.
      * intros ([|i] & a & Hi & Ha); [|by exists i, a].
        cbn in Hi. injection Hi as <-. rewrite Nat.add_0_r in Ha. congruence.
Qed.

Lemma accounted_start (s : Strategy) (lower : string) :
  accounted list_request s lower start.
Proof. by unfold accounted. Qed.

Lemma accounted_failed (s : Strategy) (lower : string) (st : Scan) (args : RequestArgs) :
  accounted list_request s lower st ->
  list_request (List.length (requests st)) args = Failed ->
  accounted list_request s lower (issue st args).
Proof.
  unfold accounted. cbn [issue requests allMatches totalScanned batchesSearched].
  intros Hst Hfailed. rewrite returned_pages_app. cbn [returned_pages].
  rewrite Nat.add_0_l, Hfailed, app_nil_r. exact Hst.
Qed.

Lemma accounted_returned (s : Strategy) (lower : string) (st : Scan) (args : RequestArgs)
    (page : ListingPage) :
  accounted list_request s lower st ->
  list_request (List.length (requests st)) args = Returned page ->
  accounted list_request s lower (record_batch s lower (issue st args) page).
Proof.
  unfold accounted.
  cbn [record_batch issue requests allMatches totalScanned batchesSearched].
  intros (Hmatches & Hscanned & Hbatches) Hreturned.
  rewrite returned_pages_app. cbn [returned_pages].
  rewrite Nat.add_0_l, Hreturned, flat_map_app, map_app, list_sum_app, length_app.
  cbn [flat_map List.map list_sum List.length]. rewrite app_nil_r.
  rewrite Hmatches, Hscanned, Hbatches.
  change (list_sum [List.length (items page)]) with (List.length (items page) + 0).
  split; [done|]. split; lia.
Qed.

Lemma name_contains_loop_accounted (s : Strategy) (lower : string) (m : nat)
    (keys : list string) (st : Scan) :
  accounted list_request s lower st ->
  accounted list_request s lower (name_contains_loop list_request s lower m keys st).
Proof.
  revert st. induction keys as [|key keys IH]; intros st Hst;
    cbn [name_contains_loop]; [done|].
  destruct (m <=? batchesSearched st)%nat; [done|].
  destruct (list_request _ _) as [page|] eqn:Hanswer; apply IH.
  - by apply accounted_returned.
  - by apply accounted_failed.
Qed.

Lemma exhaustive_loop_accounted (fuel : nat) (lower : string) (m : nat)
    (cursor : option string) (hasMore : bool) (st : Scan) :
  accounted list_request exhaustive_scan lower st ->
  accounted list_request exhaustive_scan lower
    (exhaustive_loop list_request fuel lower m cursor hasMore st).
Proof.
  revert cursor hasMore st. induction fuel as [|fuel IH]; intros cursor hasMore st Hst;
    cbn [exhaustive_loop]; [done|].
  destruct (hasMore && _); [|done].
  destruct (list_request _ _) as [page|] eqn:Hanswer.
  - apply IH. by apply accounted_returned.
  - by apply accounted_failed.
Qed.

Lemma recent_loop_accounted (left : nat) (lower : string) (st : Scan) :
  accounted list_request recent_first lower st ->
  accounted list_request recent_first lower (recent_loop list_request left lower st).
Proof.
  revert st. induction left as [|left IH]; intros st Hst; cbn [recent_loop]; [done|].
  destruct (list_request _ _) as [page|] eqn:Hanswer.
  - pose proof (accounted_returned recent_first lower st _ page Hst Hanswer) as Hnext.
    destruct (_ =? 0)%nat; [done | by apply IH].
  - by apply accounted_failed.
Qed.

Lemma scan_accounted (searchTerm : string) (s : Strategy) (m : nat) :
  accounted list_request s (toLowerCase searchTerm) (scan list_request searchTerm s m).
Proof.
  destruct s; unfold scan.
  - apply exhaustive_loop_accounted, accounted_start.
  - apply name_contains_loop_accounted, accounted_start.
  - apply name_contains_loop_accounted, accounted_start.
  - apply recent_loop_accounted, accounted_start.
Qed.

(** The loop over keys stops only when the budget is used up, and asks
    for a key only while fewer than [m] of its requests have returned. *)
Lemma name_contains_loop_stop (s : Strategy) (lower : string) (m : nat)
    (keys : list string) (st : Scan) :
  accounted list_request s lower st ->
  batchesSearched st <= m ->
  let st' := name_contains_loop list_request s lower m keys st in
  batchesSearched st' <= m /\
  (List.length (requests st') < List.length (requests st) + List.length keys ->
   batchesSearched st' = m) /\
  (forall i args,
     List.length (requests st) <= i -> requests st' !! i = Some args ->
     List.length (returned_pages list_request 0 (take i (requests st'))) < m).
Proof.
  revert st. induction keys as [|key keys IH]; intros st Hst Hm;
    cbn [name_contains_loop].
  - cbn. split; [done|]. split; [lia|].
    intros i args Hi Hlookup. apply lookup_lt_Some in Hlookup. lia.
  - destruct (m <=? batchesSearched st)%nat eqn:Hbudget.
    + apply Nat.leb_le in Hbudget. cbn. split; [done|]. split; [lia|].
      intros i args Hi Hlookup. apply lookup_lt_Some in Hlookup. lia.
    + apply Nat.leb_gt in Hbudget.
      assert (Hstep : forall st1,
                accounted list_request s lower st1 ->
                batchesSearched st1 <= m ->
                requests st1 = (requests st ++ [name_contains_args key])%list ->
                let st' := name_contains_loop list_request s lower m keys st1 in
                batchesSearched st' <= m /\
                (List.length (requests st') < List.length (requests st) + List.length (key :: keys) ->
                 batchesSearched st' = m) /\
                (forall i args,
                   List.length (requests st) <= i -> requests st' !! i = Some args ->
                   List.length (returned_pages list_request 0 (take i (requests st'))) < m)).
      { intros st1 Hst1 Hm1 Hlog.
        destruct (IH st1 Hst1 Hm1) as (Hle & Hstop & Hwhile).
        destruct (name_contains_loop_requests s lower m keys st1) as (k & _ & Hreq).
        rewrite Hlog in Hstop, Hwhile, Hreq. rewrite length_app in Hstop, Hwhile.
        cbn [List.length] in *. cbv zeta.
        split; [done|]. split; [intros; apply Hstop; lia|].
        intros i a Hi Hlookup.
        destruct (decide (i = List.length (requests st))) as [->|Hne].
        - rewrite Hreq, <- app_assoc, take_app_length.
          destruct Hst as (_ & _ & <-). lia.
        - apply (Hwhile i a); [lia | done]. }
      destruct (list_request _ _) as [page|] eqn:Hanswer; apply Hstep.
      * by apply accounted_returned.
      * cbn. lia.
      * done.
      * by apply accounted_failed.
      * cbn. lia.
      * done.
Qed.

End Loops.

(** ** Chunks *)

Section Chunks.

(** The loop of [keyword_chunks] collects the substrings of length three. *)
Lemma windows_elem (searchTerm c : string) :
  c ∈ windows searchTerm <-> String.length c = 3 /\ contains searchTerm c.
Proof.
  unfold windows. rewrite list_elem_of_In, in_map_iff. split.
  - intros (i & <- & Hi%in_seq).
    rewrite Js_substring_in_range by lia.
    replace (i + 3 - i) with 3 by lia.
    destruct (substring_split i 3 searchTerm) as (pre & post & Hs & _ & Hlen); [lia|].
    split; [done | by exists pre, post].
  - intros (Hlen & pre & post & Hs).
    assert (Hfit : String.length pre + 3 <= String.length searchTerm).
    { rewrite Hs, !length_append, Hlen. lia. }
    exists (String.length pre). split; [|apply in_seq; lia].
    rewrite Js_substring_in_range by lia.
    replace (String.length pre + 3 - String.length pre) with 3 by lia.
    rewrite Hs, <- Hlen. apply substring_middle.
Qed.

Lemma half_le (n : nat) : n / 2 <= n.
Proof. apply Nat.Div0.div_le_upper_bound. lia. Qed.

End Chunks.

(** ** URL search parameters *)

Section SearchParameters.

Lemma sp_delete_other (ps : SearchParams) (k k' v' : string) :
  k <> k' -> (k', v') ∈ ps -> (k', v') ∈ sp_delete k ps.
Proof.
  intros Hne Hin. unfold sp_delete.
  apply list_elem_of_In, filter_In. split; [by apply list_elem_of_In|].
  simpl. apply negb_true_iff, String.eqb_neq. done.
Qed.

Lemma sp_set_here (ps : SearchParams) (k v : string) : (k, v) ∈ sp_set ps k v.
Proof.
  induction ps as [|[k' v'] ps IH]; simpl; [by left|].
  destruct (String.eqb k k'); [by left | by right].
Qed.

Lemma sp_set_other (ps : SearchParams) (k v k' v' : string) :
  k <> k' -> (k', v') ∈ ps -> (k', v') ∈ sp_set ps k v.
Proof.
  intros Hne. induction ps as [|[k0 v0] ps IH]; simpl; [by intros ?%elem_of_nil|].
  intros [Heq|Hin]%elem_of_cons.
  - injection Heq as <- <-.
    destruct (String.eqb k k') eqn:Hk; [by apply String.eqb_eq in Hk | by left].
  - destruct (String.eqb k k0); right; [by apply sp_delete_other | by apply IH].
Qed.

End SearchParameters.

(* ================================================================== *)
(** * The claims *)
(* ================================================================== *)

(** C4. Deduplication of the match accumulator is idempotent, leaves a
    sequence without duplicate ids unchanged, and keeps of the records
    with one id exactly the earliest by position, in the order of the
    first occurrences: [uniqueMatches] is the left-to-right scan that
    keeps a record when its id was not seen before. *)
Theorem C4_uniqueMatches_idempotent_first_occurrence (l : list JobRecord) :
  uniqueMatches (uniqueMatches l) = uniqueMatches l /\
  (NoDup (List.map id l) -> uniqueMatches l = l) /\
  uniqueMatches l = first_occurrences l /\
  NoDup (List.map id (uniqueMatches l)) /\
  uniqueMatches l `sublist_of` l /\
  (forall x, x ∈ uniqueMatches l <->
     exists i, l !! i = Some x /\
       forall j y, j < i -> l !! j = Some y -> id y <> id x).
Proof.
  assert (Hfixed : forall k, NoDup (List.map id k) -> uniqueMatches k = k).
  { intros k Hk. rewrite uniqueMatches_first_occurrences.
    apply first_occurrences_seen_fixed; [done|]. intros x _. apply not_elem_of_nil. }
  assert (Hnd : NoDup (List.map id (uniqueMatches l))).
  { rewrite uniqueMatches_first_occurrences. apply first_occurrences_seen_NoDup. }
  split; [by apply Hfixed|]. split; [apply Hfixed|].
  split; [apply uniqueMatches_first_occurrences|]. split; [done|].
  split.
  - rewrite uniqueMatches_first_occurrences. apply first_occurrences_seen_sublist.
  - intros x. rewrite uniqueMatches_first_occurrences. unfold first_occurrences.
    rewrite first_occurrences_seen_elem.
    split; [by intros [_ ?] | intros ?; split; [apply not_elem_of_nil | done]].
Qed.

(** C5. [keyword_chunks] iterates over the deduplicated set made of every
    contiguous 3-character window of the term, its first half and its
    second half, the term being split at the floor of half its length:
    it queries the chunks of the set in order, one request per chunk, at
    least as many as the budget or the set allows, exactly [maxBatches]
    of them (or all) when no request fails, and it leaves a chunk out
    only when [maxBatches] requests have returned. For ["abcde"] the
    chunks are abc, bcd, cde, ab, cde and the set is abc, bcd, cde, ab. *)
Theorem C5_keyword_chunks_set (searchTerm : string) :
  let half := String.length searchTerm / 2 in
  let first := substring searchTerm 0 half in
  let second := substring_from searchTerm half in
  (forall c, c ∈ Set_of (chunks searchTerm) <->
     (String.length c = 3 /\ contains searchTerm c) \/ c = first \/ c = second) /\
  NoDup (Set_of (chunks searchTerm)) /\
  searchTerm = first +:+ second /\
  String.length first = half /\
  (forall list_request maxBatches,
     let keys := Set_of (chunks searchTerm) in
     let st := scan list_request searchTerm keyword_chunks maxBatches in
     (exists k,
        Nat.min (List.length keys) maxBatches <= k <= List.length keys /\
        requests st = List.map name_contains_args (take k keys)) /\
     ((forall n args, list_request n args <> Failed) ->
      requests st = List.map name_contains_args (take maxBatches keys)) /\
     (List.length (requests st) < List.length keys -> batchesSearched st = maxBatches) /\
     (forall i args, requests st !! i = Some args ->
        List.length (returned_pages list_request 0 (take i (requests st))) < maxBatches)) /\
  chunks "abcde" = ["abc"; "bcd"; "cde"; "ab"; "cde"] /\
  Set_of (chunks "abcde") = ["abc"; "bcd"; "cde"; "ab"].
Proof.
  intros half first second.
  split.
  { intros c. rewrite Set_of_elem. unfold chunks.
    rewrite elem_of_app, windows_elem, !elem_of_cons, elem_of_nil. tauto. }
  split; [apply Set_of_NoDup|].
  destruct (halves_split searchTerm half (half_le _)) as [Hsplit Hlen].
  split; [done|]. split; [done|].
  split; [|split; reflexivity].
  intros list_request maxBatches keys st. subst keys st. unfold scan.
  split; [|split].
  - destruct (name_contains_loop_requests list_request keyword_chunks
                (toLowerCase searchTerm) maxBatches (Set_of (chunks searchTerm)) start)
      as (k & Hk & Hreq).
    cbn [batchesSearched start] in Hk. rewrite Nat.sub_0_r in Hk. by exists k.
  - intros Hok. rewrite name_contains_loop_all_return by done.
    cbn [batchesSearched requests start app]. by rewrite Nat.sub_0_r.
  - destruct (name_contains_loop_stop list_request keyword_chunks
                (toLowerCase searchTerm) maxBatches (Set_of (chunks searchTerm)) start)
      as (_ & Hstop & Hwhile); [apply accounted_start | cbn; lia |].
    split; [exact Hstop|].
    intros i args Hlookup. apply (Hwhile i args); [cbn; lia | exact Hlookup].
Qed.

Lemma C5_keyword_chunks_set_witness :
  let remote : nat -> RequestArgs -> Completion ListingPage :=
    fun n _ => if (n =? 0)%nat then Failed
               else Returned {| items := []; next_cursor := None |} in
  requests (scan remote "abcde" keyword_chunks 2)
  = List.map name_contains_args ["abc"; "bcd"; "cde"] /\
  batchesSearched (scan remote "abcde" keyword_chunks 2) = 2.
Proof.
  intros remote.
  destruct (C5_keyword_chunks_set "abcde") as (_ & _ & _ & _ & Hscan & _).
  destruct (Hscan remote 2) as (_ & _ & Hstop & _).
  split; [reflexivity|]. apply Hstop. vm_compute. lia.
Defined.

(** C10. For a search term of one character the loop over the windows
    contributes nothing, the first half is the empty string and the
    second half is the whole term, so the chunk set is the empty string
    and the term; the first batch query carries an empty [name_contains],
    which [buildUrl] keeps among the search parameters. *)
Theorem C10_single_character_term `{Platform}
    (list_request : nat -> RequestArgs -> Completion ListingPage)
    (c : TroccoClient) (searchTerm : string) (maxBatches : nat) :
  String.length searchTerm = 1 ->
  1 <= maxBatches ->
  windows searchTerm = [] /\
  substring searchTerm 0 (String.length searchTerm / 2) = "" /\
  substring_from searchTerm (String.length searchTerm / 2) = searchTerm /\
  Set_of (chunks searchTerm) = [""; searchTerm] /\
  (exists rest,
     requests (scan list_request searchTerm keyword_chunks maxBatches)
     = name_contains_args "" :: rest) /\
  (forall u0, URL_resolve "job_definitions" (baseUrl c) = Some u0 ->
     exists u,
       buildUrl c (r_path (name_contains_args "")) (r_query (name_contains_args "")) = Ok u /\
       ("name_contains", "") ∈ searchParams u).
Proof.
  intros Hlen Hbudget.
  destruct searchTerm as [|a [|b rest]]; simpl in Hlen; try lia. clear Hlen.
  assert (Hset : Set_of (chunks (String a "")) = [""; String a ""]) by reflexivity.
  repeat split; try reflexivity.
  - unfold scan. rewrite Hset.
    destruct (name_contains_loop_requests list_request keyword_chunks
                (toLowerCase (String a "")) maxBatches [""; String a ""] start)
      as (k & Hk & Hreq).
    cbn [List.length batchesSearched start] in Hk.
    destruct k as [|k]; [lia|]. rewrite Hreq. simpl. eauto.
  - intros u0 Hu0. unfold buildUrl. cbn. rewrite Hu0.
    eexists. split; [reflexivity|]. cbn.
    apply sp_set_other; [done | apply sp_set_here].
Qed.

Lemma C10_single_character_term_witness :
  let platform : Platform :=
    {| URL_parse := fun _ => None;
       URL_resolve := fun p b => Some (mkURL (b +:+ p) ("/" +:+ p) "" "" []);
       JSON_parse := fun _ => None |} in
  let remote : nat -> RequestArgs -> Completion ListingPage :=
    fun _ _ => Returned {| items := []; next_cursor := None |} in
  let client :=
    {| baseUrl := "https://trocco.io/"; apiKey := "key"; client_timeoutMs := 45000;
       env := {| TROCCO_AUTH_HEADER := "Authorization"; TROCCO_AUTH_SCHEME := "Token";
                 TROCCO_EXTRA_HEADERS := [] |} |} in
  Set_of (chunks "a") = [""; "a"] /\
  exists rest, requests (scan remote "a" keyword_chunks 1) = name_contains_args "" :: rest.
Proof.
  intros platform remote client.
  destruct (@C10_single_character_term platform remote client "a" 1)
    as (_ & _ & _ & Hset & Hreq & _); [reflexivity | lia |].
  split; [exact Hset | exact Hreq].
Defined.

(** C1, as the code has it. Every batch is filtered by a case-folded
    substring test before it joins the accumulator: [exhaustive_scan] and
    [recent_first] keep a record when its name or its description
    contains the term, [keyword_chunks] and [alphabet_sweep] when its name
    does. This holds of one batch and of the whole scan: a record is in
    the final accumulator if and only if it passes its strategy's test
    and is in a batch that one of the requests of the scan returned, and
    the accumulator is the selection from these batches, batch after
    batch. *)
Theorem C1_matching_predicate_per_strategy
    (list_request : nat -> RequestArgs -> Completion ListingPage)
    (strategy : Strategy) (searchTerm : string) (maxBatches : nat)
    (st : Scan) (page : ListingPage) (item : JobRecord) :
  let lower := toLowerCase searchTerm in
  let hit (field : option string) := contains (toLowerCase (or_empty field)) lower in
  let selected (r : JobRecord) :=
    match strategy with
    | exhaustive_scan | recent_first => hit (name r) \/ hit (description r)
    | keyword_chunks | alphabet_sweep => hit (name r)
    end in
  let final := scan list_request searchTerm strategy maxBatches in
  (item ∈ allMatches (record_batch strategy lower st page) <->
   item ∈ allMatches st \/ (item ∈ items page /\ selected item)) /\
  Forall selected (allMatches final) /\
  (item ∈ allMatches final <->
   exists i args batch,
     requests final !! i = Some args /\ list_request i args = Returned batch /\
     item ∈ items batch /\ selected item) /\
  allMatches final
  = flat_map (fun batch => List.filter (batch_filter strategy lower) (items batch))
      (returned_pages list_request 0 (requests final)).
Proof.
  intros lower hit selected final.
  assert (Hfilter : forall r, batch_filter strategy lower r = true <-> selected r).
  { intros r. unfold selected, hit.
    destruct strategy; simpl;
      unfold matches_name_or_description, matches_name;
      rewrite ?orb_true_iff, !includes_spec; done. }
  destruct (scan_accounted list_request searchTerm strategy maxBatches) as (Hmatches & _).
  fold final lower in Hmatches.
  split; [|split; [|split; [|exact Hmatches]]].
  - simpl. rewrite elem_of_app.
    rewrite (list_elem_of_In (List.filter _ _)), filter_In, <- list_elem_of_In, Hfilter.
    done.
  - eapply Forall_impl; [apply scan_Forall|]. intros r. apply Hfilter.
  - rewrite Hmatches, list_elem_of_In, in_flat_map. split.
    + intros (batch & Hbatch & Hitem).
      apply list_elem_of_In, returned_pages_elem in Hbatch as (i & args & Hi & Hanswer).
      apply filter_In in Hitem as [Hin Hsel].
      exists i, args, batch. rewrite list_elem_of_In, <- Hfilter. done.
    + intros (i & args & batch & Hi & Hanswer & Hin & Hsel).
      exists batch. split.
      * apply list_elem_of_In, returned_pages_elem. by exists i, args.
      * apply filter_In. rewrite <- list_elem_of_In, Hfilter. done.
Qed.

Lemma C1_matching_predicate_per_strategy_witness :
  let by_name :=
    {| id := IdNum 1; name := Some "Sales export"; description := None;
       input_option_type := None; output_option_type := None; created_by := None |} in
  let by_description :=
    {| id := IdNum 2; name := Some "Orders"; description := Some "Daily sales";
       input_option_type := None; output_option_type := None; created_by := None |} in
  let remote : nat -> RequestArgs -> Completion ListingPage :=
    fun _ _ => Returned {| items := [by_description; by_name]; next_cursor := None |} in
  by_name ∈ allMatches (scan remote "SALES" keyword_chunks 1).
Proof.
  intros by_name by_description remote.
  destruct (C1_matching_predicate_per_strategy remote keyword_chunks "SALES" 1 start
              {| items := []; next_cursor := None |} by_name) as (_ & _ & Hscan & _).
  apply Hscan.
  exists 0, (name_contains_args "SAL"),
    {| items := [by_description; by_name]; next_cursor := None |}.
  split; [reflexivity|]. split; [reflexivity|].
  split; [right; by left|]. by apply includes_spec.
Defined.

(** C1 as stated fails: [keyword_chunks] drops a record whose description,
    but not its name, contains the term. *)
Lemma C1_counterexample_description_only :
  ~ (forall (strategy : Strategy) (searchTerm : string) (st : Scan)
            (page : ListingPage) (item : JobRecord),
       item ∈ allMatches (record_batch strategy (toLowerCase searchTerm) st page) <->
       item ∈ allMatches st \/
       (item ∈ items page /\
        (contains (toLowerCase (or_empty (name item))) (toLowerCase searchTerm) \/
         contains (toLowerCase (or_empty (description item))) (toLowerCase searchTerm)))).
Proof.
  intros Hclaim.
  set (item := {| id := IdNum 1; name := Some "Orders"; description := Some "Daily SALES export";
                  input_option_type := None; output_option_type := None;
                  created_by := None |}).
  specialize (Hclaim keyword_chunks "sales" start
                {| items := [item]; next_cursor := None |} item).
  destruct Hclaim as [_ Hadded].
  assert (Hin : item ∈ allMatches (record_batch keyword_chunks (toLowerCase "sales") start
                                     {| items := [item]; next_cursor := None |})).
  { apply Hadded. right. split; [by left|]. right. by apply includes_spec. }
  vm_compute in Hin. by apply elem_of_nil in Hin.
Qed.

(** C6, as the code has it. [alphabet_sweep] queries the symbols a-z then
    0-9 in order, whatever the search term, until [maxBatches] requests
    have succeeded or the alphabet is used up: at least [min(36,
    maxBatches)] and at most 36 queries, and exactly [min(36, maxBatches)]
    when no request fails. The batches counted are the requests that
    returned; a query is issued only while fewer than [maxBatches] of the
    queries before it have returned, and when the sweep stops before the
    end of the alphabet exactly [maxBatches] have. *)
Theorem C6_alphabet_sweep_queries
    (list_request : nat -> RequestArgs -> Completion ListingPage)
    (searchTerm : string) (maxBatches : nat) :
  let issued := requests (scan list_request searchTerm alphabet_sweep maxBatches) in
  (exists k, Nat.min 36 maxBatches <= k <= 36 /\
     issued = List.map name_contains_args (take k letters)) /\
  ((forall n args, list_request n args <> Failed) ->
   issued = List.map name_contains_args (take (Nat.min 36 maxBatches) letters) /\
   List.length issued = Nat.min 36 maxBatches) /\
  (forall other, requests (scan list_request other alphabet_sweep maxBatches) = issued) /\
  batchesSearched (scan list_request searchTerm alphabet_sweep maxBatches)
  = List.length (returned_pages list_request 0 issued) /\
  (List.length issued < 36 ->
   List.length (returned_pages list_request 0 issued) = maxBatches) /\
  (forall i args, issued !! i = Some args ->
     List.length (returned_pages list_request 0 (take i issued)) < maxBatches) /\
  letters = ["a"; "b"; "c"; "d"; "e"; "f"; "g"; "h"; "i"; "j"; "k"; "l"; "m";
             "n"; "o"; "p"; "q"; "r"; "s"; "t"; "u"; "v"; "w"; "x"; "y"; "z";
             "0"; "1"; "2"; "3"; "4"; "5"; "6"; "7"; "8"; "9"].
Proof.
  intros issued. subst issued. unfold scan.
  assert (Hlen : List.length letters = 36) by reflexivity.
  destruct (name_contains_loop_accounted list_request alphabet_sweep
              (toLowerCase searchTerm) maxBatches letters start
              (accounted_start list_request _ _)) as (_ & _ & Hcounted).
  destruct (name_contains_loop_stop list_request alphabet_sweep
              (toLowerCase searchTerm) maxBatches letters start)
    as (_ & Hstop & Hwhile); [apply accounted_start | cbn; lia |].
  cbn [requests start List.length Nat.add] in Hstop, Hwhile. rewrite Hlen in Hstop.
  split; [|split; [|split; [|split; [exact Hcounted|split; [|split; [|reflexivity]]]]]].
  4:{ intros Hshort. rewrite <- Hcounted. by apply Hstop. }
  4:{ intros i args Hlookup. apply (Hwhile i args); [lia | exact Hlookup]. }
  - destruct (name_contains_loop_requests list_request alphabet_sweep
                (toLowerCase searchTerm) maxBatches letters start) as (k & Hk & Hreq).
    rewrite Hlen in Hk. cbn [batchesSearched start] in Hk.
    exists k. split; [lia | exact Hreq].
  - intros Hok. rewrite name_contains_loop_all_return by done.
    cbn [batchesSearched requests start app]. rewrite Nat.sub_0_r.
    assert (Htake : take maxBatches letters = take (Nat.min 36 maxBatches) letters).
    { destruct (Nat.le_gt_cases maxBatches 36) as [Hle|Hgt].
      - by rewrite Nat.min_r.
      - rewrite Nat.min_l by lia. rewrite !take_ge; [done | lia | lia]. }
    rewrite Htake. split; [done|].
    rewrite length_map, length_take, Hlen. lia.
  - intros other. by apply name_contains_loop_term_independent.
Qed.

Lemma C6_alphabet_sweep_queries_witness :
  let remote : nat -> RequestArgs -> Completion ListingPage :=
    fun _ _ => Returned {| items := []; next_cursor := None |} in
  List.length (requests (scan remote "sales" alphabet_sweep 3)) = 3.
Proof.
  intros remote.
  destruct (C6_alphabet_sweep_queries remote "sales" 3) as (_ & Hall & _).
  destruct Hall as [_ Hcount]; [intros n args; discriminate|].
  exact Hcount.
Defined.

(** C6 as stated fails: a request that fails does not count as a batch,
    so the sweep goes on to a further symbol. *)
Lemma C6_counterexample_failed_request :
  ~ (forall (list_request : nat -> RequestArgs -> Completion ListingPage)
            (searchTerm : string) (maxBatches : nat),
       1 <= maxBatches <= 50 ->
       List.length (requests (scan list_request searchTerm alphabet_sweep maxBatches))
       = Nat.min 36 maxBatches).
Proof.
  intros Hclaim.
  specialize (Hclaim
    (fun n _ => if (n =? 0)%nat then Failed
                else Returned {| items := []; next_cursor := None |})
    "sales" 1).
  vm_compute in Hclaim. assert (2 = 1) by (apply Hclaim; lia). lia.
Qed.

Lemma lookup_map {A B} (f : A -> B) (l : list A) (i : nat) :
  List.map f l !! i = f <$> (l !! i).
Proof.
  revert i. induction l as [|x l IH]; intros [|i]; simpl; done.
Qed.

(** C9. When the detail fetch fails for one candidate of the result
    head, the call still succeeds, [matches] is what it is without any
    enrichment and still holds the candidate at its position, the
    candidate gets the empty detail set, and every other candidate whose
    fetch returned keeps the details extracted from its own response. *)
Theorem C9_failed_detail_fetch_is_local
    (list_request : nat -> RequestArgs -> Completion ListingPage)
    (detail_request : nat -> RequestArgs -> Completion (option Json))
    (TROCCO_BASE_URL searchTerm : string) (strategy : Strategy) (maxBatches : nat)
    (i : nat) (candidate : JobRecord) :
  let unique :=
    uniqueMatches (allMatches (scan list_request searchTerm strategy maxBatches)) in
  let out :=
    trocco_batch_search list_request detail_request TROCCO_BASE_URL
      searchTerm strategy maxBatches in
  take 5 unique !! i = Some candidate ->
  detail_request i (detail_args (id candidate)) = Failed ->
  isError out = false /\
  ok (structuredContent out) = true /\
  matches (structuredContent out) = List.map (project TROCCO_BASE_URL) unique /\
  matches (structuredContent out) !! i = Some (project TROCCO_BASE_URL candidate) /\
  (forall other_details,
     structuredContent
       (trocco_batch_search list_request other_details TROCCO_BASE_URL
          searchTerm strategy maxBatches)
     = structuredContent out) /\
  List.length (rendered out) = List.length (take 5 unique) /\
  List.length (rendered out) <= 5 /\
  rendered out !! i = Some {| e_item := candidate; config := empty_config |} /\
  (forall j other data,
     j <> i ->
     take 5 unique !! j = Some other ->
     detail_request j (detail_args (id other)) = Returned data ->
     rendered out !! j
     = Some {| e_item := other;
               config := if truthy data then extractConfigDetails data
                         else empty_config |}).
Proof.
  intros unique out Hcandidate Hfailed.
  assert (Hi : unique !! i = Some candidate).
  { apply lookup_take_Some in Hcandidate. tauto. }
  repeat split.
  - cbn. fold unique. by rewrite lookup_map, Hi.
  - cbn. fold unique. unfold enrichedMatches. by rewrite length_imap.
  - cbn. fold unique. unfold enrichedMatches. rewrite length_imap, length_take. lia.
  - cbn. fold unique. unfold enrichedMatches.
    rewrite list_lookup_imap, Hcandidate. cbn.
    unfold enrich, fetchJobDefinitionDetails. by rewrite Hfailed.
  - intros j other data _ Hother Hdata.
    cbn. fold unique. unfold enrichedMatches.
    rewrite list_lookup_imap, Hother. cbn.
    unfold enrich, fetchJobDefinitionDetails. by rewrite Hdata.
Qed.

Lemma C9_failed_detail_fetch_is_local_witness :
  let job (n : Z) (title : string) :=
    {| id := IdNum n; name := Some title; description := None;
       input_option_type := Some "s3"; output_option_type := Some "snowflake";
       created_by := None |} in
  let remote : nat -> RequestArgs -> Completion ListingPage :=
    fun _ _ => Returned {| items := [job 7%Z "Sales daily"; job 8%Z "sales weekly"];
                           next_cursor := None |} in
  let details : nat -> RequestArgs -> Completion (option Json) :=
    fun pos _ =>
      if (pos =? 0)%nat then Failed
      else Returned (Some (JObj [("input_option_type", JStr "s3");
                                 ("input_option", JObj [("bucket", JStr "lake")])])) in
  let out := trocco_batch_search remote details "https://x.trocco.io/api/"
               "sales" exhaustive_scan 1 in
  rendered out !! 0 = Some {| e_item := job 7%Z "Sales daily"; config := empty_config |} /\
  List.length (matches (structuredContent out)) = 2.
Proof.
  intros job remote details out.
  destruct (C9_failed_detail_fetch_is_local remote details "https://x.trocco.io/api/"
              "sales" exhaustive_scan 1 0 (job 7%Z "Sales daily"))
    as (_ & _ & Hmatches & _ & _ & _ & _ & Hrendered & _); [reflexivity | reflexivity |].
  split; [exact Hrendered | subst out; by rewrite Hmatches].
Defined.

(** ** The request client *)

Section ClientRuns.
Context `{Platform}.

(** A response that the transport resolves with is summarized, and
    raised inside a [TroccoApiError] when its status is not a success. *)
Lemma request_resolved (c : TroccoClient) (spec : RequestSpec) (u : URL)
    (response : Response) (durationMs : Z) :
  buildUrl c (path spec) (query spec) = Ok u ->
  let summary :=
    summarize (default "GET" (method spec)) (default "auto" (responseType spec))
      response durationMs in
  request c spec (Resolves response durationMs)
  = {| fetched := [u];
       outcome :=
         if negb (Response_ok response) then
           Throws (TroccoApiError (responded_message response)
                     (Some (requestContext c spec u)) (Some summary) None)
         else Returns summary |}.
Proof.
  intros Hbuild summary. unfold request. rewrite Hbuild. cbv zeta.
  by destruct (if (_ =? 1)%nat then _ else _).
Qed.

(** A path that [buildUrl] refuses never reaches [fetch]. *)
Lemma request_refused (c : TroccoClient) (spec : RequestSpec) (w : World) (e : Thrown) :
  buildUrl c (path spec) (query spec) = Raise e ->
  request c spec w = {| fetched := []; outcome := Throws e |}.
Proof. intros Hbuild. unfold request. by rewrite Hbuild. Qed.

(** An absolute URL written with the scheme in lower case is refused
    unless its [href] starts with the base endpoint. *)
Lemma buildUrl_refuses_foreign_href (c : TroccoClient) (path : string)
    (query : option Query) (u : URL) :
  startsWith path "http" = true ->
  URL_parse path = Some u ->
  startsWith (href u) (baseUrl c) = false ->
  buildUrl c path query = Raise (Error external_not_allowed).
Proof.
  intros Hhttp Hparse Hforeign. unfold buildUrl, checkAbsolute.
  destruct (String.eqb path "") eqn:Hempty.
  { apply String.eqb_eq in Hempty. subst. discriminate. }
  by rewrite Hhttp, Hparse, Hforeign.
Qed.

Lemma buildUrl_accepts_base_href (c : TroccoClient) (path : string)
    (query : option Query) (u : URL) :
  startsWith path "http" = true ->
  URL_parse path = Some u ->
  startsWith (href u) (baseUrl c) = true ->
  buildUrl c path query <> Raise (Error external_not_allowed).
Proof.
  intros Hhttp Hparse Hbase. unfold buildUrl, checkAbsolute.
  destruct (String.eqb path "") eqn:Hempty.
  { apply String.eqb_eq in Hempty. subst. discriminate. }
  rewrite Hhttp, Hparse, Hbase. simpl.
  destruct (URL_resolve _ _); [destruct query|]; discriminate.
Qed.

End ClientRuns.

(** C3. A response whose status is outside 200-299 makes [request] throw
    a [TroccoApiError] that carries the request context and the response
    summary; the summary exposes the status and, for a body classified and
    parsed as JSON, the parsed data. *)
Theorem C3_non_2xx_raises_api_error `{Platform} (c : TroccoClient) (spec : RequestSpec)
    (u : URL) (response : Response) (durationMs : Z) :
  buildUrl c (path spec) (query spec) = Ok u ->
  ~ (200 <= status response <= 299)%Z ->
  let responseType := default "auto" (responseType spec) in
  let summary :=
    summarize (default "GET" (method spec)) responseType response durationMs in
  request c spec (Resolves response durationMs)
  = {| fetched := [u];
       outcome := Throws (TroccoApiError (responded_message response)
                            (Some (requestContext c spec u)) (Some summary) None) |} /\
  s_ok summary = false /\
  s_status summary = status response /\
  (forall v, rawText response <> "" ->
             shouldParseJson response responseType = true ->
             JSON_parse (rawText response) = Some v ->
             s_data summary = Some v /\ s_text summary = None).
Proof.
  intros Hbuild Hstatus responseType summary.
  assert (Hok : Response_ok response = false).
  { unfold Response_ok. apply andb_false_iff.
    destruct (Z.leb_spec 200 (status response)); [right | by left].
    apply Z.leb_gt. lia. }
  split; [|split; [exact Hok | split; [reflexivity|]]].
  - rewrite (request_resolved c spec u response durationMs Hbuild).
    by rewrite Hok.
  - intros v Hbody Hjson Hparse. subst summary. unfold summarize. cbn.
    apply String.eqb_neq in Hbody. rewrite Hbody, Hjson. cbn. by rewrite Hparse.
Qed.

Lemma C3_non_2xx_raises_api_error_witness :
  exists context summary,
    outcome (request (H := Sample.platform) Sample.client
               (Sample.get "job_definitions" None) (Resolves Sample.not_found 12))
    = Throws (TroccoApiError "Trocco API responded with 404 Not Found"
                (Some context) (Some summary) None) /\
    s_status summary = 404%Z /\
    s_data summary = Some (JObj [("msg", JStr "x")]).
Proof.
  destruct (@C3_non_2xx_raises_api_error Sample.platform Sample.client
              (Sample.get "job_definitions" None) Sample.listing Sample.not_found 12)
    as (Hrun & _ & Hstatus & Hdata); [reflexivity | simpl; lia |].
  destruct (Hdata (JObj [("msg", JStr "x")])) as [Hparsed _];
    [discriminate | reflexivity | reflexivity |].
  eexists _, _. rewrite Hrun. cbn [outcome].
  split; [reflexivity | split; [exact Hstatus | exact Hparsed]].
Defined.

(** C8. A successful response with a non-empty body comes back with
    exactly one of [data] and [text]: [data] only if the response was
    classified as JSON, which is always so for the response type json,
    never for text, and otherwise decided by a JSON content type; a
    classified body that does not parse yields no [data] and the raw
    text, and nothing is thrown. *)
Theorem C8_data_or_text `{Platform} (c : TroccoClient) (spec : RequestSpec)
    (u : URL) (response : Response) (durationMs : Z) :
  buildUrl c (path spec) (query spec) = Ok u ->
  Response_ok response = true ->
  rawText response <> "" ->
  let responseType := default "auto" (responseType spec) in
  exists summary,
    outcome (request c spec (Resolves response durationMs)) = Returns summary /\
    ((is_Some (s_data summary) /\ s_text summary = None) \/
     (s_data summary = None /\ s_text summary = Some (rawText response))) /\
    (is_Some (s_data summary) -> shouldParseJson response responseType = true) /\
    (shouldParseJson response responseType = true <->
       responseType = "json" \/
       (responseType <> "text" /\
        exists contentType,
          assoc "content-type" (resp_headers response) = Some contentType /\
          (includes contentType "application/json" = true \/
           includes contentType "+json" = true))) /\
    (responseType = "text" -> s_data summary = None) /\
    (JSON_parse (rawText response) = None ->
     s_data summary = None /\ s_text summary = Some (rawText response)).
Proof.
  intros Hbuild Hok Hbody responseType.
  exists (summarize (default "GET" (method spec)) responseType response durationMs).
  rewrite (request_resolved c spec u response durationMs Hbuild).
  rewrite Hok. cbn [negb outcome].
  apply String.eqb_neq in Hbody.
  unfold summarize. cbn [s_data s_text]. rewrite Hbody. cbn [negb andb].
  split; [done|]. split; [|split; [|split; [|split]]].
  - destruct (shouldParseJson response responseType);
      [destruct (JSON_parse (rawText response)) |]; eauto.
  - destruct (shouldParseJson response responseType); [done|].
    by intros [? ?].
  - unfold shouldParseJson.
    destruct (String.eqb responseType "json") eqn:Hjson.
    { apply String.eqb_eq in Hjson. by split; [left|]. }
    apply String.eqb_neq in Hjson.
    destruct (String.eqb responseType "text") eqn:Htext.
    { apply String.eqb_eq in Htext.
      split; [discriminate | intros [?|[? _]]; done]. }
    apply String.eqb_neq in Htext.
    destruct (assoc "content-type" (resp_headers response)) as [contentType|].
    + destruct (String.eqb contentType "") eqn:Hempty.
      * apply String.eqb_eq in Hempty. subst contentType.
        split; [discriminate|].
        intros [?|(_ & ct & [= <-] & [Hinc|Hinc])]; [done | |]; discriminate Hinc.
      * rewrite orb_true_iff. split.
        -- intros Hinc. right. split; [done|]. by exists contentType.
        -- intros [?|(_ & ct & [= <-] & Hinc)]; done.
    + split; [discriminate|]. intros [?|(_ & ct & ? & _)]; done.
  - intros ->. reflexivity.
  - intros Hparse. rewrite Hparse. by destruct (shouldParseJson _ _).
Qed.

Lemma C8_data_or_text_witness :
  exists summary,
    outcome (request (H := Sample.platform) Sample.client
               (Sample.get "job_definitions" None) (Resolves Sample.html_page 12))
    = Returns summary /\
    s_data summary = None /\ s_text summary = Some "<html>".
Proof.
  destruct (@C8_data_or_text Sample.platform Sample.client
              (Sample.get "job_definitions" None) Sample.listing Sample.html_page 12)
    as (summary & Hrun & _ & _ & _ & _ & Hunparsed);
    [reflexivity | reflexivity | discriminate |].
  exists summary. split; [exact Hrun | by apply Hunparsed].
Defined.

Lemma await_abort_done (ms : Z) (has_external : bool) (composite : nat)
    (evs : list AbortEvent) (h : Heap) (r : Value) :
  is_aborted h composite = Some r ->
  await_abort ms has_external composite evs h = Some r.
Proof. intros Hr. destruct evs; simpl; by rewrite Hr. Qed.

(** C2. The request is bound to the first cancellation source that
    fires, for a transport that honours the signal it is given. When the
    timeout elapses first the error carries the timeout message and the
    timeout error as its cause, whatever fires later; when the caller's
    handle aborts first, in flight or before the call, the error is
    built from the reason of that abort alone, and for an Error reason
    it has that error's message and that error as its cause. *)
Theorem C2_first_abort_reason_wins `{Platform} (c : TroccoClient) (spec : RequestSpec)
    (u : URL) (rest : list AbortEvent) :
  buildUrl c (path spec) (query spec) = Ok u ->
  let ms := default (client_timeoutMs c) (timeoutMs spec) in
  let context := requestContext c spec u in
  (pre_aborted spec = false ->
   outcome (request c spec (Interrupted (TimeoutElapses :: rest)))
   = Throws (TroccoApiError (timeout_message ms) (Some context) None
               (Some (VError (timeout_message ms))))) /\
  (forall e arg,
     signal spec = Some e -> ext_aborted e = false ->
     outcome (request c spec (Interrupted (ExternalAborts arg :: rest)))
     = Throws (wrap context (stored_reason (event_reason (stored_reason arg))))) /\
  (forall e m,
     signal spec = Some e -> ext_aborted e = false ->
     outcome (request c spec (Interrupted (ExternalAborts (VError m) :: rest)))
     = Throws (TroccoApiError m (Some context) None (Some (VError m)))) /\
  (forall e evs,
     signal spec = Some e -> ext_aborted e = true ->
     outcome (request c spec (Interrupted evs))
     = Throws (wrap context (stored_reason (ext_reason e)))).
Proof.
  intros Hbuild ms context.
  assert (Hexternal : forall e arg,
            signal spec = Some e -> ext_aborted e = false ->
            outcome (request c spec (Interrupted (ExternalAborts arg :: rest)))
            = Throws (wrap context (stored_reason (event_reason (stored_reason arg))))).
  { intros [ab r] arg Hsignal Hlive. simpl in Hlive. subst ab.
    unfold request. rewrite Hbuild, Hsignal. cbn.
    erewrite await_abort_done by reflexivity. reflexivity. }
  split; [|split; [exact Hexternal | split]].
  - intros Hpre. clear Hexternal. unfold request. unfold pre_aborted in Hpre.
    rewrite Hbuild.
    destruct (signal spec) as [[ab r]|]; simpl in Hpre; subst; cbn.
    + erewrite await_abort_done by reflexivity. reflexivity.
    + erewrite await_abort_done by reflexivity. reflexivity.
  - intros e m Hsignal Hlive. by rewrite (Hexternal e (VError m)).
  - intros [ab r] evs Hsignal Hgone. simpl in Hgone. subst ab.
    unfold request. rewrite Hbuild, Hsignal. cbn.
    erewrite await_abort_done by reflexivity. reflexivity.
Qed.

Lemma C2_first_abort_reason_wins_witness :
  let spec := Sample.get "job_definitions" (Some Sample.live_signal) in
  let run (evs : list AbortEvent) :=
    outcome (request (H := Sample.platform) Sample.client spec (Interrupted evs)) in
  let context := requestContext Sample.client spec Sample.listing in
  run [ExternalAborts (VError "cancelled by the caller"); TimeoutElapses]
  = Throws (TroccoApiError "cancelled by the caller" (Some context) None
              (Some (VError "cancelled by the caller"))) /\
  run [TimeoutElapses; ExternalAborts (VError "cancelled by the caller")]
  = Throws (TroccoApiError "Trocco API request timed out after 45000 ms" (Some context)
              None (Some (VError "Trocco API request timed out after 45000 ms"))).
Proof.
  intros spec run context. split.
  - destruct (@C2_first_abort_reason_wins Sample.platform Sample.client spec
                Sample.listing [TimeoutElapses]) as (_ & _ & Hexternal & _);
      [reflexivity|].
    exact (Hexternal Sample.live_signal "cancelled by the caller" eq_refl eq_refl).
  - destruct (@C2_first_abort_reason_wins Sample.platform Sample.client spec
                Sample.listing [ExternalAborts (VError "cancelled by the caller")])
      as (Htimeout & _); [reflexivity|].
    exact (Htimeout eq_refl).
Defined.

(** C7, evaluated where it breaks. [buildUrl] recognizes an absolute URL
    by [startsWith('http')], which is case-sensitive, whereas the URL
    parser reads a scheme in any case: a path that does not start with
    these four lower-case letters, such as an absolute URL written
    HTTPS://, skips the comparison with the base endpoint and is fetched
    as the parser resolves it, whatever its [href]. *)
Theorem C7_upper_case_scheme_reaches_fetch `{Platform} (c : TroccoClient)
    (spec : RequestSpec) (u : URL) (w : World) :
  path spec <> "" ->
  startsWith (path spec) "http" = false ->
  startsWith (path spec) "/" = false ->
  query spec = None ->
  URL_resolve (path spec) (baseUrl c) = Some u ->
  buildUrl c (path spec) (query spec) = Ok u /\
  fetched (request c spec w) = [u].
Proof.
  intros Hpath Hhttp Hslash Hquery Hresolve.
  assert (Hbuild : buildUrl c (path spec) (query spec) = Ok u).
  { unfold buildUrl. apply String.eqb_neq in Hpath.
    by rewrite Hpath, Hhttp, Hslash, Hresolve, Hquery. }
  split; [exact Hbuild|].
  unfold request. rewrite Hbuild. cbv zeta.
  by destruct (if (_ =? 1)%nat then _ else _).
Qed.

Lemma C7_upper_case_scheme_reaches_fetch_witness :
  fetched (request (H := Sample.platform) Sample.client
             (Sample.get "HTTPS://evil.example/x" None) (RejectsWith VAbortError))
  = [Sample.evil] /\
  startsWith (href Sample.evil) (baseUrl Sample.client) = false /\
  request (H := Sample.platform) Sample.client
    (Sample.get "https://evil.example/x" None) (RejectsWith VAbortError)
  = {| fetched := []; outcome := Throws (Error external_not_allowed) |}.
Proof.
  destruct (@C7_upper_case_scheme_reaches_fetch Sample.platform Sample.client
              (Sample.get "HTTPS://evil.example/x" None) Sample.evil
              (RejectsWith VAbortError)) as [_ Hfetched];
    [cbn; discriminate | reflexivity | reflexivity | reflexivity | reflexivity |].
  split; [exact Hfetched | split; reflexivity].
Defined.

Lemma C4_uniqueMatches_idempotent_first_occurrence_witness :
  let job (n : Z) (title : string) :=
    {| id := IdNum n; name := Some title; description := None;
       input_option_type := None; output_option_type := None; created_by := None |} in
  uniqueMatches [job 1%Z "a"; job 2%Z "b"; job 1%Z "c"; job 3%Z "d"; job 2%Z "e"]
  = [job 1%Z "a"; job 2%Z "b"; job 3%Z "d"] /\
  uniqueMatches [job 1%Z "a"; job 2%Z "b"; job 3%Z "d"] = [job 1%Z "a"; job 2%Z "b"; job 3%Z "d"].
Proof.
  intros job. split; [reflexivity|].
  destruct (C4_uniqueMatches_idempotent_first_occurrence
              [job 1%Z "a"; job 2%Z "b"; job 3%Z "d"]) as (_ & Hfixed & _).
  apply Hfixed. subst job. cbn.
  repeat (apply NoDup_cons_2;
          [intros Hin; repeat (apply elem_of_cons in Hin as [Hin|Hin]; [discriminate|]);
           by apply elem_of_nil in Hin|]).
  apply NoDup_nil_2.
Defined.

(* ================================================================== *)
(** * Further properties of the client *)
(* ================================================================== *)

Local Close Scope string_scope.

Section QueryParameters.

Lemma sp_set_fresh (ps : SearchParams) (k v : string) :
  ~ In k (List.map fst ps) -> sp_set ps k v = (ps ++ [(k, v)])%list.
Proof.
  induction ps as [|[k' v'] ps IH]; simpl; intros Hfresh; [done|].
  destruct (String.eqb k k') eqn:Hk.
  - apply String.eqb_eq in Hk. subst. exfalso. apply Hfresh. by left.
  - rewrite IH; [done|]. intros Hin. apply Hfresh. by right.
Qed.

Lemma fold_sp_append (key : string) (items : list QScalar) (ps : SearchParams) :
  fold_left (fun acc item => sp_append acc key (String_of item)) items ps
  = (ps ++ List.map (fun item => (key, String_of item)) items)%list.
Proof.
  revert ps. induction items as [|item items IH]; intros ps; simpl.
  - by rewrite app_nil_r.
  - rewrite IH. unfold sp_append. by rewrite <- app_assoc.
Qed.

Lemma applyEntry_fresh (ps : SearchParams) (entry : string * QValue) :
  ~ In (fst entry) (List.map fst ps) ->
  applyEntry ps entry = (ps ++ expandEntry entry)%list.
Proof.
  destruct entry as [key [| |v|items]]; unfold expandEntry; simpl; intros Hfresh.
  - by rewrite app_nil_r.
  - by rewrite app_nil_r.
  - by apply sp_set_fresh.
  - apply fold_sp_append.
Qed.

Lemma expandEntry_keys (entry : string * QValue) (k : string) :
  In k (List.map fst (expandEntry entry)) -> k = fst entry.
Proof.
  destruct entry as [key [| |v|items]]; unfold expandEntry; cbn [snd fst].
  - intros [].
  - intros [].
  - intros [<-|[]]. done.
  - rewrite List.map_map. cbn [fst]. intros (item & <- & _)%in_map_iff. done.
Qed.

Lemma sp_getAll_app (k : string) (ps qs : SearchParams) :
  sp_getAll k (ps ++ qs) = (sp_getAll k ps ++ sp_getAll k qs)%list.
Proof. unfold sp_getAll. by rewrite List.filter_app, List.map_app. Qed.

Lemma sp_getAll_delete_same (k : string) (ps : SearchParams) :
  sp_getAll k (sp_delete k ps) = [].
Proof.
  unfold sp_getAll, sp_delete. induction ps as [|[k' v'] ps IH]; simpl; [done|].
  destruct (String.eqb k k') eqn:Hk; simpl; [done|]. by rewrite Hk.
Qed.

Lemma sp_getAll_delete_other (k k' : string) (ps : SearchParams) :
  k <> k' -> sp_getAll k' (sp_delete k ps) = sp_getAll k' ps.
Proof.
  intros Hne. unfold sp_getAll, sp_delete.
  induction ps as [|[k0 v0] ps IH]; simpl; [done|].
  destruct (String.eqb k k0) eqn:Hk; simpl.
  - apply String.eqb_eq in Hk. subst k0.
    assert (String.eqb k' k = false) as -> by (apply String.eqb_neq; congruence).
    done.
  - destruct (String.eqb k' k0); simpl; by rewrite IH.
Qed.

Lemma sp_getAll_set_same (k v : string) (ps : SearchParams) :
  sp_getAll k (sp_set ps k v) = [v].
Proof.
  induction ps as [|[k' v'] ps IH]; simpl.
  - unfold sp_getAll. simpl. by rewrite String.eqb_refl.
  - destruct (String.eqb k k') eqn:Hk.
    + change ((k, v) :: sp_delete k ps) with ([(k, v)] ++ sp_delete k ps)%list.
      rewrite sp_getAll_app, sp_getAll_delete_same.
      unfold sp_getAll. simpl. by rewrite String.eqb_refl.
    + change ((k', v') :: sp_set ps k v) with ([(k', v')] ++ sp_set ps k v)%list.
      rewrite sp_getAll_app, IH. unfold sp_getAll. simpl. by rewrite Hk.
Qed.

Lemma sp_getAll_set_other (k k' v : string) (ps : SearchParams) :
  k <> k' -> sp_getAll k' (sp_set ps k v) = sp_getAll k' ps.
Proof.
  intros Hne.
  assert (Hkk : String.eqb k' k = false) by (apply String.eqb_neq; congruence).
  induction ps as [|[k0 v0] ps IH]; simpl.
  - unfold sp_getAll. simpl. by rewrite Hkk.
  - destruct (String.eqb k k0) eqn:Hk.
    + apply String.eqb_eq in Hk. subst k0.
      change ((k, v) :: sp_delete k ps) with ([(k, v)] ++ sp_delete k ps)%list.
      change ((k, v0) :: ps) with ([(k, v0)] ++ ps)%list.
      rewrite !sp_getAll_app, sp_getAll_delete_other by done.
      unfold sp_getAll. simpl. by rewrite Hkk.
    + change ((k0, v0) :: sp_set ps k v) with ([(k0, v0)] ++ sp_set ps k v)%list.
      change ((k0, v0) :: ps) with ([(k0, v0)] ++ ps)%list.
      by rewrite !sp_getAll_app, IH.
Qed.

End QueryParameters.

(** X1. A query whose names do not occur among the parameters of the
    resolved URL is appended to them entry by entry, in the order of the
    entries: an [undefined] or [null] entry adds nothing, a scalar adds
    one parameter with its string form, a sequence adds one parameter per
    element, in element order. *)
Theorem X1_applyQuery_expands_entries (query : Query) (ps : SearchParams) :
  NoDup (List.map fst query) ->
  (forall k, In k (List.map fst query) -> ~ In k (List.map fst ps)) ->
  applyQuery query ps = (ps ++ flat_map expandEntry query)%list.
Proof.
  unfold applyQuery. revert ps.
  induction query as [|entry query IH]; intros ps Hnodup Hfresh; simpl.
  - by rewrite app_nil_r.
  - apply NoDup_cons in Hnodup as [Hentry Hnodup].
    rewrite applyEntry_fresh by (apply Hfresh; by left).
    rewrite IH; [by rewrite <- app_assoc | done |].
    intros k Hk Hin. rewrite List.map_app in Hin. apply in_app_iff in Hin as [Hin|Hin].
    + apply (Hfresh k); [by right | done].
    + apply expandEntry_keys in Hin. subst k.
      apply Hentry. by apply list_elem_of_In.
Qed.

Lemma X1_applyQuery_expands_entries_witness :
  applyQuery [("cursor", QNull); ("ids", QMany [QNum 7; QNum 8]);
              ("limit", QOne (QNum 100)); ("after", QUndefined)] []
  = [("ids", "7"); ("ids", "8"); ("limit", "100")].
Proof.
  rewrite X1_applyQuery_expands_entries; [reflexivity | | intros k _ []].
  simpl.
  repeat (apply NoDup_cons_2;
          [intros Hin; repeat (apply elem_of_cons in Hin as [Hin|Hin]; [discriminate|]);
           by apply elem_of_nil in Hin|]).
  apply NoDup_nil_2.
Defined.

(** X2. A scalar query value replaces every parameter of the same name
    that the URL already has, a sequence is added after them, an entry
    without a value leaves them, and parameters of other names are
    untouched by all three. *)
Theorem X2_scalar_replaces_sequence_appends (ps : SearchParams) (key other : string)
    (v : QScalar) (items : list QScalar) :
  sp_getAll key (applyEntry ps (key, QOne v)) = [String_of v] /\
  sp_getAll key (applyEntry ps (key, QMany items))
  = (sp_getAll key ps ++ List.map String_of items)%list /\
  applyEntry ps (key, QUndefined) = ps /\
  applyEntry ps (key, QNull) = ps /\
  (key <> other ->
   sp_getAll other (applyEntry ps (key, QOne v)) = sp_getAll other ps /\
   sp_getAll other (applyEntry ps (key, QMany items)) = sp_getAll other ps).
Proof.
  assert (Hmany : forall k,
            sp_getAll k (List.map (fun item => (key, String_of item)) items)
            = if String.eqb k key then List.map String_of items else []).
  { intros k. unfold sp_getAll. induction items as [|item items IH]; simpl.
    - by destruct (String.eqb k key).
    - destruct (String.eqb k key); simpl; [by rewrite IH | done]. }
  split; [apply sp_getAll_set_same|].
  split.
  { simpl. by rewrite fold_sp_append, sp_getAll_app, Hmany, String.eqb_refl. }
  split; [done|]. split; [done|].
  intros Hne. split; [by apply sp_getAll_set_other|].
  simpl. rewrite fold_sp_append, sp_getAll_app, Hmany.
  assert (String.eqb other key = false) as -> by (apply String.eqb_neq; congruence).
  by rewrite app_nil_r.
Qed.

Lemma X2_scalar_replaces_sequence_appends_witness :
  sp_getAll "tag" (applyEntry [("limit", "5"); ("tag", "a"); ("limit", "9")]
                     ("limit", QOne (QNum 100)))
  = ["a"].
Proof.
  destruct (X2_scalar_replaces_sequence_appends
              [("limit", "5"); ("tag", "a"); ("limit", "9")] "limit" "tag" (QNum 100) [])
    as (_ & _ & _ & _ & Hother).
  destruct Hother as [Hscalar _]; [discriminate|].
  rewrite Hscalar. reflexivity.
Defined.

Section RequestRuns.
Context `{Platform}.

Lemma buildUrl_raise_kind (c : TroccoClient) (p : string) (q : option Query) (e : Thrown) :
  buildUrl c p q = Raise e -> exists m, e = Error m \/ e = TypeError m.
Proof.
  unfold buildUrl, checkAbsolute.
  destruct (String.eqb p ""); [intros [= <-]; eauto|].
  destruct (startsWith p "http").
  - destruct (URL_parse p) as [u|]; [|intros [= <-]; eauto].
    destruct (negb _); [intros [= <-]; eauto|].
    destruct (URL_resolve _ _); [by destruct q | intros [= <-]; eauto].
  - destruct (startsWith p "/");
      (destruct (URL_resolve _ _); [by destruct q | intros [= <-]; eauto]).
Qed.

Lemma request_fetched (c : TroccoClient) (spec : RequestSpec) (w : World) (u : URL) :
  buildUrl c (path spec) (query spec) = Ok u ->
  fetched (request c spec w) = [u].
Proof.
  intros Hbuild. unfold request. rewrite Hbuild. cbv zeta.
  by destruct (if (_ =? 1)%nat then _ else _).
Qed.

(** The reason that [fetch] rejects with, for a request that starts with
    no source aborted: that of the first event that counts. *)
Lemma await_abort_alone (ms : Z) (evs : list AbortEvent) :
  await_abort ms false timeout_signal evs (initial_heap None)
  = match List.find (effective false) evs with
    | Some _ => Some (VError (timeout_message ms))
    | None => None
    end.
Proof.
  induction evs as [|[|arg] evs IH]; cbn; [done | | exact IH].
  by apply await_abort_done.
Qed.

Lemma await_abort_both (ms : Z) (r : Value) (evs : list AbortEvent) :
  let ext := {| ext_aborted := false; ext_reason := r |} in
  let '(composite, h) :=
    anySignal [timeout_signal; external_signal] (initial_heap (Some ext)) in
  is_aborted h composite = None /\
  await_abort ms true composite evs h
  = match evs with
    | [] => None
    | TimeoutElapses :: _ => Some (VError (timeout_message ms))
    | ExternalAborts arg :: _ => Some (stored_reason (event_reason (stored_reason arg)))
    end.
Proof.
  cbn. split; [done|].
  destruct evs as [|[|arg] evs]; cbn; [done | |]; by apply await_abort_done.
Qed.

End RequestRuns.

(** X3. A path that [buildUrl] refuses never reaches [fetch]: the error
    is thrown as it is, a plain Error or a TypeError and not a
    [TroccoApiError], and nothing is fetched; a path that it accepts is
    fetched exactly once, whatever the transport does. *)
Theorem X3_refused_path_never_fetched `{Platform} (c : TroccoClient)
    (spec : RequestSpec) (w : World) :
  match buildUrl c (path spec) (query spec) with
  | Raise e =>
      request c spec w = {| fetched := []; outcome := Throws e |} /\
      exists m, e = Error m \/ e = TypeError m
  | Ok u => fetched (request c spec w) = [u]
  end /\
  (path spec = "" ->
   request c spec w
   = {| fetched := [];
        outcome := Throws (Error "TroccoClient request requires a path string") |}).
Proof.
  split.
  - destruct (buildUrl c (path spec) (query spec)) as [u|e] eqn:Hbuild.
    + by apply request_fetched.
    + split; [by apply request_refused | by eapply buildUrl_raise_kind].
  - intros Hempty. apply request_refused. unfold buildUrl. by rewrite Hempty.
Qed.

Lemma X3_refused_path_never_fetched_witness :
  request (H := Sample.platform) Sample.client (Sample.get "" None)
    (Resolves Sample.html_page 12)
  = {| fetched := [];
       outcome := Throws (Error "TroccoClient request requires a path string") |}.
Proof.
  destruct (@X3_refused_path_never_fetched Sample.platform Sample.client
              (Sample.get "" None) (Resolves Sample.html_page 12)) as [_ Hempty].
  exact (Hempty eq_refl).
Defined.

(** X4. An absolute URL that starts with lower-case http and whose
    [href] does not start with the base endpoint is refused without any
    fetch; one whose [href] starts with the base endpoint is reduced to
    its path, search and hash and resolved against the base endpoint like
    a relative path. *)
Theorem X4_lower_case_absolute_url `{Platform} (c : TroccoClient)
    (spec : RequestSpec) (w : World) (u : URL) :
  startsWith (path spec) "http" = true ->
  URL_parse (path spec) = Some u ->
  (startsWith (href u) (baseUrl c) = false ->
   request c spec w
   = {| fetched := []; outcome := Throws (Error external_not_allowed) |}) /\
  (startsWith (href u) (baseUrl c) = true ->
   buildUrl c (path spec) (query spec)
   = match URL_resolve (pathname u +:+ search u +:+ hash u) (baseUrl c) with
     | None => Raise (TypeError "Invalid URL")
     | Some resolved =>
         match query spec with
         | None => Ok resolved
         | Some q =>
             Ok (mkURL (href resolved) (pathname resolved) (search resolved)
                       (hash resolved) (applyQuery q (searchParams resolved)))
         end
     end).
Proof.
  intros Hhttp Hparse.
  assert (Hpath : String.eqb (path spec) "" = false).
  { apply String.eqb_neq. intros Hempty. rewrite Hempty in Hhttp. discriminate. }
  split.
  - intros Hforeign. apply request_refused.
    by apply (buildUrl_refuses_foreign_href c (path spec) (query spec) u).
  - intros Hbase. unfold buildUrl, checkAbsolute.
    by rewrite Hpath, Hhttp, Hparse, Hbase.
Qed.

Lemma X4_lower_case_absolute_url_witness :
  request (H := Sample.platform) Sample.client
    (Sample.get "https://evil.example/x" None) (RejectsWith VAbortError)
  = {| fetched := []; outcome := Throws (Error external_not_allowed) |} /\
  buildUrl (H := Sample.platform) Sample.client
    "https://trocco.io/job_definitions" None
  = Ok Sample.listing.
Proof.
  split.
  - destruct (@X4_lower_case_absolute_url Sample.platform Sample.client
                (Sample.get "https://evil.example/x" None) (RejectsWith VAbortError)
                Sample.evil) as [Hforeign _]; [reflexivity | reflexivity |].
    by apply Hforeign.
  - destruct (@X4_lower_case_absolute_url Sample.platform Sample.client
                (Sample.get "https://trocco.io/job_definitions" None)
                (RejectsWith VAbortError) Sample.listing) as [_ Hbase];
      [reflexivity | reflexivity |].
    etransitivity; [exact (Hbase eq_refl) | reflexivity].
Defined.

(** X5. One leading slash of a relative path is ignored: the path with
    the slash builds the same URL, or fails the same way, as the path
    without it. *)
Theorem X5_leading_slash_ignored `{Platform} (c : TroccoClient) (p : string)
    (query : option Query) :
  p <> "" ->
  startsWith p "http" = false ->
  startsWith p "/" = false ->
  buildUrl c ("/" +:+ p) query = buildUrl c p query.
Proof.
  intros Hp Hhttp Hslash. destruct p as [|a p]; [done|]. clear Hp.
  unfold buildUrl. rewrite Hhttp, Hslash, append_cons, append_nil_l.
  reflexivity.
Qed.

Lemma X5_leading_slash_ignored_witness :
  buildUrl (H := Sample.platform) Sample.client "/job_definitions" None
  = Ok Sample.listing.
Proof.
  change "/job_definitions" with ("/" +:+ "job_definitions").
  rewrite (@X5_leading_slash_ignored Sample.platform Sample.client "job_definitions" None);
    [reflexivity | discriminate | reflexivity | reflexivity].
Defined.

(** X6. Every [TroccoApiError] that [request] throws carries the context
    of the request, and either a response summary whose [ok] is false
    and no cause, or no response and the value that [fetch] rejected with
    as its cause. *)
Theorem X6_api_error_shape `{Platform} (c : TroccoClient) (spec : RequestSpec)
    (w : World) (m : string) (req : option RequestContext)
    (resp : option ResponseSummary) (cause : option Value) :
  outcome (request c spec w) = Throws (TroccoApiError m req resp cause) ->
  exists u,
    buildUrl c (path spec) (query spec) = Ok u /\
    req = Some (requestContext c spec u) /\
    ((exists summary, resp = Some summary /\ s_ok summary = false /\ cause = None) \/
     (resp = None /\ exists e, cause = Some e)).
Proof.
  unfold request.
  destruct (buildUrl c (path spec) (query spec)) as [u|e] eqn:Hbuild.
  2:{ cbn. intros [= ->].
      apply buildUrl_raise_kind in Hbuild as (m' & [?|?]); discriminate. }
  intros Hthrown. exists u. split; [done|].
  cbv zeta in Hthrown.
  destruct (if (_ =? 1)%nat then _ else _) as [composite h].
  cbn [outcome] in Hthrown.
  assert (Hwrap : forall e, Throws (wrap (requestContext c spec u) e)
                            = Throws (TroccoApiError m req resp cause) ->
            req = Some (requestContext c spec u) /\
            ((exists summary, resp = Some summary /\ s_ok summary = false /\ cause = None) \/
             (resp = None /\ exists e, cause = Some e))).
  { intros [| |m'| |t]; cbn; intros [= <- <- <- <-] || intros [=]; eauto. }
  destruct w as [response durationMs|e|evs].
  - destruct (negb (Response_ok response)) eqn:Hok; [|discriminate].
    injection Hthrown as <- <- <- <-. split; [done|]. left.
    eexists. split; [done|]. split; [|done].
    cbn. by apply negb_true_iff.
  - by apply (Hwrap e).
  - destruct (await_abort _ _ _ _ _) as [r|]; cbn in Hthrown; [|discriminate].
    by apply (Hwrap r).
Qed.

Lemma X6_api_error_shape_witness :
  exists u,
    buildUrl (H := Sample.platform) Sample.client "job_definitions" None = Ok u /\
    u = Sample.listing.
Proof.
  destruct (@X6_api_error_shape Sample.platform Sample.client
              (Sample.get "job_definitions" None) (RejectsWith (VError "socket hang up"))
              "socket hang up"
              (Some (requestContext Sample.client (Sample.get "job_definitions" None)
                       Sample.listing))
              None (Some (VError "socket hang up")))
    as (u & Hbuild & _); [reflexivity|].
  exists u. split; [exact Hbuild|].
  cbn in Hbuild. by injection Hbuild as <-.
Defined.

(** X7. [request] returns a summary only when the transport resolved
    with a response whose status is in 200-299; the summary has [ok]
    true, that status, the duration measured and the method of the
    call. *)
Theorem X7_returns_only_success `{Platform} (c : TroccoClient) (spec : RequestSpec)
    (w : World) (summary : ResponseSummary) :
  outcome (request c spec w) = Returns summary ->
  s_ok summary = true /\
  (200 <= s_status summary <= 299)%Z /\
  s_method summary = default "GET" (method spec) /\
  exists response durationMs,
    w = Resolves response durationMs /\
    s_status summary = status response /\
    s_durationMs summary = durationMs.
Proof.
  unfold request.
  destruct (buildUrl c (path spec) (query spec)) as [u|e]; [|discriminate].
  destruct (signal spec) as [[[] r]|]; cbn.
  all: destruct w as [response durationMs|e|evs]; cbn; try discriminate.
  all: try (destruct (await_abort _ _ _ _ _); discriminate).
  all: destruct (Response_ok response) eqn:Hok; cbn; [|discriminate].
  all: intros [= <-]; cbn; repeat split; eauto.
  all: unfold Response_ok in Hok; apply andb_true_iff in Hok as [?%Z.leb_le ?%Z.leb_le]; lia.
Qed.

Lemma X7_returns_only_success_witness :
  exists summary,
    outcome (request (H := Sample.platform) Sample.client
               (Sample.get "job_definitions" None) (Resolves Sample.html_page 12))
    = Returns summary /\ s_status summary = 200%Z.
Proof.
  eexists. split; [reflexivity|].
  destruct (@X7_returns_only_success Sample.platform Sample.client
              (Sample.get "job_definitions" None) (Resolves Sample.html_page 12) _ eq_refl)
    as (_ & _ & _ & response & d & Hw & Hstatus & _).
  injection Hw as <- <-. exact Hstatus.
Defined.

(** X8. A successful response with an empty body is returned with
    neither [data] nor [text], whatever the response type asked for and
    whatever its content type: the JSON parser is not consulted. *)
Theorem X8_empty_body `{Platform} (c : TroccoClient) (spec : RequestSpec)
    (u : URL) (response : Response) (durationMs : Z) :
  buildUrl c (path spec) (query spec) = Ok u ->
  Response_ok response = true ->
  rawText response = "" ->
  exists summary,
    outcome (request c spec (Resolves response durationMs)) = Returns summary /\
    s_data summary = None /\ s_text summary = None.
Proof.
  intros Hbuild Hok Hbody.
  rewrite (request_resolved c spec u response durationMs Hbuild).
  rewrite Hok. cbn [negb outcome]. eexists. split; [reflexivity|].
  unfold summarize. cbn [s_data s_text]. by rewrite Hbody.
Qed.

Lemma X8_empty_body_witness :
  let no_content :=
    {| status := 204; statusText := "No Content"; url := "https://trocco.io/job_definitions";
       resp_headers := [("content-type", "application/json")]; rawText := "" |} in
  exists summary,
    outcome (request (H := Sample.platform) Sample.client
               {| path := "job_definitions"; method := Some "DELETE"; query := None;
                  body := None; headers := None; timeoutMs := None; signal := None;
                  responseType := Some "json" |}
               (Resolves no_content 3))
    = Returns summary /\
    s_data summary = None /\ s_text summary = None.
Proof.
  intros no_content.
  apply (@X8_empty_body Sample.platform Sample.client _ Sample.listing no_content 3);
    reflexivity.
Defined.

(** X9. A failure of the transport is thrown as a [TroccoApiError]
    with the message of the failure, the request context, no response,
    and the failure itself as cause; a rejection with [undefined] or
    [null] makes the [catch] block itself throw a TypeError. *)
Theorem X9_transport_failure_wrapped `{Platform} (c : TroccoClient) (spec : RequestSpec)
    (u : URL) (m : string) :
  buildUrl c (path spec) (query spec) = Ok u ->
  outcome (request c spec (RejectsWith (VError m)))
  = Throws (TroccoApiError m (Some (requestContext c spec u)) None (Some (VError m))) /\
  (forall e, e = VUndefined \/ e = VNull ->
     exists text, outcome (request c spec (RejectsWith e)) = Throws (TypeError text)).
Proof.
  intros Hbuild. unfold request. rewrite Hbuild.
  destruct (signal spec) as [[[] r]|]; cbn.
  all: split; [done|]; intros e [->| ->]; cbn; eauto.
Qed.

Lemma X9_transport_failure_wrapped_witness :
  outcome (request (H := Sample.platform) Sample.client
             (Sample.get "job_definitions" (Some Sample.live_signal))
             (RejectsWith (VError "getaddrinfo ENOTFOUND trocco.io")))
  = Throws (TroccoApiError "getaddrinfo ENOTFOUND trocco.io"
              (Some (requestContext Sample.client
                       (Sample.get "job_definitions" (Some Sample.live_signal))
                       Sample.listing))
              None (Some (VError "getaddrinfo ENOTFOUND trocco.io"))).
Proof.
  apply (@X9_transport_failure_wrapped Sample.platform Sample.client
           (Sample.get "job_definitions" (Some Sample.live_signal)) Sample.listing);
    reflexivity.
Defined.

(** X10. A pending request settles with the first event that counts,
    wherever it stands in the timeline: a timeout, or an abort of the
    caller's handle when one was passed. Aborts of a handle that was not
    passed are ignored, the events after the first that counts change
    nothing, and without such an event the request does not settle. *)
Theorem X10_first_effective_event `{Platform} (c : TroccoClient) (spec : RequestSpec)
    (u : URL) (evs : list AbortEvent) :
  buildUrl c (path spec) (query spec) = Ok u ->
  pre_aborted spec = false ->
  let ms := default (client_timeoutMs c) (timeoutMs spec) in
  let context := requestContext c spec u in
  outcome (request c spec (Interrupted evs))
  = match List.find (effective (bool_decide (is_Some (signal spec)))) evs with
    | None => NeverSettles
    | Some TimeoutElapses =>
        Throws (TroccoApiError (timeout_message ms) (Some context) None
                  (Some (VError (timeout_message ms))))
    | Some (ExternalAborts arg) =>
        Throws (wrap context (stored_reason (event_reason (stored_reason arg))))
    end.
Proof.
  intros Hbuild Hpre ms context. unfold request, pre_aborted in *. rewrite Hbuild.
  destruct (signal spec) as [[[] r]|]; [discriminate | |].
  - pose proof (await_abort_both ms r evs) as Hboth.
    cbn in Hboth. destruct Hboth as [_ Hawait].
    cbn. fold ms. rewrite Hawait.
    by destruct evs as [|[|arg] evs].
  - cbn. fold ms. rewrite (await_abort_alone ms evs).
    induction evs as [|[|arg] evs IH]; cbn; [done | done | exact IH].
Qed.

Lemma X10_first_effective_event_witness :
  outcome (request (H := Sample.platform) Sample.client
             (Sample.get "job_definitions" None)
             (Interrupted [ExternalAborts (VError "stop"); TimeoutElapses]))
  = Throws (TroccoApiError "Trocco API request timed out after 45000 ms"
              (Some (requestContext Sample.client (Sample.get "job_definitions" None)
                       Sample.listing))
              None (Some (VError "Trocco API request timed out after 45000 ms"))).
Proof.
  apply (@X10_first_effective_event Sample.platform Sample.client
           (Sample.get "job_definitions" None) Sample.listing
           [ExternalAborts (VError "stop"); TimeoutElapses]);
    reflexivity.
Defined.

(** ** Combined signals *)

Section CombinedSignals.

Lemma is_aborted_insert_ne (g : list AbortSignal) (i j : nat) (x : AbortSignal) :
  i <> j -> is_aborted (<[i := x]> g) j = is_aborted g j.
Proof. intros Hne. unfold is_aborted, Heap. by rewrite list_lookup_insert_ne. Qed.

Lemma is_aborted_insert_eq (g : list AbortSignal) (i : nat) (x : AbortSignal) :
  i < length g ->
  is_aborted (<[i := x]> g) i = if aborted x then Some (reason x) else None.
Proof. intros Hi. unfold is_aborted, Heap. by rewrite list_lookup_insert_eq. Qed.

Lemma is_aborted_none_lookup (g : list AbortSignal) (i : nat) (sg : AbortSignal) :
  g !! i = Some sg -> is_aborted g i = None -> aborted sg = false.
Proof. unfold is_aborted, Heap. intros ->. by destruct (aborted sg). Qed.

Lemma abort_controller_length (g : list AbortSignal) (i : nat) (a : Value) :
  length (abort_controller g i a) = length g.
Proof.
  unfold abort_controller, Heap. destruct (g !! i) as [sg|]; [|done].
  destruct (aborted sg); [done | apply length_insert].
Qed.

Lemma abort_controller_other (g : list AbortSignal) (i j : nat) (a : Value) :
  i <> j -> is_aborted (abort_controller g i a) j = is_aborted g j.
Proof.
  intros Hne. unfold abort_controller, Heap. destruct (g !! i) as [sg|]; [|done].
  destruct (aborted sg); [done | by apply is_aborted_insert_ne].
Qed.

(** A controller aborts once: an aborted signal keeps its reason. *)
Lemma abort_controller_keeps (g : list AbortSignal) (i j : nat) (a r : Value) :
  is_aborted g j = Some r -> is_aborted (abort_controller g i a) j = Some r.
Proof.
  intros Hj. destruct (decide (i = j)) as [->|Hne].
  - unfold abort_controller, is_aborted, Heap in *.
    destruct (g !! j) as [sg|] eqn:Hg; [|done].
    destruct (aborted sg) eqn:Hab; [by rewrite Hg, Hab | done].
  - by rewrite abort_controller_other.
Qed.

Lemma abort_controller_sets (g : list AbortSignal) (i : nat) (a : Value) :
  i < length g -> is_aborted g i = None ->
  is_aborted (abort_controller g i a) i = Some (stored_reason a).
Proof.
  intros Hi Hnone. unfold abort_controller, Heap.
  destruct (lookup_lt_is_Some_2 g i Hi) as [sg Hsg]. rewrite Hsg.
  rewrite (is_aborted_none_lookup g i sg Hsg Hnone).
  by rewrite is_aborted_insert_eq.
Qed.

Lemma fold_onAbort_length (r : Value) (ls : list nat) (g : list AbortSignal) :
  length (fold_left (onAbort r) ls g) = length g.
Proof.
  revert g. induction ls as [|t ls IH]; intros g; simpl; [done|].
  rewrite IH. apply abort_controller_length.
Qed.

Lemma fold_onAbort_keeps (r r' : Value) (ls : list nat) (g : list AbortSignal) (j : nat) :
  is_aborted g j = Some r' -> is_aborted (fold_left (onAbort r) ls g) j = Some r'.
Proof.
  revert g. induction ls as [|t ls IH]; intros g Hj; simpl; [done|].
  apply IH. by apply abort_controller_keeps.
Qed.

(** Dispatching an abort event reaches every registered listener. *)
Lemma fold_onAbort_reaches (r : Value) (ls : list nat) (g : list AbortSignal) (c : nat) :
  In c ls -> c < length g -> is_aborted g c = None ->
  is_aborted (fold_left (onAbort r) ls g) c = Some (stored_reason (event_reason r)).
Proof.
  revert g. induction ls as [|t ls IH]; intros g Hin Hc Hnone; [done|].
  simpl. change (onAbort r g t) with (abort_controller g t (event_reason r)).
  destruct (decide (t = c)) as [->|Hne].
  - apply fold_onAbort_keeps. by apply abort_controller_sets.
  - destruct Hin as [?|Hin]; [done|].
    apply IH; [done | by rewrite abort_controller_length |].
    by rewrite abort_controller_other.
Qed.

(** Once a signal is aborted, no later abort of any signal changes it. *)
Lemma abort_keeps (g : list AbortSignal) (t j : nat) (a r : Value) :
  is_aborted g j = Some r -> is_aborted (abort g t a) j = Some r.
Proof.
  intros Hj. unfold abort, Heap. destruct (g !! t) as [sg|] eqn:Ht; [|done].
  destruct (aborted sg) eqn:Hab; [done|].
  apply fold_onAbort_keeps. rewrite is_aborted_insert_ne; [done|].
  intros ->. unfold is_aborted, Heap in Hj. by rewrite Ht, Hab in Hj.
Qed.

Lemma first_aborted_ext (g g' : list AbortSignal) (signals : list nat) :
  (forall s, In s signals -> is_aborted g' s = is_aborted g s) ->
  first_aborted g' signals = first_aborted g signals.
Proof.
  induction signals as [|s signals IH]; intros Hsame; simpl; [done|].
  rewrite Hsame by (by left). rewrite IH; [done|].
  intros t Ht. apply Hsame. by right.
Qed.

Lemma abort_controller_listeners (g : list AbortSignal) (c i : nat) (a : Value) (sg : AbortSignal) :
  g !! i = Some sg ->
  exists sg1, abort_controller g c a !! i = Some sg1 /\ listeners sg1 = listeners sg.
Proof.
  intros Hi. unfold abort_controller, Heap.
  destruct (g !! c) as [cg|] eqn:Hc; [|eauto].
  destruct (aborted cg); [eauto|].
  destruct (decide (c = i)) as [->|Hne].
  - rewrite list_lookup_insert_eq by (by eapply lookup_lt_Some).
    eexists. split; [done|]. cbn. congruence.
  - rewrite list_lookup_insert_ne by done. eauto.
Qed.

(** The loop of [anySignal]: the new controller ends up aborted with the
    reason of the first signal found aborted, no other signal changes
    state, listeners are only added, and when no signal was aborted
    every signal of the list has the controller among its listeners. *)
Lemma anySignal_loop_spec (c : nat) (signals : list nat) (g : list AbortSignal) :
  Forall (fun s => s < c) signals ->
  c < length g ->
  is_aborted g c = None ->
  let g1 := anySignal_loop c signals g in
  length g1 = length g /\
  is_aborted g1 c = stored_reason <$> first_aborted g signals /\
  (forall i, i <> c -> is_aborted g1 i = is_aborted g i) /\
  (forall i sg, g !! i = Some sg ->
     exists sg1, g1 !! i = Some sg1 /\ incl (listeners sg) (listeners sg1)) /\
  (first_aborted g signals = None ->
   forall s, In s signals ->
     exists sg, g1 !! s = Some sg /\ In c (listeners sg)).
Proof.
  revert g. induction signals as [|s signals IH]; intros g Hrange Hc Hnone; simpl;
    unfold Heap.
  - repeat split; [by rewrite Hnone | | by intros _ s []].
    intros i sg Hi. exists sg. split; [done | apply incl_refl].
  - apply Forall_cons in Hrange as [Hs Hrange].
    destruct (lookup_lt_is_Some_2 g s ltac:(lia)) as [sg Hsg]. rewrite Hsg.
    assert (Hias : is_aborted g s = if aborted sg then Some (reason sg) else None).
    { unfold is_aborted, Heap. by rewrite Hsg. }
    rewrite !Hias. clear Hias.
    destruct (aborted sg) eqn:Hab.
    + split; [apply abort_controller_length|].
      split; [by apply abort_controller_sets|].
      split; [intros i Hi; by apply abort_controller_other|].
      split; [|discriminate].
      intros i sg0 Hi.
      destruct (abort_controller_listeners g c i (reason sg) sg0 Hi) as (sg1 & ? & Hl).
      exists sg1. split; [done|]. rewrite Hl. apply incl_refl.
    + set (sg2 := {| aborted := false; reason := reason sg;
                     listeners := (listeners sg ++ [c])%list |}).
      assert (Hat : <[s := sg2]> g !! s = Some sg2).
      { apply list_lookup_insert_eq. by eapply lookup_lt_Some. }
      assert (Hsame : forall i, is_aborted (<[s := sg2]> g) i = is_aborted g i).
      { intros i. destruct (decide (s = i)) as [<-|Hne];
          [|by apply is_aborted_insert_ne].
        unfold is_aborted, Heap. rewrite Hat, Hsg. cbn. by rewrite Hab. }
      destruct (IH (<[s := sg2]> g)) as (Hlen & Hfirst & Hother & Hmono & Hlisten);
        [done | by rewrite length_insert | by rewrite Hsame |].
      rewrite length_insert in Hlen.
      rewrite (first_aborted_ext g (<[s := sg2]> g) signals) in Hfirst, Hlisten
        by (intros; apply Hsame).
      split; [done|]. split; [done|].
      split; [intros i Hi; by rewrite Hother, Hsame|].
      split.
      * intros i sg0 Hi. destruct (decide (s = i)) as [<-|Hne].
        -- destruct (Hmono s sg2 Hat) as (sg1 & Hsg1 & Hincl).
           exists sg1. split; [done|].
           assert (sg0 = sg) as -> by congruence.
           intros x Hx. apply Hincl. cbn. apply in_app_iff. by left.
        -- apply Hmono. by rewrite list_lookup_insert_ne.
      * intros Hnone2 t [<-|Ht]; [|by apply Hlisten].
        destruct (Hmono s sg2 Hat) as (sg1 & Hsg1 & Hincl).
        exists sg1. split; [done|]. apply Hincl. cbn. apply in_app_iff. right. by left.
Qed.

Lemma is_aborted_app_l (h extra : list AbortSignal) (i : nat) :
  i < length h -> is_aborted (h ++ extra) i = is_aborted h i.
Proof. intros Hi. unfold is_aborted, Heap. by rewrite lookup_app_l. Qed.

Lemma first_aborted_app_l (h extra : list AbortSignal) (signals : list nat) :
  Forall (fun s => s < length h) signals ->
  first_aborted (h ++ extra) signals = first_aborted h signals.
Proof.
  intros Hrange. apply first_aborted_ext. intros s Hs.
  apply is_aborted_app_l. by apply (proj1 (List.Forall_forall _ _) Hrange).
Qed.

Lemma anySignal_fresh (h : list AbortSignal) :
  length h < length (h ++ [fresh_signal]) /\
  is_aborted (h ++ [fresh_signal]) (length h) = None.
Proof.
  split; [rewrite length_app; simpl; lia|].
  unfold is_aborted, Heap. by rewrite list_lookup_middle.
Qed.

Lemma abort_live (g : list AbortSignal) (s : nat) (arg : Value) (sg : AbortSignal) :
  g !! s = Some sg -> aborted sg = false ->
  abort g s arg
  = fold_left (onAbort (stored_reason arg)) (listeners sg)
      (<[s := {| aborted := true; reason := stored_reason arg; listeners := [] |}]> g).
Proof. intros Hsg Hlive. unfold abort, Heap. by rewrite Hsg, Hlive. Qed.

Lemma fold_abort_keeps (later : list (nat * Value)) (g : list AbortSignal) (j : nat) (r : Value) :
  is_aborted g j = Some r ->
  is_aborted (fold_left (fun g0 ev => abort g0 (fst ev) (snd ev)) later g) j = Some r.
Proof.
  revert g. induction later as [|ev later IH]; intros g Hj; simpl; [done|].
  apply IH. by apply abort_keeps.
Qed.

End CombinedSignals.

(** X11. [anySignal] works for any number of signals. The signal it
    returns is new; it is already aborted exactly when one of the given
    signals is, with the reason of the first such signal in the order of
    the list (a new AbortError if that reason is [undefined]); the given
    signals keep their state. *)
Theorem X11_anySignal_already_aborted (signals : list nat) (h : list AbortSignal) :
  Forall (fun s => s < length h) signals ->
  fst (anySignal signals h) = length h /\
  length (snd (anySignal signals h)) = S (length h) /\
  is_aborted (snd (anySignal signals h)) (fst (anySignal signals h))
  = stored_reason <$> first_aborted h signals /\
  (forall i, i < length h ->
     is_aborted (snd (anySignal signals h)) i = is_aborted h i).
Proof.
  intros Hrange. unfold anySignal. cbn [fst snd].
  destruct (anySignal_fresh h) as [Hc Hnone].
  destruct (anySignal_loop_spec (length h) signals (h ++ [fresh_signal]) Hrange Hc Hnone)
    as (Hlen & Hfirst & Hother & _ & _).
  split; [done|].
  split; [rewrite Hlen, length_app; simpl; lia|].
  split; [by rewrite Hfirst, first_aborted_app_l|].
  intros i Hi. rewrite Hother by lia. by apply is_aborted_app_l.
Qed.

Lemma X11_anySignal_already_aborted_witness :
  let live := fresh_signal in
  let gone (r : Value) := {| aborted := true; reason := r; listeners := [] |} in
  let h := [live; gone (VError "first"); live; gone (VError "second")] in
  is_aborted (snd (anySignal [0; 3; 1; 2] h)) (fst (anySignal [0; 3; 1; 2] h))
  = Some (VError "second").
Proof.
  intros live gone h.
  destruct (X11_anySignal_already_aborted [0; 3; 1; 2] h) as (_ & _ & Hfirst & _).
  - repeat (apply Forall_cons; split; [simpl; lia|]). apply Forall_nil_2.
  - exact Hfirst.
Defined.

(** X12. When none of the signals given to [anySignal] is aborted, the
    combined signal is not aborted either; the first of the signals to
    abort afterwards aborts it with its reason (a new AbortError for a
    reason [undefined] or [null]), and no later abort of any signal
    changes that reason. *)
Theorem X12_anySignal_first_abort_wins (signals : list nat) (h : list AbortSignal) (s : nat)
    (arg : Value) (later : list (nat * Value)) :
  Forall (fun s => s < length h) signals ->
  first_aborted h signals = None ->
  In s signals ->
  let combined := fst (anySignal signals h) in
  let h1 := abort (snd (anySignal signals h)) s arg in
  let h2 := fold_left (fun g ev => abort g (fst ev) (snd ev)) later h1 in
  is_aborted (snd (anySignal signals h)) combined = None /\
  is_aborted h1 s = Some (stored_reason arg) /\
  is_aborted h1 combined = Some (stored_reason (event_reason (stored_reason arg))) /\
  is_aborted h2 combined = Some (stored_reason (event_reason (stored_reason arg))).
Proof.
  intros Hrange Hnone Hs combined h1 h2.
  subst combined h1 h2. unfold anySignal. cbn [fst snd].
  destruct (anySignal_fresh h) as [Hc Hfresh].
  destruct (anySignal_loop_spec (length h) signals (h ++ [fresh_signal]) Hrange Hc Hfresh)
    as (Hlen & Hfirst & Hother & _ & Hlisten).
  cbv zeta in Hlen, Hfirst, Hother, Hlisten.
  rewrite first_aborted_app_l in Hfirst, Hlisten by done.
  rewrite Hnone in Hfirst. cbn in Hfirst.
  set (g := anySignal_loop (length h) signals (h ++ [fresh_signal])) in *.
  assert (Hslt : s < length h) by (by apply (proj1 (List.Forall_forall _ _) Hrange)).
  destruct (Hlisten Hnone s Hs) as (sg & Hsg & Hin).
  assert (Hlive : aborted sg = false).
  { apply (is_aborted_none_lookup g s sg Hsg).
    rewrite Hother by lia. rewrite is_aborted_app_l by done.
    clear -Hnone Hs. induction signals as [|t signals IH]; [done|].
    simpl in Hnone. destruct (is_aborted h t) eqn:Ht; [done|].
    destruct Hs as [->|Hs]; [done | by apply IH]. }
  assert (Hone : is_aborted (abort g s arg) (length h)
                 = Some (stored_reason (event_reason (stored_reason arg)))).
  { rewrite (abort_live g s arg sg Hsg Hlive).
    apply fold_onAbort_reaches; [done | rewrite length_insert; lia |].
    rewrite is_aborted_insert_ne by lia. done. }
  split; [done|]. split; [|split; [done | by apply fold_abort_keeps]].
  rewrite (abort_live g s arg sg Hsg Hlive).
  apply fold_onAbort_keeps.
  rewrite is_aborted_insert_eq by (by eapply lookup_lt_Some). done.
Qed.

Lemma X12_anySignal_first_abort_wins_witness :
  let h := [fresh_signal; fresh_signal; fresh_signal] in
  let combined := fst (anySignal [0; 1; 2] h) in
  let h2 :=
    fold_left (fun g ev => abort g (fst ev) (snd ev))
      [(0, VError "timeout"); (1, VNull)]
      (abort (snd (anySignal [0; 1; 2] h)) 2 (VError "caller two")) in
  is_aborted h2 combined = Some (VError "caller two").
Proof.
  intros h combined h2.
  destruct (X12_anySignal_first_abort_wins [0; 1; 2] h 2 (VError "caller two")
              [(0, VError "timeout"); (1, VNull)]) as (_ & _ & _ & Hlater).
  - repeat (apply Forall_cons; split; [simpl; lia|]). apply Forall_nil_2.
  - reflexivity.
  - simpl. tauto.
  - exact Hlater.
Defined.

(** ** Headers *)

Section HeaderLayers.

Lemma assoc_app {V} (k : string) (a b : list (string * V)) :
  assoc k (a ++ b) = match assoc k a with Some v => Some v | None => assoc k b end.
Proof.
  induction a as [|[k' v'] a IH]; simpl; [done|].
  by destruct (String.eqb k k').
Qed.

Lemma assoc_obj_set (o : Headers) (k k' v : string) :
  assoc k (obj_set o k' v) = if String.eqb k k' then Some v else assoc k o.
Proof.
  induction o as [|[k0 v0] o IH]; simpl; [done|].
  destruct (String.eqb k' k0) eqn:Hk0; simpl.
  - apply String.eqb_eq in Hk0. subst k0. by destruct (String.eqb k k').
  - rewrite IH. destruct (String.eqb k k') eqn:Hk; [|done].
    apply String.eqb_eq in Hk. subst k'. by rewrite Hk0.
Qed.

(** Spreading [extra] into [o]: the last entry of [extra] with a name
    decides its value, and [o] decides the names that [extra] lacks. *)
Lemma assoc_obj_assign (o extra : Headers) (k : string) :
  assoc k (obj_assign o extra)
  = match assoc k (rev extra) with Some v => Some v | None => assoc k o end.
Proof.
  unfold obj_assign. revert o.
  induction extra as [|[k' v'] extra IH]; intros o; simpl; [done|].
  rewrite IH, assoc_app, assoc_obj_set. simpl.
  destruct (assoc k (rev extra)); [done|]. by destruct (String.eqb k k').
Qed.

End HeaderLayers.

(** X13. The headers of a request are layered: a header passed with the
    call wins, then a header of the configured extra headers, then the
    four headers of the client (Accept, Content-Type, the auth header,
    User-Agent); header names are compared exactly, letter case
    included. *)
Theorem X13_header_layers (c : TroccoClient) (hs : option Headers) (k : string) :
  let authHeader :=
    if String.eqb (TROCCO_AUTH_HEADER (env c)) "" then "Authorization"
    else TROCCO_AUTH_HEADER (env c) in
  let authValue :=
    if String.eqb (TROCCO_AUTH_SCHEME (env c)) "" then apiKey c
    else trim (TROCCO_AUTH_SCHEME (env c) +:+ " " +:+ apiKey c) in
  assoc k (buildHeaders c hs)
  = match assoc k (rev (default [] hs)) with
    | Some v => Some v
    | None =>
        match assoc k (rev (TROCCO_EXTRA_HEADERS (env c))) with
        | Some v => Some v
        | None =>
            assoc k (rev [("Accept", "application/json, text/plain;q=0.9, */*;q=0.8");
                          ("Content-Type", "application/json");
                          (authHeader, authValue);
                          ("User-Agent", "trocco-mcp-server/0.1.0 (+https://claude.ai)")])
        end
    end.
Proof.
  intros authHeader authValue. unfold buildHeaders.
  rewrite !assoc_obj_assign. fold authHeader authValue.
  destruct (assoc k (rev (default [] hs))); [done|].
  destruct (assoc k (rev (TROCCO_EXTRA_HEADERS (env c)))); [done|].
  by destruct (assoc k (rev _)).
Qed.

(* ================================================================== *)
(** * Further properties of the orchestrator *)
(* ================================================================== *)

Section ScanBudget.

Variable list_request : nat -> RequestArgs -> Completion ListingPage.

Lemma record_batch_consistent (s : Strategy) (lower : string) (st : Scan)
    (args : RequestArgs) (page : ListingPage) :
  consistent st -> consistent (record_batch s lower (issue st args) page).
Proof.
  intros [Hbs Hmatches]. unfold consistent. cbn.
  rewrite !length_app. cbn.
  pose proof (List.filter_length_le (batch_filter s lower) (items page)). lia.
Qed.

Lemma issue_consistent (st : Scan) (args : RequestArgs) :
  consistent st -> consistent (issue st args).
Proof. intros [Hbs Hmatches]. unfold consistent. cbn. rewrite length_app. cbn. lia. Qed.

Lemma name_contains_loop_budget (s : Strategy) (lower : string) (m : nat)
    (keys : list string) (st : Scan) :
  batchesSearched st <= m -> consistent st ->
  let st' := name_contains_loop list_request s lower m keys st in
  batchesSearched st' <= m /\ consistent st' /\
  length (requests st') <= length (requests st) + length keys.
Proof.
  revert st. induction keys as [|key keys IH]; intros st Hm Hst;
    cbn [name_contains_loop]; [cbn; unfold consistent in *; lia|].
  destruct (m <=? batchesSearched st)%nat eqn:Hbudget; [cbn; unfold consistent in *; lia|].
  apply Nat.leb_gt in Hbudget.
  destruct (list_request _ _) as [page|].
  - destruct (IH (record_batch s lower (issue st (name_contains_args key)) page))
      as (? & ? & Hreq); [cbn; lia | by apply record_batch_consistent |].
    cbn in Hreq. rewrite length_app in Hreq. cbn in *. split; [done|]. split; [done|]. lia.
  - destruct (IH (issue st (name_contains_args key)))
      as (? & ? & Hreq); [cbn; lia | by apply issue_consistent |].
    cbn in Hreq. rewrite length_app in Hreq. cbn in *. split; [done|]. split; [done|]. lia.
Qed.

Lemma exhaustive_loop_budget (fuel : nat) (lower : string) (m : nat)
    (cursor : option string) (hasMore : bool) (st : Scan) :
  batchesSearched st <= m -> consistent st ->
  length (requests st) = batchesSearched st ->
  let st' := exhaustive_loop list_request fuel lower m cursor hasMore st in
  batchesSearched st' <= m /\ consistent st' /\
  length (requests st') <= m /\
  length (requests st') <= S (batchesSearched st').
Proof.
  revert cursor hasMore st. induction fuel as [|fuel IH]; intros cursor hasMore st Hm Hst Hseq;
    cbn [exhaustive_loop]; [cbn; unfold consistent in *; lia|].
  destruct (batchesSearched st <? m)%nat eqn:Hbudget;
    [|rewrite andb_false_r; cbn; unfold consistent in *; lia].
  apply Nat.ltb_lt in Hbudget.
  destruct hasMore; cbn [andb]; [|cbn; unfold consistent in *; lia].
  destruct (list_request _ _) as [page|].
  - apply IH; [cbn; lia | by apply record_batch_consistent |].
    cbn. rewrite length_app. cbn. lia.
  - cbn. rewrite length_app. cbn.
    split; [lia|]. split; [by apply issue_consistent|]. lia.
Qed.

Lemma recent_loop_budget (left : nat) (lower : string) (m : nat) (st : Scan) :
  batchesSearched st + left <= m -> consistent st ->
  length (requests st) = batchesSearched st ->
  let st' := recent_loop list_request left lower st in
  batchesSearched st' <= m /\ consistent st' /\
  length (requests st') <= m /\
  length (requests st') <= S (batchesSearched st').
Proof.
  revert st. induction left as [|left IH]; intros st Hm Hst Hseq;
    cbn [recent_loop]; [cbn; unfold consistent in *; lia|].
  destruct (list_request _ _) as [page|].
  - pose proof (record_batch_consistent recent_first lower st
                  (list_args [("limit", num 100)]) page Hst) as Hnext.
    destruct (length (items page) =? 0)%nat.
    + cbn. rewrite length_app. cbn. split; [lia|]. split; [exact Hnext|]. lia.
    + apply IH; [cbn; lia | done |]. cbn. rewrite length_app. cbn. lia.
  - cbn. rewrite length_app. cbn.
    split; [lia|]. split; [by apply issue_consistent|]. lia.
Qed.

Lemma start_consistent : consistent start.
Proof. split; cbn; lia. Qed.

End ScanBudget.

(** X14. Whatever the listing answers, a scan never counts more batches
    than [maxBatches], nor more batches than it issued requests, and it
    never holds more matches than it scanned records; the result
    reports these counters and at most as many matches as the
    accumulator held. *)
Theorem X14_scan_budget (list_request : nat -> RequestArgs -> Completion ListingPage)
    (detail_request : nat -> RequestArgs -> Completion (option Json))
    (TROCCO_BASE_URL searchTerm : string) (strategy : Strategy) (maxBatches : nat) :
  let st := scan list_request searchTerm strategy maxBatches in
  let result :=
    structuredContent
      (trocco_batch_search list_request detail_request TROCCO_BASE_URL
         searchTerm strategy maxBatches) in
  batchesSearched st <= maxBatches /\
  batchesSearched st <= length (requests st) /\
  length (allMatches st) <= totalScanned st /\
  res_batchesSearched result = batchesSearched st /\
  res_totalScanned result = totalScanned st /\
  length (matches result) <= length (allMatches st) /\
  length (matches result) <= res_totalScanned result.
Proof.
  intros st result.
  assert (Hst : batchesSearched st <= maxBatches /\ consistent st).
  { subst st. unfold scan. destruct strategy.
    - destruct (exhaustive_loop_budget list_request maxBatches (toLowerCase searchTerm)
                  maxBatches None true start) as (? & ? & _);
        [cbn; lia | apply start_consistent | done | done].
    - destruct (name_contains_loop_budget list_request keyword_chunks
                  (toLowerCase searchTerm) maxBatches (Set_of (chunks searchTerm)) start)
        as (? & ? & _); [cbn; lia | apply start_consistent | done].
    - destruct (name_contains_loop_budget list_request alphabet_sweep
                  (toLowerCase searchTerm) maxBatches letters start)
        as (? & ? & _); [cbn; lia | apply start_consistent | done].
    - destruct (recent_loop_budget list_request maxBatches (toLowerCase searchTerm)
                  maxBatches start) as (? & ? & _);
        [cbn; lia | apply start_consistent | done | done]. }
  destruct Hst as (Hm & Hreq & Hmatches).
  assert (Hunique : length (uniqueMatches (allMatches st)) <= length (allMatches st)).
  { rewrite uniqueMatches_first_occurrences.
    apply sublist_length, first_occurrences_seen_sublist. }
  subst result. cbn. fold st. rewrite length_map.
  repeat split; first [done | lia].
Qed.


Section CursorChain.

Variable list_request : nat -> RequestArgs -> Completion ListingPage.

Lemma after_pages_fields (lower : string) (pages : list ListingPage)
    (cursor : option string) (st : Scan) :
  let st' := after_pages lower cursor pages st in
  batchesSearched st' = batchesSearched st + length pages /\
  totalScanned st' = totalScanned st + list_sum (List.map (fun p => length (items p)) pages) /\
  allMatches st'
  = allMatches st ++
    flat_map (fun p => List.filter (matches_name_or_description lower) (items p)) pages /\
  requests st' = requests st ++ List.map exhaustive_args (cursors_sent cursor pages).
Proof.
  revert cursor st. induction pages as [|page pages IH]; intros cursor st; cbn.
  - rewrite !app_nil_r. repeat split; lia.
  - destruct (IH (next_cursor page)
                (record_batch exhaustive_scan lower (issue st (exhaustive_args cursor)) page))
      as (Hbs & Hts & Hmatches & Hreq).
    cbn in Hbs, Hts, Hmatches, Hreq.
    rewrite Hbs, Hts, Hmatches, Hreq, <- !app_assoc. cbn.
    unfold list_sum. repeat split; first [done | lia].
Qed.

(** Along a chain of pages the [while] loop does what [after_pages]
    describes, and then stops. *)
Lemma exhaustive_loop_chain (lower : string) (m : nat) (pages : list ListingPage) :
  forall (fuel : nat) (cursor : option string) (hasMore : bool) (st : Scan),
    cursor_chain list_request (length (requests st)) cursor pages ->
    (pages <> [] -> hasMore = true) ->
    (pages = [] -> hasMore = false \/ m <= batchesSearched st) ->
    batchesSearched st + length pages <= m ->
    length pages <= fuel ->
    (pages <> [] ->
     batchesSearched st + length pages = m \/
     exists page, last pages = Some page /\ cursor_truthy (next_cursor page) = false) ->
    exhaustive_loop list_request fuel lower m cursor hasMore st
    = after_pages lower cursor pages st.
Proof.
  induction pages as [|page rest IH];
    intros fuel cursor hasMore st Hchain Hmore Hstop Hbudget Hfuel Hend.
  - cbn. destruct fuel as [|fuel]; [done|]. cbn [exhaustive_loop].
    destruct (Hstop eq_refl) as [->|Hfull]; [done|].
    replace (batchesSearched st <? m)%nat with false; [by rewrite andb_false_r|].
    symmetry. apply Nat.ltb_ge. done.
  - cbn in Hbudget, Hfuel. destruct fuel as [|fuel]; [lia|].
    cbn [exhaustive_loop after_pages].
    rewrite Hmore by done.
    replace (batchesSearched st <? m)%nat with true
      by (symmetry; apply Nat.ltb_lt; lia).
    cbn [andb]. destruct Hchain as (Hpage & Hnext & Hchain).
    change (list_args (("limit", num 100) ::
              (if cursor_truthy cursor then [("cursor", str (or_empty cursor))] else [])))
      with (exhaustive_args cursor).
    rewrite Hpage.
    apply IH.
    + cbn. rewrite length_app. cbn. by rewrite Nat.add_1_r.
    + exact Hnext.
    + intros ->. destruct Hend as [Hfull|(last_page & Hlast & Hfalsy)]; [done | |].
      * right. cbn in *. lia.
      * left. cbn in Hlast. by injection Hlast as <-.
    + cbn. lia.
    + lia.
    + intros Hrest. destruct Hend as [Hfull|(last_page & Hlast & Hfalsy)]; [done | |].
      * left. cbn in *. lia.
      * right. exists last_page. split; [|done].
        destruct rest; [done | exact Hlast].
Qed.

End CursorChain.

(** X16. When the listing serves a chain of pages, each reached with the
    cursor of the page before it and starting without a cursor, and the
    chain either ends with a page without a next cursor or has exactly
    [maxBatches] pages, [exhaustive_scan] reads exactly these pages: one
    request per page with the cursors of the chain, one batch per page,
    all their records scanned, and the matches of every page in order. *)
Theorem X16_exhaustive_scan_follows_cursors
    (list_request : nat -> RequestArgs -> Completion ListingPage)
    (searchTerm : string) (maxBatches : nat) (pages : list ListingPage) :
  pages <> [] ->
  cursor_chain list_request 0 None pages ->
  length pages <= maxBatches ->
  (length pages = maxBatches \/
   exists page, last pages = Some page /\ cursor_truthy (next_cursor page) = false) ->
  let st := scan list_request searchTerm exhaustive_scan maxBatches in
  batchesSearched st = length pages /\
  totalScanned st = list_sum (List.map (fun p => length (items p)) pages) /\
  allMatches st
  = flat_map (fun p => List.filter
                         (matches_name_or_description (toLowerCase searchTerm))
                         (items p)) pages /\
  requests st = List.map exhaustive_args (cursors_sent None pages).
Proof.
  intros Hpages Hchain Hlen Hend st. subst st. unfold scan.
  assert (Hloop : exhaustive_loop list_request maxBatches (toLowerCase searchTerm)
                    maxBatches None true start
                  = after_pages (toLowerCase searchTerm) None pages start).
  { apply exhaustive_loop_chain.
    - exact Hchain.
    - done.
    - done.
    - cbn. lia.
    - lia.
    - intros _. destruct Hend as [Hfull|Hlast]; [left; cbn; lia | by right]. }
  rewrite Hloop.
  destruct (after_pages_fields (toLowerCase searchTerm) pages None start)
    as (Hbs & Hts & Hmatches & Hreq).
  by rewrite Hbs, Hts, Hmatches, Hreq.
Qed.

Lemma X16_exhaustive_scan_follows_cursors_witness :
  let job (n : Z) (title : string) :=
    {| id := IdNum n; name := Some title; description := None;
       input_option_type := None; output_option_type := None; created_by := None |} in
  let first := {| items := [job 1%Z "sales eu"; job 2%Z "hr"]; next_cursor := Some "p2" |} in
  let second := {| items := [job 3%Z "Sales us"]; next_cursor := None |} in
  let remote : nat -> RequestArgs -> Completion ListingPage :=
    fun n _ => if (n =? 0)%nat then Returned first else Returned second in
  let st := scan remote "sales" exhaustive_scan 10 in
  batchesSearched st = 2 /\ totalScanned st = 3 /\
  allMatches st = [job 1%Z "sales eu"; job 3%Z "Sales us"].
Proof.
  intros job first second remote st.
  destruct (X16_exhaustive_scan_follows_cursors remote "sales" 10 [first; second])
    as (Hbs & Hts & Hmatches & _).
  - discriminate.
  - cbn. repeat split; done.
  - cbn. lia.
  - right. exists second. by split.
  - split; [exact Hbs | split; [exact Hts | exact Hmatches]].
Defined.

Section RecentFirst.

Variable list_request : nat -> RequestArgs -> Completion ListingPage.

Lemma first_occurrences_seen_app (seen : list JobId) (a b : list JobRecord) :
  first_occurrences_seen seen (a ++ b)
  = first_occurrences_seen seen a ++ first_occurrences_seen (seen ++ List.map id a) b.
Proof.
  revert seen. induction a as [|x a IH]; intros seen; cbn.
  - by rewrite app_nil_r.
  - rewrite IH, <- app_assoc. cbn. by destruct (existsb _ seen).
Qed.

Lemma first_occurrences_seen_all_seen (seen : list JobId) (b : list JobRecord) :
  (forall x, In x b -> In (id x) seen) -> first_occurrences_seen seen b = [].
Proof.
  revert seen. induction b as [|x b IH]; intros seen Hseen; cbn; [done|].
  assert (Hx : existsb (fun s => JobId_eqb s (id x)) seen = true).
  { apply seen_spec, list_elem_of_In, Hseen. by left. }
  rewrite Hx. apply IH. intros y Hy. apply in_app_iff. left. apply Hseen. by right.
Qed.

(** Deduplication sees nothing new in further copies of a batch. *)
Lemma uniqueMatches_copies (batch : list JobRecord) (n : nat) :
  uniqueMatches (batch ++ concat (replicate n batch)) = uniqueMatches batch.
Proof.
  rewrite !uniqueMatches_first_occurrences. unfold first_occurrences.
  rewrite first_occurrences_seen_app.
  rewrite (first_occurrences_seen_all_seen ([] ++ List.map id batch)
             (concat (replicate n batch))); [by rewrite app_nil_r|].
  intros x Hx. cbn. apply in_map.
  induction n as [|n IH]; cbn in Hx; [done|].
  apply in_app_iff in Hx as [?|?]; [done | by apply IH].
Qed.

Lemma recent_loop_same_page (left : nat) (lower : string) (page : ListingPage) (st : Scan) :
  (forall n, list_request n (list_args [("limit", num 100)]) = Returned page) ->
  items page <> [] ->
  let st' := recent_loop list_request left lower st in
  batchesSearched st' = batchesSearched st + left /\
  totalScanned st' = totalScanned st + left * length (items page) /\
  requests st' = requests st ++ replicate left (list_args [("limit", num 100)]) /\
  allMatches st'
  = allMatches st ++
    concat (replicate left (List.filter (matches_name_or_description lower) (items page))).
Proof.
  intros Hsame Hitems. revert st.
  induction left as [|left IH]; intros st; cbn [recent_loop].
  - cbn. rewrite !app_nil_r. repeat split; lia.
  - rewrite Hsame.
    destruct (length (items page) =? 0)%nat eqn:Hempty.
    { apply Nat.eqb_eq in Hempty. by destruct (items page). }
    destruct (IH (record_batch recent_first lower
                    (issue st (list_args [("limit", num 100)])) page))
      as (Hbs & Hts & Hreq & Hmatches).
    cbv zeta. rewrite Hbs, Hts, Hreq, Hmatches. cbn.
    rewrite <- !app_assoc. cbn. repeat split; lia.
Qed.

End RecentFirst.

(** X17. [recent_first] sends the same query, without cursor or offset,
    for every batch. Against a listing that answers this query with the
    same non-empty page each time, it spends the whole budget on that
    page: [maxBatches] batches, [maxBatches] times the records of the
    page scanned, and after deduplication the matches of the one page. *)
Theorem X17_recent_first_rescans_one_page
    (list_request : nat -> RequestArgs -> Completion ListingPage)
    (searchTerm : string) (maxBatches : nat) (page : ListingPage) :
  (forall n, list_request n (list_args [("limit", num 100)]) = Returned page) ->
  items page <> [] ->
  1 <= maxBatches ->
  let st := scan list_request searchTerm recent_first maxBatches in
  batchesSearched st = maxBatches /\
  totalScanned st = maxBatches * length (items page) /\
  requests st = replicate maxBatches (list_args [("limit", num 100)]) /\
  uniqueMatches (allMatches st)
  = uniqueMatches
      (List.filter (matches_name_or_description (toLowerCase searchTerm)) (items page)).
Proof.
  intros Hsame Hitems Hbudget st. subst st. unfold scan.
  destruct (recent_loop_same_page list_request maxBatches (toLowerCase searchTerm)
              page start Hsame Hitems) as (Hbs & Hts & Hreq & Hmatches).
  rewrite Hbs, Hts, Hreq, Hmatches. cbn.
  split; [done|]. split; [done|]. split; [done|].
  destruct maxBatches as [|n]; [lia|]. cbn. apply uniqueMatches_copies.
Qed.

Lemma X17_recent_first_rescans_one_page_witness :
  let job (n : Z) (title : string) :=
    {| id := IdNum n; name := Some title; description := None;
       input_option_type := None; output_option_type := None; created_by := None |} in
  let page := {| items := [job 1%Z "sales eu"; job 2%Z "hr"]; next_cursor := Some "p2" |} in
  let remote : nat -> RequestArgs -> Completion ListingPage := fun _ _ => Returned page in
  let st := scan remote "sales" recent_first 3 in
  totalScanned st = 6 /\ uniqueMatches (allMatches st) = [job 1%Z "sales eu"].
Proof.
  intros job page remote st.
  destruct (X17_recent_first_rescans_one_page remote "sales" 3 page)
    as (_ & Hts & _ & Hunique); [done | discriminate | lia |].
  split; [exact Hts | exact Hunique].
Defined.

(* ================================================================== *)
(** * Properties of the configuration *)
(* ================================================================== *)

Section Suffixes.

Lemma length_zero_empty (s : string) : String.length s = 0 -> s = "".
Proof. by destruct s. Qed.

Lemma endsWith_append (a p : string) : endsWith (a +:+ p) p = true.
Proof.
  unfold endsWith. rewrite length_append.
  replace (String.length p <=? String.length a + String.length p)%nat with true
    by (symmetry; apply Nat.leb_le; lia).
  replace (String.length a + String.length p - String.length p) with (String.length a)
    by lia.
  pose proof (substring_middle a p "") as Hmid. rewrite append_empty_r in Hmid.
  rewrite Hmid. cbn. apply String.eqb_refl.
Qed.

Lemma endsWith_spec (s p : string) :
  endsWith s p = true <-> exists a, s = a +:+ p.
Proof.
  split; [|intros (a & ->); apply endsWith_append].
  unfold endsWith. intros (Hlen%Nat.leb_le & Heq%String.eqb_eq)%andb_true_iff.
  destruct (substring_split (String.length s - String.length p) (String.length p) s)
    as (pre & post & Hs & Hpre & Hsub); [lia|].
  rewrite Heq in Hs. exists pre.
  assert (Hpost : String.length post = 0).
  { apply (f_equal String.length) in Hs. rewrite !length_append in Hs. lia. }
  apply length_zero_empty in Hpost. subst post. by rewrite append_empty_r in Hs.
Qed.

Lemma prefix_of_append (a s : string) :
  String.substring 0 (String.length a) (a +:+ s) = a.
Proof. exact (substring_middle "" a s). Qed.

(** Two ways to split one string at the same distance from its end
    agree. *)
Lemma append_inj (a b x y : string) :
  String.length x = String.length y -> a +:+ x = b +:+ y -> a = b /\ x = y.
Proof.
  revert b. induction a as [|c a IH]; intros b Hlen Heq.
  - destruct b as [|d b]; [done|].
    apply (f_equal String.length) in Heq. rewrite !length_append in Heq. cbn in Heq. lia.
  - destruct b as [|d b].
    + apply (f_equal String.length) in Heq. rewrite !length_append in Heq. cbn in Heq. lia.
    + rewrite !append_cons in Heq. injection Heq as -> Heq.
      destruct (IH b Hlen Heq) as [-> ->]. done.
Qed.

Lemma endsWith_slash_not_api (s : string) :
  endsWith s "/" = true -> endsWith s "/api" = false.
Proof.
  intros (a & Ha)%endsWith_spec.
  destruct (endsWith s "/api") eqn:Hapi; [|done].
  apply endsWith_spec in Hapi as (b & Hb).
  rewrite Ha in Hb.
  change (b +:+ "/api") with (b +:+ ("/ap" +:+ "i")) in Hb.
  rewrite <- append_assoc in Hb.
  by destruct (append_inj a (b +:+ "/ap") "/" "i" eq_refl Hb) as [_ ?].
Qed.

End Suffixes.

Section Trimming.

Lemma trimEnd_idempotent (s : string) : trimEnd (trimEnd s) = trimEnd s.
Proof.
  induction s as [|c s IH]; [done|]. cbn [trimEnd].
  destruct (trimEnd s) as [|d t] eqn:Ht.
  - destruct (is_space c) eqn:Hc; [done|]. cbn. by rewrite Hc.
  - cbn [trimEnd]. cbn [trimEnd] in IH. by rewrite IH.
Qed.

Lemma trimEnd_head (c : ascii) (s : string) :
  is_space c = false -> exists t, trimEnd (String c s) = String c t.
Proof.
  intros Hc. cbn [trimEnd]. destruct (trimEnd s); [rewrite Hc|]; eauto.
Qed.

Lemma trimStart_head (s : string) :
  trimStart s = "" \/ exists c t, trimStart s = String c t /\ is_space c = false.
Proof.
  induction s as [|c s IH]; [by left|]. cbn.
  destruct (is_space c) eqn:Hc; [done|]. right. eauto.
Qed.

Lemma trim_idempotent (s : string) : trim (trim s) = trim s.
Proof.
  unfold trim. destruct (trimStart_head s) as [->|(c & t & -> & Hc)]; [done|].
  destruct (trimEnd_head c t Hc) as (t' & Ht). rewrite Ht. cbn [trimStart].
  rewrite Hc, <- Ht. apply trimEnd_idempotent.
Qed.

End Trimming.

Lemma TROCCO_BASE_URL_set (env : Environment.ProcessEnv) (raw : string) :
  env "TROCCO_BASE_URL" = Some raw ->
  Environment.TROCCO_BASE_URL env = if endsWith raw "/" then raw else raw +:+ "/".
Proof. intros Hraw. unfold Environment.TROCCO_BASE_URL. by rewrite Hraw. Qed.

(** X18. The base URL read from the environment always ends with a
    slash: it is the variable itself when that ends with a slash, the
    variable followed by a slash otherwise, and the default when the
    variable is not set. It is never empty, so a client built with it and
    with a key never fails for a missing base URL. *)
Theorem X18_base_url_ends_with_slash (env : Environment.ProcessEnv) :
  let base := Environment.TROCCO_BASE_URL env in
  endsWith base "/" = true /\
  base <> "" /\
  (env "TROCCO_BASE_URL" = None -> base = "https://trocco.io/") /\
  (forall raw, env "TROCCO_BASE_URL" = Some raw ->
     (endsWith raw "/" = true /\ base = raw) \/
     (endsWith raw "/" = false /\ base = raw +:+ "/")) /\
  (forall e key timeoutMs, key <> "" ->
     TroccoClient_new e base key timeoutMs true
     = Ok {| baseUrl := base; apiKey := key; client_timeoutMs := timeoutMs; env := e |}).
Proof.
  intros base.
  assert (Hslash : endsWith base "/" = true).
  { subst base. unfold Environment.TROCCO_BASE_URL.
    destruct (endsWith (default _ _) "/") eqn:Hends; [done | apply endsWith_append]. }
  assert (Hne : base <> "") by (intros Hempty; by rewrite Hempty in Hslash).
  split; [done|]. split; [done|]. split; [|split].
  - intros Hunset. subst base. unfold Environment.TROCCO_BASE_URL. by rewrite Hunset.
  - intros raw Hraw. subst base. unfold Environment.TROCCO_BASE_URL. rewrite Hraw. cbn.
    destruct (endsWith raw "/"); eauto.
  - intros e key timeoutMs Hkey. unfold TroccoClient_new.
    apply String.eqb_neq in Hne, Hkey. by rewrite Hne, Hkey.
Qed.

Lemma X18_base_url_ends_with_slash_witness :
  Environment.TROCCO_BASE_URL
    (fun v => if String.eqb v "TROCCO_BASE_URL" then Some "https://acme.trocco.io/api" else None)
  = "https://acme.trocco.io/api/".
Proof.
  destruct (X18_base_url_ends_with_slash
              (fun v => if String.eqb v "TROCCO_BASE_URL"
                        then Some "https://acme.trocco.io/api" else None))
    as (_ & _ & _ & Hset & _).
  destruct (Hset "https://acme.trocco.io/api" eq_refl) as [[Hends _] | [_ Hbase]];
    [discriminate Hends | exact Hbase].
Defined.

(** X19. The link to a job definition: when the configured base URL is a
    prefix followed by /api, with or without a final slash, the link is
    that prefix followed by /job_definitions/ and the id. For any other
    base URL nothing is stripped, and since the base URL ends with a
    slash the link has two slashes before job_definitions. *)
Theorem X19_job_definition_link (env : Environment.ProcessEnv) (jobId : Search.JobId) :
  let base := Environment.TROCCO_BASE_URL env in
  let link := generateJobDefinitionUrl base jobId in
  (forall site,
     env "TROCCO_BASE_URL" = Some (site +:+ "/api") \/
     env "TROCCO_BASE_URL" = Some (site +:+ "/api/") ->
     link = site +:+ "/job_definitions/" +:+ JobId_to_string jobId) /\
  (endsWith base "/api/" = false ->
   link = base +:+ "/job_definitions/" +:+ JobId_to_string jobId /\
   exists site, base = site +:+ "/").
Proof.
  intros base link. split.
  - intros site Hraw.
    assert (Hbase : base = site +:+ "/api/").
    { subst base. destruct Hraw as [Hraw|Hraw];
        rewrite (TROCCO_BASE_URL_set env _ Hraw).
      - destruct (endsWith (site +:+ "/api") "/") eqn:Hends.
        + apply endsWith_spec in Hends as (a & Ha).
          change (site +:+ "/api") with (site +:+ ("/ap" +:+ "i")) in Ha.
          rewrite <- append_assoc in Ha.
          by destruct (append_inj (site +:+ "/ap") a "i" "/" eq_refl Ha) as [_ ?].
        + by rewrite append_assoc.
      - change (site +:+ "/api/") with (site +:+ ("/api" +:+ "/")).
        rewrite <- append_assoc. by rewrite endsWith_append. }
    subst link. unfold generateJobDefinitionUrl, webBaseUrl. rewrite Hbase.
    rewrite endsWith_append, length_append. cbn [String.length].
    replace (String.length site + 5 - 5) with (String.length site) by lia.
    by rewrite prefix_of_append.
  - intros Hapi.
    assert (Hslash : endsWith base "/" = true).
    { subst base. unfold Environment.TROCCO_BASE_URL.
      destruct (endsWith (default _ _) "/") eqn:Hends; [done | apply endsWith_append]. }
    split; [|by apply endsWith_spec].
    subst link. unfold generateJobDefinitionUrl, webBaseUrl.
    by rewrite Hapi, (endsWith_slash_not_api base Hslash).
Qed.

Lemma X19_job_definition_link_witness :
  let env : Environment.ProcessEnv :=
    fun v => if String.eqb v "TROCCO_BASE_URL" then Some "https://acme.trocco.io/api" else None in
  generateJobDefinitionUrl (Environment.TROCCO_BASE_URL env) (IdNum 42)
  = "https://acme.trocco.io/job_definitions/42" /\
  generateJobDefinitionUrl (Environment.TROCCO_BASE_URL (fun _ => None)) (IdNum 42)
  = "https://trocco.io//job_definitions/42".
Proof.
  intros env. split.
  - destruct (X19_job_definition_link env (IdNum 42)) as [Hsite _].
    exact (Hsite "https://acme.trocco.io" (or_introl eq_refl)).
  - destruct (X19_job_definition_link (fun _ => None) (IdNum 42)) as [_ Hother].
    destruct (Hother eq_refl) as [Hlink _]. exact Hlink.
Defined.

(** X20. The API key is taken from TROCCO_API_KEY, and from TROCCO_TOKEN
    only when TROCCO_API_KEY is not set at all; loading fails when the
    variable taken is empty or blank, also when it is a blank
    TROCCO_API_KEY beside a usable TROCCO_TOKEN. A key that loads is the
    variable without its surrounding white space: it is not empty and
    trimming it again changes nothing. *)
Theorem X20_api_key (env : Environment.ProcessEnv) :
  (forall key, Environment.TROCCO_API_KEY env = Ok key ->
     key <> "" /\ trim key = key /\
     exists raw, Environment.rawApiKey env = Some raw /\ key = trim raw) /\
  (forall raw, env "TROCCO_API_KEY" = Some raw ->
     Environment.TROCCO_API_KEY env
     = if String.eqb (trim raw) "" then Raise (Error Environment.missing_key)
       else Ok (trim raw)) /\
  (env "TROCCO_API_KEY" = None ->
   Environment.TROCCO_API_KEY env
   = match env "TROCCO_TOKEN" with
     | None => Raise (Error Environment.missing_key)
     | Some raw =>
         if String.eqb (trim raw) "" then Raise (Error Environment.missing_key)
         else Ok (trim raw)
     end).
Proof.
  assert (Hblank : forall raw,
            (if String.eqb raw "" || String.eqb (trim raw) ""
             then Raise (Error Environment.missing_key) else Ok (trim raw))
            = if String.eqb (trim raw) "" then Raise (Error Environment.missing_key)
              else Ok (trim raw)).
  { intros raw. destruct (String.eqb raw "") eqn:Hraw; [|done].
    apply String.eqb_eq in Hraw. by subst raw. }
  split; [|split].
  - intros key. unfold Environment.TROCCO_API_KEY.
    destruct (Environment.rawApiKey env) as [raw|]; [|discriminate].
    rewrite Hblank. destruct (String.eqb (trim raw) "") eqn:Htrim; [discriminate|].
    intros [= <-]. apply String.eqb_neq in Htrim.
    split; [done|]. split; [apply trim_idempotent | eauto].
  - intros raw Hraw. unfold Environment.TROCCO_API_KEY, Environment.rawApiKey.
    rewrite Hraw. apply Hblank.
  - intros Hunset. unfold Environment.TROCCO_API_KEY, Environment.rawApiKey.
    rewrite Hunset. destruct (env "TROCCO_TOKEN") as [raw|]; [apply Hblank | done].
Qed.

Lemma X20_api_key_witness :
  let env : Environment.ProcessEnv :=
    fun v => if String.eqb v "TROCCO_API_KEY" then Some "  "
             else if String.eqb v "TROCCO_TOKEN" then Some " abc " else None in
  Environment.TROCCO_API_KEY env = Raise (Error Environment.missing_key) /\
  Environment.TROCCO_API_KEY
    (fun v => if String.eqb v "TROCCO_TOKEN" then Some " abc " else None)
  = Ok "abc".
Proof.
  intros env. split.
  - destruct (X20_api_key env) as (_ & Hset & _). exact (Hset "  " eq_refl).
  - destruct (X20_api_key
                (fun v => if String.eqb v "TROCCO_TOKEN" then Some " abc " else None))
      as (_ & _ & Hunset). exact (Hunset eq_refl).
Defined.

(* ================================================================== *)
(** * Properties of the enrichment *)
(* ================================================================== *)

Section Connectors.

Lemma is_string_functional (v : option Json) (a b : string) :
  is_string v a = true -> is_string v b = true -> a = b.
Proof.
  destruct v as [[| | |t| |]|]; cbn; try discriminate.
  intros ->%String.eqb_eq ->%String.eqb_eq. done.
Qed.

Lemma s3_config_is_Some (nested : string) (option_ : option Json) :
  s3_config nested option_
  = if truthy (get nested option_) then Some (s3_summary (get nested option_))
    else if truthy (get "bucket" option_) then Some (s3_summary option_)
    else None.
Proof.
  unfold s3_config. destruct (truthy (get nested option_)) eqn:Hnested; [by rewrite Hnested|].
  destruct (truthy (get "bucket" option_)) eqn:Hbucket; [|done].
  assert (truthy option_ = true) as ->; [|done].
  destruct option_ as [[| | | | |]|]; done.
Qed.

Lemma get_falsy (k : string) (v : option Json) : truthy v = false -> get k v = None.
Proof. destruct v as [[| | | | |]|]; done. Qed.

End Connectors.

(** X21. The details of a job definition give at most one input summary
    and at most one output summary, chosen by the two connector types;
    when neither type is one of the connectors known (s3 or snowflake for
    the input; s3, snowflake or bigquery for the output), and so also
    when the details are not an object, nothing is extracted. *)
Theorem X21_one_summary_per_side (details : option Json) :
  let config := extractConfigDetails details in
  let input_type := get "input_option_type" details in
  let output_type := get "output_option_type" details in
  ~ (is_Some (input_s3 config) /\ is_Some (input_snowflake config)) /\
  ~ (is_Some (output_s3 config) /\ is_Some (output_snowflake config)) /\
  ~ (is_Some (output_s3 config) /\ is_Some (output_bigquery config)) /\
  ~ (is_Some (output_snowflake config) /\ is_Some (output_bigquery config)) /\
  (is_string input_type "s3" = false -> is_string input_type "snowflake" = false ->
   is_string output_type "s3" = false -> is_string output_type "snowflake" = false ->
   is_string output_type "bigquery" = false ->
   config = empty_config) /\
  (forall v, details = Some v -> (forall fields, v <> JObj fields) -> config = empty_config) /\
  extractConfigDetails None = empty_config.
Proof.
  intros config input_type output_type. subst config. unfold extractConfigDetails.
  fold input_type output_type. cbn [input_s3 input_snowflake output_s3 output_snowflake
                                      output_bigquery].
  assert (Hexcl : forall v a b, a <> b -> is_string v a = true -> is_string v b = true -> False).
  { intros v a b Hne Ha Hb. apply Hne. by apply (is_string_functional v). }
  repeat split.
  - intros [[x Hx] [y Hy]].
    destruct (is_string input_type "s3") eqn:Hs3; [|done].
    destruct (is_string input_type "snowflake") eqn:Hsf; [|done].
    by apply (Hexcl input_type "s3" "snowflake").
  - intros [[x Hx] [y Hy]].
    destruct (is_string output_type "s3") eqn:Hs3; [|done].
    destruct (is_string output_type "snowflake") eqn:Hsf; [|done].
    by apply (Hexcl output_type "s3" "snowflake").
  - intros [[x Hx] [y Hy]].
    destruct (is_string output_type "s3") eqn:Hs3; [|done].
    destruct (is_string output_type "bigquery") eqn:Hbq; [|done].
    by apply (Hexcl output_type "s3" "bigquery").
  - intros [[x Hx] [y Hy]].
    destruct (is_string output_type "snowflake") eqn:Hsf; [|done].
    destruct (is_string output_type "bigquery") eqn:Hbq; [|done].
    by apply (Hexcl output_type "snowflake" "bigquery").
  - by intros -> -> -> -> ->.
  - intros v -> Hv. subst input_type output_type.
    destruct v as [| | | | |fields]; try done. by destruct (Hv fields).
Qed.

Lemma X21_one_summary_per_side_witness :
  extractConfigDetails
    (Some (JObj [("input_option_type", JStr "mysql");
                 ("input_option", JObj [("bucket", JStr "lake")]);
                 ("output_option_type", JStr "redshift")]))
  = empty_config.
Proof.
  destruct (X21_one_summary_per_side
              (Some (JObj [("input_option_type", JStr "mysql");
                           ("input_option", JObj [("bucket", JStr "lake")]);
                           ("output_option_type", JStr "redshift")])))
    as (_ & _ & _ & _ & Hunknown & _).
  apply Hunknown; reflexivity.
Defined.

(** X22. For an S3 connector the summary is read from the nested option
    object when that is present, else from the option object itself when
    it has a bucket, else there is no summary; the test that the option
    object exists adds nothing to these two. The prefix of a summary is
    the first usable value among path_prefix, prefix and key_prefix, and
    the empty string when there is none: it is never missing. *)
Theorem X22_s3_layouts (details : option Json) :
  let input_option := get "input_option" details in
  let output_option := get "output_option" details in
  (is_string (get "input_option_type" details) "s3" = true ->
   input_s3 (extractConfigDetails details)
   = if truthy (get "s3_input_option" input_option)
     then Some (s3_summary (get "s3_input_option" input_option))
     else if truthy (get "bucket" input_option) then Some (s3_summary input_option)
     else None) /\
  (is_string (get "output_option_type" details) "s3" = true ->
   output_s3 (extractConfigDetails details)
   = if truthy (get "s3_output_option" output_option)
     then Some (s3_summary (get "s3_output_option" output_option))
     else if truthy (get "bucket" output_option) then Some (s3_summary output_option)
     else None) /\
  (forall s3Config,
     let summary := s3_summary s3Config in
     bucket summary = get "bucket" s3Config /\
     (prefix summary = Some (JStr "") \/ truthy (prefix summary) = true) /\
     (truthy (get "path_prefix" s3Config) = true ->
      prefix summary = get "path_prefix" s3Config) /\
     (truthy (get "path_prefix" s3Config) = false ->
      truthy (get "prefix" s3Config) = true ->
      prefix summary = get "prefix" s3Config) /\
     (truthy (get "path_prefix" s3Config) = false ->
      truthy (get "prefix" s3Config) = false ->
      truthy (get "key_prefix" s3Config) = true ->
      prefix summary = get "key_prefix" s3Config)).
Proof.
  intros input_option output_option.
  assert (Hside : forall nested option_,
            (if truthy option_ then s3_config nested option_ else None)
            = if truthy (get nested option_) then Some (s3_summary (get nested option_))
              else if truthy (get "bucket" option_) then Some (s3_summary option_)
              else None).
  { intros nested option_. destruct (truthy option_) eqn:Hopt; [apply s3_config_is_Some|].
    by rewrite !(get_falsy _ option_ Hopt). }
  split; [|split].
  - intros Htype. unfold extractConfigDetails. cbn [input_s3]. fold input_option.
    rewrite Htype. cbn [andb]. apply Hside.
  - intros Htype. unfold extractConfigDetails. cbn [output_s3]. fold output_option.
    rewrite Htype. cbn [andb]. apply Hside.
  - intros s3Config summary. subst summary. unfold s3_summary, or_else. cbn [bucket prefix].
    split; [done|].
    destruct (truthy (get "path_prefix" s3Config)) eqn:Hpath; rewrite ?Hpath.
    { repeat split; try done. by right. }
    destruct (truthy (get "prefix" s3Config)) eqn:Hprefix; rewrite ?Hprefix.
    { repeat split; try done. by right. }
    destruct (truthy (get "key_prefix" s3Config)) eqn:Hkey; rewrite ?Hkey.
    { repeat split; try done. by right. }
    repeat split; try done. by left.
Qed.

Lemma X22_s3_layouts_witness :
  input_s3
    (extractConfigDetails
       (Some (JObj [("input_option_type", JStr "s3");
                    ("input_option",
                     JObj [("bucket", JStr "outer");
                           ("s3_input_option",
                            JObj [("bucket", JStr "inner"); ("key_prefix", JStr "raw/")])])])))
  = Some {| bucket := Some (JStr "inner"); prefix := Some (JStr "raw/"); region := None |}.
Proof.
  destruct (X22_s3_layouts
              (Some (JObj [("input_option_type", JStr "s3");
                           ("input_option",
                            JObj [("bucket", JStr "outer");
                                  ("s3_input_option",
                                   JObj [("bucket", JStr "inner");
                                         ("key_prefix", JStr "raw/")])])])))
    as (Hinput & _).
  rewrite (Hinput eq_refl). reflexivity.
Defined.

(* ================================================================== *)
(** * Properties of the utilities *)
(* ================================================================== *)

Import Utils.

Section Paths.

Lemma replace_brackets_empty (pending : option string) :
  replace_brackets pending ""
  = match pending with Some digits => "[" +:+ digits | None => "" end.
Proof. done. Qed.

(** A suffix at which a pending bracket is given up can be treated on
    its own. *)
Lemma replace_brackets_app (t x : string) :
  (forall pending, replace_brackets pending t = replace_brackets pending "" +:+ x) ->
  forall p pending,
    replace_brackets pending (p +:+ t) = replace_brackets pending p +:+ x.
Proof.
  intros Ht. induction p as [|c p IH]; intros pending.
  - rewrite append_nil_l. apply Ht.
  - rewrite append_cons. cbn [replace_brackets].
    assert (Hplain :
      (if Ascii.eqb c "[" then replace_brackets (Some "") (p +:+ t)
       else String c (replace_brackets None (p +:+ t)))
      = (if Ascii.eqb c "[" then replace_brackets (Some "") p
         else String c (replace_brackets None p)) +:+ x).
    { destruct (Ascii.eqb c "["); rewrite IH; [done | by rewrite append_cons]. }
    destruct pending as [digits|]; [|exact Hplain].
    destruct (is_digit c); [apply IH|].
    destruct (Ascii.eqb c "]" && negb (String.eqb digits "")).
    + rewrite IH. by rewrite !append_assoc.
    + rewrite Hplain. by rewrite !append_assoc.
Qed.

Lemma replace_brackets_dot (b : string) (pending : option string) :
  replace_brackets pending (String "." b)
  = replace_brackets pending "" +:+ ("." +:+ replace_brackets None b).
Proof.
  cbn [replace_brackets]. destruct pending as [digits|]; cbn; [|done].
  by rewrite !append_assoc.
Qed.

Lemma replace_brackets_plain (s : string) :
  mentions "[" s = false -> replace_brackets None s = s.
Proof.
  induction s as [|c s IH]; [done|]. cbn.
  intros [Hc Hs]%orb_false_iff. rewrite Hc. by rewrite IH.
Qed.

Lemma all_digits_plain (s : string) : all_digits s = true -> mentions "[" s = false.
Proof.
  induction s as [|c s IH]; [done|]. cbn.
  intros [Hc Hs]%andb_true_iff. rewrite (IH Hs), orb_false_r.
  destruct (Ascii.eqb_spec c "[") as [->|]; [done | done].
Qed.

(** Digits followed by a closing bracket complete a match. *)
Lemma replace_brackets_digits (digits rest : string) :
  all_digits digits = true ->
  forall seen, seen +:+ digits <> "" ->
    replace_brackets (Some seen) (digits +:+ String "]" rest)
    = "." +:+ (seen +:+ digits) +:+ replace_brackets None rest.
Proof.
  induction digits as [|c digits IH]; intros Hdigits seen Hsome.
  - rewrite append_empty_r in *. rewrite append_nil_l. cbn [replace_brackets].
    replace (is_digit "]") with false by done.
    apply String.eqb_neq in Hsome. by rewrite Hsome.
  - cbn in Hdigits. apply andb_true_iff in Hdigits as [Hc Hdigits].
    rewrite append_cons. cbn [replace_brackets]. rewrite Hc.
    assert (Hshift : forall t, (seen +:+ String c "") +:+ t = seen +:+ String c t).
    { intros t. by rewrite append_assoc, append_cons, append_nil_l. }
    rewrite (IH Hdigits).
    + by rewrite Hshift.
    + rewrite Hshift. by destruct seen.
Qed.

Lemma replace_brackets_index (digits rest : string) (pending : option string) :
  all_digits digits = true -> digits <> "" ->
  replace_brackets pending (String "[" (digits +:+ String "]" rest))
  = replace_brackets pending "" +:+ ("." +:+ digits +:+ replace_brackets None rest).
Proof.
  intros Hdigits Hsome. cbn [replace_brackets].
  replace (is_digit "[") with false by done. cbn [Ascii.eqb andb].
  assert (Hmatch : replace_brackets (Some "") (digits +:+ String "]" rest)
                   = "." +:+ digits +:+ replace_brackets None rest).
  { by rewrite (replace_brackets_digits digits rest Hdigits ""). }
  replace (Ascii.eqb "[" "[") with true by done. replace (Ascii.eqb "[" "]") with false by done.
  cbn [andb]. rewrite Hmatch. destruct pending as [seen|]; [|done].
  cbn. by rewrite !append_assoc.
Qed.

Lemma split_dot_nonempty (s : string) : split_dot s <> [].
Proof.
  induction s as [|c s IH]; [done|]. cbn.
  destruct (Ascii.eqb c "."); [done|]. by destruct (split_dot s).
Qed.

Lemma split_dot_app (a b : string) :
  split_dot (a +:+ String "." b) = split_dot a ++ split_dot b.
Proof.
  induction a as [|c a IH]; [done|]. rewrite append_cons. cbn [split_dot].
  destruct (Ascii.eqb c "."); rewrite IH; [done|].
  pose proof (split_dot_nonempty a). by destruct (split_dot a).
Qed.

Lemma split_dot_plain (s : string) : mentions "." s = false -> split_dot s = [s].
Proof.
  induction s as [|c s IH]; [done|]. cbn.
  intros [Hc Hs]%orb_false_iff. by rewrite Hc, IH.
Qed.

Lemma clean_app (xs ys : list string) : clean (xs ++ ys) = clean xs ++ clean ys.
Proof. unfold clean. by rewrite List.map_app, List.filter_app. Qed.

Lemma walk_undefined (path : list string) : walk PUndefined path = PUndefined.
Proof. by destruct path. Qed.

Lemma walk_app (xs ys : list string) (v : PathValue) :
  walk v (xs ++ ys) = walk (walk v xs) ys.
Proof.
  revert v. induction xs as [|x xs IH]; intros v; [done|]. cbn [app walk].
  destruct v as [|[| | | |items|fields]| |]; rewrite ?walk_undefined; try done.
  destruct (parseInt x); [apply IH | by rewrite walk_undefined].
Qed.

Lemma getByPath_walk (v : PathValue) (rawPath : string) :
  getByPath v rawPath = walk v (segments rawPath).
Proof.
  unfold getByPath. destruct (String.eqb rawPath "") eqn:Hempty; [|done].
  apply String.eqb_eq in Hempty. by subst.
Qed.

Lemma segments_dot (a b : string) :
  segments (a +:+ String "." b) = segments a ++ segments b.
Proof.
  unfold segments.
  rewrite (replace_brackets_app (String "." b) ("." +:+ replace_brackets None b))
    by (intros; apply replace_brackets_dot).
  change ("." +:+ replace_brackets None b) with (String "." (replace_brackets None b)).
  by rewrite split_dot_app, clean_app.
Qed.

End Paths.

(** X23. Paths compose: following [first] and then [second] from the
    value found is following the two joined by a dot, for all paths,
    the empty one included; in particular a value that is missing, or
    [null], at the end of [first] gives [undefined] for any non-empty
    rest instead of an exception. *)
Theorem X23_getByPath_composes (input : PathValue) (first second : string) :
  getByPath (getByPath input first) second
  = getByPath input (first +:+ "." +:+ second) /\
  (segments second <> [] ->
   (getByPath input first = PUndefined \/ getByPath input first = PJson JNull) ->
   getByPath input (first +:+ "." +:+ second) = PUndefined).
Proof.
  assert (Hcompose : getByPath (getByPath input first) second
                     = getByPath input (first +:+ "." +:+ second)).
  { rewrite !getByPath_walk.
    change (first +:+ "." +:+ second) with (first +:+ String "." second).
    by rewrite segments_dot, walk_app. }
  split; [done|].
  intros Hsecond Hmissing. rewrite <- Hcompose, (getByPath_walk _ second).
  destruct (segments second) as [|segment rest]; [done|].
  by destruct Hmissing as [-> | ->].
Qed.

Lemma X23_getByPath_composes_witness :
  getByPath (PJson (JObj [("data", JObj [("next", JNull)])])) "data.next.token"
  = PUndefined.
Proof.
  destruct (X23_getByPath_composes (PJson (JObj [("data", JObj [("next", JNull)])]))
              "data.next" "token") as [_ Hmissing].
  apply Hmissing; [discriminate | by right].
Defined.

(** X24. An index in brackets is the index after a dot: [p[12]] and
    [p.12] name the same value, whatever [p] is. *)
Theorem X24_bracket_index_is_dot_index (input : PathValue) (p digits : string) :
  all_digits digits = true ->
  digits <> "" ->
  segments (p +:+ "[" +:+ digits +:+ "]") = segments (p +:+ "." +:+ digits) /\
  getByPath input (p +:+ "[" +:+ digits +:+ "]")
  = getByPath input (p +:+ "." +:+ digits).
Proof.
  intros Hdigits Hsome.
  assert (Hsegments : segments (p +:+ "[" +:+ digits +:+ "]")
                      = segments (p +:+ "." +:+ digits)).
  { unfold segments.
    change (p +:+ "[" +:+ digits +:+ "]") with (p +:+ String "[" (digits +:+ String "]" "")).
    change (p +:+ "." +:+ digits) with (p +:+ String "." digits).
    rewrite (replace_brackets_app (String "[" (digits +:+ String "]" ""))
               ("." +:+ digits +:+ replace_brackets None ""))
      by (intros; by apply replace_brackets_index).
    rewrite (replace_brackets_app (String "." digits) ("." +:+ replace_brackets None digits))
      by (intros; apply replace_brackets_dot).
    rewrite (replace_brackets_plain digits) by (by apply all_digits_plain).
    cbn [replace_brackets]. by rewrite append_empty_r. }
  split; [done|]. by rewrite !getByPath_walk, Hsegments.
Qed.

Lemma X24_bracket_index_is_dot_index_witness :
  getByPath (PJson (JObj [("items", JArr [JStr "a"; JStr "b"; JStr "c"])])) "items[2]"
  = PJson (JStr "c").
Proof.
  destruct (X24_bracket_index_is_dot_index
              (PJson (JObj [("items", JArr [JStr "a"; JStr "b"; JStr "c"])]))
              "items" "2") as [_ Hsame]; [reflexivity | discriminate |].
  etransitivity; [exact Hsame | reflexivity].
Defined.

(** X25. A key without dot, bracket or surrounding white space is a path
    of one segment: on an object it reads the own property of that name,
    and it gives [undefined] for a name that the object lacks, unless the
    name is a member of [Object.prototype]; on [undefined], [null], a
    string, a number or a boolean it gives [undefined]. *)
Theorem X25_getByPath_single_key (key : string) (fields : list (string * Json)) :
  key <> "" ->
  mentions "." key = false ->
  mentions "[" key = false ->
  trim key = key ->
  segments key = [key] /\
  (forall v, assoc key fields = Some v ->
     getByPath (PJson (JObj fields)) key = PJson v) /\
  (assoc key fields = None ->
   key <> "__proto__" -> is_prototype_function key = false ->
   getByPath (PJson (JObj fields)) key = PUndefined) /\
  getByPath PUndefined key = PUndefined /\
  getByPath (PJson JNull) key = PUndefined /\
  (forall s, getByPath (PJson (JStr s)) key = PUndefined) /\
  (forall n, getByPath (PJson (JNum n)) key = PUndefined) /\
  (forall b, getByPath (PJson (JBool b)) key = PUndefined).
Proof.
  intros Hkey Hdot Hbracket Htrim.
  assert (Hsegments : segments key = [key]).
  { unfold segments, clean.
    rewrite replace_brackets_plain, split_dot_plain by done.
    cbn. rewrite Htrim. apply String.eqb_neq in Hkey. by rewrite Hkey. }
  split; [done|].
  repeat split; intros; rewrite getByPath_walk, Hsegments; cbn; try done.
  - unfold property. by rewrite H.
  - unfold property. rewrite H.
    apply String.eqb_neq in H0. by rewrite H0, H1.
Qed.

Lemma X25_getByPath_single_key_witness :
  getByPath (PJson (JObj [("next_cursor", JStr "p2"); ("items", JArr [])])) "next_cursor"
  = PJson (JStr "p2").
Proof.
  destruct (X25_getByPath_single_key "next_cursor"
              [("next_cursor", JStr "p2"); ("items", JArr [])])
    as (_ & Hown & _); [discriminate | reflexivity | reflexivity | reflexivity |].
  by apply Hown.
Defined.

(* ================================================================== *)
(** * Properties of the pagination *)
(* ================================================================== *)

Import Pagination.

Section PaginationRuns.

Variable request : nat -> PageQuery -> Outcome.
Variable spec : PaginateSpec.

Lemma settle_returns (q : PageQuery) (r : ResponseSummary)
    (t : list (PageQuery * Outcome)) (collected : list PathValue)
    (responses : list ResponseSummary) :
  settle spec ((q, Returns r) :: t) collected responses
  = settle spec t (collected ++ page_items (page_data spec r)) (responses ++ [r]).
Proof.
  unfold settle. destruct t as [|entry t].
  - cbn. by rewrite !app_nil_r.
  - change (last ((q, Returns r) :: entry :: t)) with (last (entry :: t)).
    destruct (last (entry :: t)) as [[? [? | ? |]]|]; try done;
      cbn; by rewrite <- !app_assoc.
Qed.

(** The loop makes the requests of the trace and settles as the trace
    says. *)
Lemma paginate_loop_trace (left : nat) :
  forall i currentPage nextPageValue collected responses sent,
    paginate_loop request spec left i currentPage nextPageValue collected responses sent
    = {| Pagination.sent :=
           sent ++ List.map fst (trace request spec left i currentPage nextPageValue);
         settled :=
           settle spec (trace request spec left i currentPage nextPageValue)
             collected responses |}.
Proof.
  induction left as [|left IH]; intros i currentPage nextPageValue collected responses sent.
  - cbn. by rewrite !app_nil_r.
  - cbn [paginate_loop trace].
    destruct (request i (pageQuery spec nextPageValue currentPage)) as [r | e |];
      [|done..].
    rewrite settle_returns. unfold goes_on.
    destruct (page_ends spec (page_data spec r)); cbn [negb andb].
    { cbn. by rewrite !app_nil_r. }
    destruct (string_truthy (nextPagePath spec)); cbn [negb andb].
    + destruct (no_next_page _); cbn [negb].
      * cbn. by rewrite !app_nil_r.
      * rewrite IH. cbn [List.map fst]. by rewrite <- app_assoc.
    + rewrite IH. cbn [List.map fst]. by rewrite <- app_assoc.
Qed.

Lemma trace_length (left : nat) :
  forall i currentPage nextPageValue,
    length (trace request spec left i currentPage nextPageValue) <= left.
Proof.
  induction left as [|left IH]; intros i currentPage nextPageValue; [done|].
  cbn [trace length].
  destruct (request i _) as [r | e |]; cbn [length]; try lia.
  destruct (goes_on spec r); cbn [length]; [|lia].
  destruct (string_truthy _); specialize (IH (S i)); [|];
    match goal with |- S (length (trace _ _ _ _ ?c ?n)) <= _ => specialize (IH c n) end; lia.
Qed.

(** The entry number [k] holds the answer to the request number
    [i + k]. *)
Lemma trace_answers (left : nat) :
  forall i currentPage nextPageValue k q o,
    trace request spec left i currentPage nextPageValue !! k = Some (q, o) ->
    o = request (i + k) q.
Proof.
  induction left as [|left IH]; intros i currentPage nextPageValue k q o; [done|].
  cbn [trace]. destruct k as [|k].
  - cbn. intros [= <- <-]. by rewrite Nat.add_0_r.
  - cbn [lookup list_lookup]. rewrite <- Nat.add_succ_comm.
    destruct (request i _) as [r | e |]; [|done..].
    destruct (goes_on spec r); [|done].
    destruct (string_truthy _); apply IH.
Qed.

(** Every entry before the last is a response after which pagination
    goes on. *)
Lemma trace_goes_on (left : nat) :
  forall i currentPage nextPageValue k q o,
    trace request spec left i currentPage nextPageValue !! k = Some (q, o) ->
    S k < length (trace request spec left i currentPage nextPageValue) ->
    exists r, o = Returns r /\ goes_on spec r = true.
Proof.
  induction left as [|left IH]; intros i currentPage nextPageValue k q o; [done|].
  cbn [trace]. destruct (request i _) as [r | e |] eqn:Hanswer;
    [|cbn; intros; lia..].
  destruct (goes_on spec r) eqn:Hgoes; [|cbn; intros; lia].
  destruct k as [|k].
  - cbn [lookup list_lookup]. intros [= <- <-] _. by exists r.
  - cbn [lookup list_lookup length].
    destruct (string_truthy _); intros Hk Hlen; eapply IH; try exact Hk; lia.
Qed.

(** A trace shorter than the budget ends otherwise. *)
Lemma trace_last (left : nat) :
  forall i currentPage nextPageValue,
    length (trace request spec left i currentPage nextPageValue) < left ->
    exists q o,
      last (trace request spec left i currentPage nextPageValue) = Some (q, o) /\
      forall r, o = Returns r -> goes_on spec r = false.
Proof.
  induction left as [|left IH]; intros i currentPage nextPageValue; [cbn; lia|].
  cbn [trace]. destruct (request i _) as [r | e |] eqn:Hanswer;
    [|intros _; eexists _, _; by split..].
  destruct (goes_on spec r) eqn:Hgoes.
  - cbn [length]. intros Hlen.
    destruct (string_truthy _);
      match goal with
      | _ : S (length (trace _ _ _ ?j ?c ?n)) < _ |- _ =>
          destruct (IH j c n) as (q & o & Hlast & Hends); [lia|];
          exists q, o; split; [|done];
          rewrite last_cons, Hlast; done
      end.
  - intros _. eexists _, _. split; [done|]. by intros ? [= <-].
Qed.

(** Without [nextPagePath] the pages are numbered from the start
    page. *)
Lemma trace_numbered (left : nat) :
  string_truthy (nextPagePath spec) = false ->
  forall i currentPage nextPageValue k q o,
    trace request spec left i currentPage nextPageValue !! k = Some (q, o) ->
    q = pageQuery spec nextPageValue (currentPage + Z.of_nat k)%Z.
Proof.
  intros Hnumbered.
  induction left as [|left IH]; intros i currentPage nextPageValue k q o; [done|].
  cbn [trace]. rewrite Hnumbered. destruct k as [|k].
  - cbn. intros [= <- <-]. by rewrite Z.add_0_r.
  - cbn [lookup list_lookup].
    destruct (request i _) as [r | e |]; [|done..].
    destruct (goes_on spec r); [|done].
    intros Hk. apply IH in Hk. subst q. f_equal. lia.
Qed.

(** With [nextPagePath] each request after the first carries what the
    response before it had there. *)
Lemma trace_tokens (left : nat) :
  string_truthy (nextPagePath spec) = true ->
  forall i currentPage nextPageValue,
    (forall q o,
       trace request spec left i currentPage nextPageValue !! 0%nat = Some (q, o) ->
       q = pageQuery spec nextPageValue currentPage) /\
    (forall k q o,
       trace request spec left i currentPage nextPageValue !! S k = Some (q, o) ->
       exists qk r,
         trace request spec left i currentPage nextPageValue !! k = Some (qk, Returns r) /\
         no_next_page (getByPath (response_data r) (default "" (nextPagePath spec))) = false /\
         q = pageQuery spec (getByPath (response_data r) (default "" (nextPagePath spec)))
               currentPage).
Proof.
  intros Htokens.
  induction left as [|left IH]; intros i currentPage nextPageValue; [done|].
  cbn [trace]. rewrite Htokens. split.
  - cbn. by intros q o [= <- <-].
  - intros k q o. cbn [lookup list_lookup].
    destruct (request i _) as [r | e |] eqn:Hanswer; [|done..].
    destruct (goes_on spec r) eqn:Hgoes; [|done].
    destruct (IH (S i) currentPage
                (getByPath (response_data r) (default "" (nextPagePath spec))))
      as [Hfirst Hrest].
    destruct k as [|k].
    + intros Hk. apply Hfirst in Hk. eexists _, r. split; [done|]. split; [|done].
      unfold goes_on in Hgoes. rewrite Htokens in Hgoes.
      apply andb_true_iff in Hgoes as [_ Hnext]. cbn in Hnext.
      by apply negb_true_iff in Hnext.
    + intros Hk. apply Hrest in Hk as (qk & rk & Hqk & Hnext & Hq).
      by exists qk, rk.
Qed.

(** When the run resolves, every entry of the trace is a response. *)
Lemma resolved_all_returned (t : list (PageQuery * Outcome)) (collected : list PathValue)
    (responses : list ResponseSummary) (pages : Pages) :
  settle spec t collected responses = Resolved pages ->
  (forall k q o, t !! k = Some (q, o) -> S k < length t -> exists r, o = Returns r) ->
  Forall (fun entry => exists r, snd entry = Returns r) t.
Proof.
  intros Hsettle Hbefore. apply Forall_lookup_2. intros k [q o] Hk. cbn.
  destruct (decide (S k < length t)) as [Hlt | Hlast]; [by eapply Hbefore|].
  apply lookup_lt_Some in Hk as Hbound.
  assert (Hpred : k = pred (length t)) by lia.
  unfold settle in Hsettle. rewrite last_lookup, <- Hpred, Hk in Hsettle.
  destruct o as [r | e |]; [by exists r | done | done].
Qed.

Lemma returned_lookup (t : list (PageQuery * Outcome)) :
  Forall (fun entry => exists r, snd entry = Returns r) t ->
  length (returned t) = length t /\
  forall k, returned t !! k = (t !! k) ≫= answer.
Proof.
  induction 1 as [|[q o] t [r Hr] _ [IHlen IHk]]; [done|].
  cbn in Hr. subst o. unfold returned in *. cbn. split; [by rewrite IHlen|].
  intros [|k]; [done | apply IHk].
Qed.

Lemma settle_resolved (t : list (PageQuery * Outcome)) (pages : Pages) :
  settle spec t [] [] = Resolved pages ->
  pages = {| items := concat (List.map (fun r => page_items (page_data spec r)) (returned t));
             responses := returned t |}.
Proof.
  unfold settle. destruct (last t) as [[? [? | ? |]]|]; by intros [= <-].
Qed.

(** The run of [paginate] in terms of its trace. *)
Lemma paginate_trace :
  let t := trace request spec (Z.to_nat (default 50%Z (maxPages spec))) 0
             (default 1%Z (startPage spec)) PUndefined in
  sent (paginate request spec) = List.map fst t /\
  settled (paginate request spec) = settle spec t [] [].
Proof. unfold paginate. by rewrite paginate_loop_trace. Qed.

Lemma paginate_resolved (pages : Pages) :
  let t := trace request spec (Z.to_nat (default 50%Z (maxPages spec))) 0
             (default 1%Z (startPage spec)) PUndefined in
  settled (paginate request spec) = Resolved pages ->
  pages = {| items := concat (List.map (fun r => page_items (page_data spec r)) (returned t));
             responses := returned t |} /\
  length (returned t) = length t /\
  forall k, returned t !! k = (t !! k) ≫= answer.
Proof.
  intros t Hresolved. destruct paginate_trace as [_ Hsettled]. fold t in Hsettled.
  rewrite Hsettled in Hresolved. split; [by apply settle_resolved|].
  apply returned_lookup. eapply resolved_all_returned; [exact Hresolved|].
  intros k q o Hk Hlen. destruct (trace_goes_on _ _ _ _ _ _ _ Hk Hlen) as (r & -> & _).
  by exists r.
Qed.

Lemma lookup_map_fst (t : list (PageQuery * Outcome)) (k : nat) (q : PageQuery) :
  List.map fst t !! k = Some q -> exists o, t !! k = Some (q, o).
Proof.
  revert k. induction t as [|[q0 o0] t IH]; intros [|k]; try done.
  - cbn. intros [= <-]. by exists o0.
  - cbn. apply IH.
Qed.

Lemma last_map_fst (t : list (PageQuery * Outcome)) (q : PageQuery) (o : Outcome) :
  last t = Some (q, o) -> last (List.map fst t) = Some q.
Proof.
  rewrite !last_lookup, length_map. intros Hlast.
  revert Hlast. generalize (pred (length t)). intros k. revert k.
  induction t as [|[q0 o0] t IH]; intros [|k]; try done.
  - cbn. by intros [= <- <-].
  - cbn. apply IH.
Qed.

End PaginationRuns.

Lemma assoc_set_property_eq {V : Type} (o : list (string * V)) (k : string) (v : V) :
  assoc k (set_property o k v) = Some v.
Proof.
  induction o as [|[k0 v0] o IH]; cbn.
  - by rewrite String.eqb_refl.
  - destruct (String.eqb k k0) eqn:Hk; cbn; rewrite ?String.eqb_refl, ?Hk; done.
Qed.

Lemma assoc_set_property_ne {V : Type} (o : list (string * V)) (k k' : string) (v : V) :
  k <> k' -> assoc k' (set_property o k v) = assoc k' o.
Proof.
  intros Hne. induction o as [|[k0 v0] o IH]; cbn.
  - assert (String.eqb k' k = false) as -> by (apply String.eqb_neq; congruence). done.
  - destruct (String.eqb k k0) eqn:Hk; cbn.
    + apply String.eqb_eq in Hk. subst k0.
      assert (String.eqb k' k = false) as -> by (apply String.eqb_neq; congruence). done.
    + by rewrite IH.
Qed.

Lemma page_value_token (token : PathValue) (currentPage : Z) :
  no_next_page token = false -> page_value token currentPage = PageToken token.
Proof. by destruct token as [|[|[|]| | | |]| |]. Qed.

Lemma pageQuery_page (spec : PaginateSpec) (nextPageValue : PathValue) (currentPage : Z) :
  number_truthy (pageSize spec) = false
  \/ default "per_page" (pageSizeParam spec) <> default "page" (pageParam spec) ->
  assoc (default "page" (pageParam spec)) (pageQuery spec nextPageValue currentPage)
  = Some (page_value nextPageValue currentPage).
Proof.
  intros Hclash. unfold pageQuery.
  destruct (number_truthy (pageSize spec) && _) eqn:Hsize.
  - apply andb_true_iff in Hsize as [Hsize _].
    destruct Hclash as [Hnone | Hne]; [congruence|].
    rewrite assoc_set_property_ne by done. apply assoc_set_property_eq.
  - apply assoc_set_property_eq.
Qed.

Lemma pageQuery_size (spec : PaginateSpec) (nextPageValue : PathValue) (currentPage : Z) :
  number_truthy (pageSize spec) = true ->
  default "per_page" (pageSizeParam spec) <> "" ->
  assoc (default "per_page" (pageSizeParam spec)) (pageQuery spec nextPageValue currentPage)
  = Some (PageSize (default 0%Z (pageSize spec))).
Proof.
  intros Hsize Hparam. unfold pageQuery. rewrite Hsize.
  apply String.eqb_neq in Hparam. rewrite Hparam. cbn [negb andb].
  apply assoc_set_property_eq.
Qed.

(** By default, pagination goes on only after a page that is an array
    with entries, as many as the page size when one is set. *)
Lemma goes_on_default (spec : PaginateSpec) (r : ResponseSummary) :
  default true (stopWhenEmpty spec) = true ->
  goes_on spec r = true ->
  exists entries,
    page_data spec r = PJson (JArr entries) /\ entries <> [] /\
    (number_truthy (pageSize spec) = true ->
     (default 0 (pageSize spec) <= Z.of_nat (length entries))%Z).
Proof.
  intros Hstop. unfold goes_on, page_ends. rewrite Hstop.
  intros [Hends _]%andb_true_iff. apply negb_true_iff in Hends.
  destruct (page_data spec r) as [|[| | | |entries|]| |]; try done.
  exists entries. apply orb_false_iff in Hends as [Hempty Hshort].
  split; [done|]. split.
  - intros ->. done.
  - intros Hsize. rewrite Hsize in Hshort. cbn in Hshort. lia.
Qed.

(** X26. [paginate] makes at most [maxPages] requests (50 without the
    argument, none for a [maxPages] of zero or less), numbered from 0 in
    the order made. It resolves with one response per request made, the
    response number [k] being what the request number [k] returned; it
    rejects with the error of its last request when that one threw, on
    the spot and without the pages read so far; and it stays pending when
    its last request does. *)
Theorem X26_paginate_outcome (request : nat -> PageQuery -> Outcome) (spec : PaginateSpec) :
  let run := paginate request spec in
  length (sent run) <= Z.to_nat (default 50%Z (maxPages spec)) /\
  match settled run with
  | Resolved pages =>
      length (responses pages) = length (sent run) /\
      forall k q, sent run !! k = Some q ->
        exists r, responses pages !! k = Some r /\ request k q = Returns r
  | Rejected e =>
      exists q, last (sent run) = Some q /\ request (pred (length (sent run))) q = Throws e
  | Pending =>
      exists q, last (sent run) = Some q /\
        request (pred (length (sent run))) q = NeverSettles
  end.
Proof.
  intros run. subst run.
  destruct (paginate_trace request spec) as [Hsent Hsettled]. cbv zeta in *.
  set (t := trace request spec _ _ _ _) in *.
  split; [rewrite Hsent, length_map; apply trace_length|].
  destruct (settled (paginate request spec)) as [pages | e |] eqn:Hrun.
  - destruct (paginate_resolved request spec pages Hrun) as (-> & Hlen & Hlookup).
    fold t in Hlen, Hlookup. cbn [responses]. rewrite Hsent, length_map.
    split; [done|]. intros k q Hk.
    apply lookup_map_fst in Hk as [o Hk].
    pose proof (trace_answers _ _ _ _ _ _ _ _ _ Hk) as Ho. cbn in Ho.
    specialize (Hlookup k). rewrite Hk in Hlookup. cbn in Hlookup.
    apply lookup_lt_Some in Hk as Hbound. rewrite <- Hlen in Hbound.
    apply lookup_lt_is_Some_2 in Hbound as [r Hr].
    exists r. split; [done|]. rewrite Hr in Hlookup. unfold answer in Hlookup.
    cbn in Hlookup. destruct o; [|done..]. injection Hlookup as ->. by rewrite <- Ho.
  - unfold settle in Hsettled. destruct (last t) as [[q o]|] eqn:Hlast; [|done].
    destruct o as [r | e' |]; try done. injection Hsettled as ->.
    exists q. rewrite Hsent, length_map. split; [by eapply last_map_fst|].
    rewrite last_lookup in Hlast.
    by rewrite (trace_answers _ _ _ _ _ _ _ _ _ Hlast).
  - unfold settle in Hsettled. destruct (last t) as [[q o]|] eqn:Hlast; [|done].
    destruct o as [r | e' |]; try done.
    exists q. rewrite Hsent, length_map. split; [by eapply last_map_fst|].
    rewrite last_lookup in Hlast.
    by rewrite (trace_answers _ _ _ _ _ _ _ _ _ Hlast).
Qed.

Lemma X26_paginate_outcome_witness :
  exists q,
    last (sent (paginate sample_failing_request sample_cursor)) = Some q /\
    sample_failing_request 1 q = Throws (Error "connection reset").
Proof. exact (proj2 (X26_paginate_outcome sample_failing_request sample_cursor)). Defined.

(** X27. The items that [paginate] resolves with are what its responses
    hold at [dataPath], in the order of the responses: the entries of an
    array, a value that is no array as one item ([null] too), and
    nothing where the path leads to [undefined]. *)
Theorem X27_paginate_items (request : nat -> PageQuery -> Outcome) (spec : PaginateSpec)
    (pages : Pages) :
  settled (paginate request spec) = Resolved pages ->
  items pages
  = concat (List.map (fun r => page_items (page_data spec r)) (responses pages)).
Proof.
  intros Hrun. by destruct (paginate_resolved request spec pages Hrun) as (-> & _).
Qed.

Lemma X27_paginate_items_witness :
  exists pages,
    settled (paginate sample_request sample_numbered) = Resolved pages /\
    items pages = List.map (fun n => PJson (JNum n)) [1; 2; 3; 4; 5]%Z.
Proof.
  eexists. split; [reflexivity|].
  etransitivity; [apply (X27_paginate_items sample_request sample_numbered) |];
    reflexivity.
Defined.

(** X28. [paginate] reads on exactly as long as the responses ask for:
    pagination goes on after every response but the last, and when fewer
    than [maxPages] requests were made it does not go on after the last.
    With [stopWhenEmpty] left at its default, every response but the
    last therefore held an array with entries at [dataPath], at least
    [pageSize] of them when a page size is set. *)
Theorem X28_paginate_stops_at_last_page (request : nat -> PageQuery -> Outcome)
    (spec : PaginateSpec) (pages : Pages) :
  settled (paginate request spec) = Resolved pages ->
  (forall k r, responses pages !! k = Some r -> S k < length (responses pages) ->
     goes_on spec r = true) /\
  (length (responses pages) < Z.to_nat (default 50%Z (maxPages spec)) ->
   exists r, last (responses pages) = Some r /\ goes_on spec r = false) /\
  (default true (stopWhenEmpty spec) = true ->
   forall k r, responses pages !! k = Some r -> S k < length (responses pages) ->
     exists entries,
       page_data spec r = PJson (JArr entries) /\ entries <> [] /\
       (number_truthy (pageSize spec) = true ->
        (default 0 (pageSize spec) <= Z.of_nat (length entries))%Z)).
Proof.
  intros Hrun.
  destruct (paginate_resolved request spec pages Hrun) as (-> & Hlen & Hlookup).
  cbv zeta in *. set (t := trace request spec _ _ _ _) in *. cbn [responses].
  assert (Hbefore : forall k r, returned t !! k = Some r -> S k < length (returned t) ->
                      goes_on spec r = true).
  { intros k r Hk Hlt. rewrite Hlookup in Hk. rewrite Hlen in Hlt.
    destruct (t !! k) as [[q o]|] eqn:Htk; [|done]. cbn in Hk.
    destruct (trace_goes_on _ _ _ _ _ _ _ _ _ Htk Hlt) as (r' & -> & Hgoes).
    unfold answer in Hk. cbn in Hk. by injection Hk as <-. }
  split; [exact Hbefore|]. split.
  - rewrite Hlen. intros Hshort.
    destruct (trace_last _ _ _ _ _ _ Hshort) as (q & o & Hlast & Hends). fold t in Hlast.
    rewrite last_lookup in Hlast. apply lookup_lt_Some in Hlast as Hbound.
    rewrite last_lookup, Hlen, Hlookup, Hlast. cbn.
    assert (Hsome : is_Some (returned t !! pred (length t))).
    { apply lookup_lt_is_Some_2. lia. }
    rewrite Hlookup, Hlast in Hsome. cbn in Hsome. destruct Hsome as [r Hr].
    exists r. split; [done|]. apply Hends. unfold answer in Hr. cbn in Hr.
    destruct o; [|done..]. by injection Hr as ->.
  - intros Hstop k r Hk Hlt. apply goes_on_default; [done|]. by eapply Hbefore.
Qed.

Lemma X28_paginate_stops_at_last_page_witness :
  exists r,
    s_data r = Some (sample_page [5]%Z JNull) /\ goes_on sample_numbered r = false.
Proof.
  destruct (X28_paginate_stops_at_last_page sample_request sample_numbered
              {| items := List.map (fun n => PJson (JNum n)) [1; 2; 3; 4; 5]%Z;
                 responses :=
                   [sample_response (sample_page [1; 2]%Z (JStr "c1"));
                    sample_response (sample_page [3; 4]%Z (JStr "c2"));
                    sample_response (sample_page [5]%Z JNull)] |} eq_refl)
    as (_ & Hlast & _).
  destruct Hlast as (r & Hr & Hends); [vm_compute; lia|].
  injection Hr as <-. exists (sample_response (sample_page [5]%Z JNull)).
  split; [reflexivity | exact Hends].
Defined.

(** X29. Without [nextPagePath] the request number [k] asks for page
    [startPage + k] (from 1 without the argument): its query is the
    caller's with the page under [pageParam], and with the page size
    under [pageSizeParam] when a page size is set. When the two names
    are the same, the page size takes the place of the page number. *)
Theorem X29_numbered_pages (request : nat -> PageQuery -> Outcome) (spec : PaginateSpec)
    (k : nat) (q : PageQuery) :
  string_truthy (nextPagePath spec) = false ->
  sent (paginate request spec) !! k = Some q ->
  let page := (default 1 (startPage spec) + Z.of_nat k)%Z in
  q = pageQuery spec PUndefined page /\
  (number_truthy (pageSize spec) = false
   \/ default "per_page" (pageSizeParam spec) <> default "page" (pageParam spec) ->
   assoc (default "page" (pageParam spec)) q = Some (PageNumber page)) /\
  (number_truthy (pageSize spec) = true ->
   default "per_page" (pageSizeParam spec) <> "" ->
   assoc (default "per_page" (pageSizeParam spec)) q
   = Some (PageSize (default 0%Z (pageSize spec)))).
Proof.
  intros Hnumbered Hk page.
  destruct (paginate_trace request spec) as [Hsent _]. cbv zeta in Hsent.
  rewrite Hsent in Hk. apply lookup_map_fst in Hk as [o Hk].
  apply (trace_numbered request spec _ Hnumbered) in Hk. fold page in Hk. subst q.
  split; [done|]. split.
  - intros Hclash. by rewrite pageQuery_page.
  - apply pageQuery_size.
Qed.

Lemma X29_numbered_pages_witness :
  assoc "page" [("status", Given (QOne (QStr "active"))); ("page", PageNumber 3);
                ("per_page", PageSize 2)]
  = Some (PageNumber 3).
Proof.
  destruct (X29_numbered_pages sample_request sample_numbered 2
              [("status", Given (QOne (QStr "active"))); ("page", PageNumber 3);
               ("per_page", PageSize 2)] eq_refl eq_refl) as (_ & Hpage & _).
  apply Hpage. right. discriminate.
Defined.

(** X30. With [nextPagePath] the first request asks for the start page
    and every later one carries, under [pageParam], the value that the
    response before it had at [nextPagePath]; that value is neither
    [undefined] nor [null] nor [false], and the page number is not sent
    again. *)
Theorem X30_token_pages (request : nat -> PageQuery -> Outcome) (spec : PaginateSpec) :
  string_truthy (nextPagePath spec) = true ->
  let run := paginate request spec in
  let start := default 1%Z (startPage spec) in
  (forall q, sent run !! 0%nat = Some q -> q = pageQuery spec PUndefined start) /\
  (forall k q, sent run !! S k = Some q ->
     exists qk r,
       sent run !! k = Some qk /\ request k qk = Returns r /\
       let token := getByPath (response_data r) (default "" (nextPagePath spec)) in
       no_next_page token = false /\
       q = pageQuery spec token start /\
       (number_truthy (pageSize spec) = false
        \/ default "per_page" (pageSizeParam spec) <> default "page" (pageParam spec) ->
        assoc (default "page" (pageParam spec)) q = Some (PageToken token))).
Proof.
  intros Htokens run start. subst run.
  destruct (paginate_trace request spec) as [Hsent _]. cbv zeta in Hsent.
  set (t := trace request spec _ _ _ _) in *.
  destruct (trace_tokens request spec (Z.to_nat (default 50%Z (maxPages spec))) Htokens
              0 start PUndefined) as [Hfirst Hrest].
  fold t in Hfirst, Hrest. rewrite Hsent. split.
  - intros q Hq. apply lookup_map_fst in Hq as [o Hq]. by eapply Hfirst.
  - intros k q Hq. apply lookup_map_fst in Hq as [o Hq].
    apply Hrest in Hq as (qk & r & Hqk & Hnext & ->).
    exists qk, r. split.
    { rewrite lookup_map. exact (f_equal (fmap fst) Hqk). }
    split.
    { pose proof (trace_answers _ _ _ _ _ _ _ _ _ Hqk) as Hanswer. by cbn in Hanswer. }
    cbv zeta. split; [done|]. split; [done|].
    intros Hclash. by rewrite pageQuery_page, page_value_token.
Qed.

Lemma X30_token_pages_witness :
  exists qk r,
    sent (paginate sample_request sample_cursor) !! 1%nat = Some qk /\
    sample_request 1 qk = Returns r /\
    assoc "cursor" [("cursor", PageToken (PJson (JStr "c2")))]
    = Some (PageToken (PJson (JStr "c2"))).
Proof.
  destruct (X30_token_pages sample_request sample_cursor eq_refl) as [_ Hrest].
  destruct (Hrest 1%nat [("cursor", PageToken (PJson (JStr "c2")))] eq_refl)
    as (qk & r & Hqk & Hr & Htoken).
  exists qk, r. split; [exact Hqk|]. split; [exact Hr|].
  destruct Htoken as (_ & _ & Hpage).
  injection Hqk as <-. injection Hr as <-. apply Hpage. by left.
Defined.
